(** * Rubik cube A* solver: a shallow embedding of [A_star_solver.py]

    The embedding follows the Python source function by function.

    - Python integers are [Z]; the walking index of [correct_orientation]
      and object references are [nat].
    - The cube state is the nested tuple that [heuristic] zips against
      [cube_map]: faces, rows, stickers, as [list (list (list Z))].
    - Exceptions are explicit: every function that can raise returns a
      [res], and a loop whose termination is not structural takes fuel and
      answers [Timeout] when it runs out.
    - [h] and [f] are Python floats obtained as [int / int] and [int + float];
      the model keeps the exact rational value.
    - [AStarNode] objects are mutable and shared between [Q], [visited_nodes]
      and the [parent] fields, so they live in an object store and are
      named by reference. *)

From Stdlib Require Import ZArith QArith Lia.
From stdpp Require Import base list gmap.

Local Open Scope Z_scope.

(** ** Exceptions and results *)

Inductive exn : Type :=
| IndexError          (* list index out of range *)
| KeyError            (* missing dictionary key *)
| TypeError           (* arithmetic on None *)
| ValueError          (* list.remove(x): x not in list *)
| AttributeError      (* attribute access on None *)
| ZeroDivisionError
| DanglingReference.  (* a reference outside the object store: model only *)

Inductive res (A : Type) : Type :=
| Ok (a : A)
| Raise (e : exn)
| Timeout.
Arguments Ok {A} a.
Arguments Raise {A} e.
Arguments Timeout {A}.

Definition res_bind {A B : Type} (m : res A) (f : A -> res B) : res B :=
  match m with
  | Ok a => f a
  | Raise e => Raise e
  | Timeout => Timeout
  end.

Notation "'let*' x ':=' m 'in' k" := (res_bind m (fun x => k))
  (at level 10, x pattern, m at level 100, k at level 200,
   format "'[v' 'let*'  x  ':='  m  'in' '/' k ']'").

(** The rational numbers standing for Python floats.  The name [Q] is kept
    for the solver's queue, as in the source. *)
Definition rational : Type := QArith_base.Q.

Definition Qltb (a b : rational) : bool := negb (Qle_bool b a).

(** ** Static tables *)

Definition State : Type := list (list (list Z)).

Definition cube_map : list (list (list Z)) :=
  [ [[0;  8; 1]; [ 9; 20; 10]; [2; 11; 3]];
    [[1; 12; 4]; [10; 21; 13]; [3; 14; 5]];
    [[4; 15; 6]; [13; 22; 16]; [5; 17; 7]];
    [[6; 18; 0]; [16; 23;  9]; [7; 19; 2]];
    [[0; 18; 6]; [ 8; 24; 15]; [1; 12; 4]];
    [[3; 14; 5]; [11; 25; 17]; [2; 19; 7]] ].

Definition dict_cubies : gmap Z (list Z) :=
  list_to_map
    [ (0, [0; 3; 4]); (1, [0; 1; 4]); (2, [0; 3; 5]); (3, [0; 1; 5]);
      (4, [1; 2; 4]); (5, [1; 2; 5]); (6, [2; 3; 4]); (7, [2; 3; 5]);
      (8, [0; 4]); (9, [0; 3]); (10, [0; 1]); (11, [0; 5]);
      (12, [1; 4]); (13, [1; 2]); (14, [1; 5]); (15, [2; 4]);
      (16, [2; 3]); (17, [2; 5]); (18, [3; 4]); (19, [3; 5]) ].

(** [x in range(lo, hi)] for an integer [x]. *)
Definition in_range (lo hi x : Z) : bool := (lo <=? x) && (x <? hi).

(** [dict_cubies[cubie]] *)
Definition dict_get (cubie : Z) : res (list Z) :=
  match dict_cubies !! cubie with
  | Some colors => Ok colors
  | None => Raise KeyError
  end.

(** [dict_cubies[cubie][i]] *)
Definition dict_get_at (cubie : Z) (i : nat) : res Z :=
  let* colors := dict_get cubie in
  match colors !! i with
  | Some c => Ok c
  | None => Raise IndexError
  end.

(** ** Heuristic evaluator *)

(** The comprehension of [heuristic]: three nested [zip]s, each truncating
    at the shorter argument. *)
Definition list_of_pairs (state : State) : list (Z * Z) :=
  flat_map
    (fun face : list (list Z) * list (list Z) =>
       flat_map (fun row : list Z * list Z => combine row.1 row.2)
                (combine face.1 face.2))
    (combine cube_map state).

(** The [for couple in list_of_pairs] loop of [correct_position]. *)
Fixpoint correct_position_loop (cubie : Z) (pairs : list (Z * Z))
    (boolean : bool) : res bool :=
  match pairs with
  | [] => Ok boolean
  | couple :: rest =>
      if couple.1 =? cubie then
        let* colors := dict_get cubie in
        if negb (bool_decide (couple.2 ∈ colors))
        then correct_position_loop cubie rest false
        else correct_position_loop cubie rest boolean
      else correct_position_loop cubie rest boolean
  end.

Definition correct_position (pairs : list (Z * Z)) (cubie : Z) : res bool :=
  if in_range 0 20 cubie
  then correct_position_loop cubie pairs true
  else Ok true.

(** The loop of [correct_orientation] with its walking index [i]. *)
Fixpoint correct_orientation_loop (cubie : Z) (pairs : list (Z * Z))
    (i : nat) : res bool :=
  match pairs with
  | [] => Ok false
  | couple :: rest =>
      if couple.1 =? cubie then
        let* c := dict_get_at cubie i in
        if couple.2 =? c
        then Ok true
        else correct_orientation_loop cubie rest (S i)
      else correct_orientation_loop cubie rest i
  end.

(** Outside [range(0, 20)] the function falls off its end and returns
    [None]. *)
Definition correct_orientation (pairs : list (Z * Z)) (cubie : Z)
    : res (option bool) :=
  if in_range 0 20 cubie
  then let* b := correct_orientation_loop cubie pairs 0%nat in Ok (Some b)
  else Ok None.

(** [bool_orient == True] *)
Definition is_True (b : option bool) : bool :=
  match b with
  | Some true => true
  | _ => false
  end.

Definition moves_for_correct_cubie (pairs : list (Z * Z)) (cubie : Z)
    : res (option Z) :=
  let* bool_pos := correct_position pairs cubie in
  let* bool_orient := correct_orientation pairs cubie in
  if in_range 0 8 cubie then
    if is_True bool_orient then
      if bool_pos then Ok (Some 0) else Ok (Some 1)
    else Ok (Some 2)
  else if in_range 8 20 cubie then
    if bool_pos then
      if is_True bool_orient then Ok (Some 0) else Ok (Some 3)
    else
      if is_True bool_orient then Ok (Some 1) else Ok (Some 2)
  else Ok None.

(** The [for i in range(20)] loop of [heuristic]. *)
Fixpoint sum_moves_loop (pairs : list (Z * Z)) (ids : list Z)
    (sum_moves : Z) : res Z :=
  match ids with
  | [] => Ok sum_moves
  | i :: rest =>
      let* m := moves_for_correct_cubie pairs i in
      match m with
      | Some k => sum_moves_loop pairs rest (sum_moves + k)
      | None => Raise TypeError
      end
  end.

Definition heuristic (state : State) (divisor : Z) : res rational :=
  let* sum_moves := sum_moves_loop (list_of_pairs state) (seqZ 0 20) 0 in
  if divisor =? 0
  then Raise ZeroDivisionError
  else Ok (inject_Z sum_moves / inject_Z divisor)%Q.

(** Modelled from the spec: [rub_cube.RubCube(3).get_State()], the state of
    a new cube of the absent [rub_cube] module.  Every face is uniformly
    one colour; face [k] carries colour [k], the assignment under which
    [dict_cubies] lists the solved stickers of every cubie. *)
Definition solved_state : State :=
  map (fun k : Z => replicate 3 (replicate 3 k)) (seqZ 0 6).

(** A well-formed state: six faces of three rows of three stickers, each
    one of the six colours. *)
Definition valid_state (state : State) : bool :=
  (length state =? 6)%nat &&
  forallb (fun face : list (list Z) =>
    (length face =? 3)%nat &&
    forallb (fun row : list Z =>
      (length row =? 3)%nat && forallb (in_range 0 6) row) face) state.

(** ** Search nodes *)

Inductive axis : Type := ax_x | ax_y | ax_z.

#[export] Instance axis_eq_dec : EqDecision axis.
Proof. solve_decision. Defined.

(** A rotation [(axis, layer, sense)]. *)
Definition move : Type := axis * Z * Z.

(** A reference to an [AStarNode] object: its index in the object store. *)
Abbreviation ref := nat (only parsing).

Record AStarNode : Type := mkNode {
  state : State;
  visited : bool;
  parent : option ref;
  rotation : option (list move);
  g : Z;
  h : rational;
  f : rational
}.

(** [AStarNode.__init__] *)
Definition new_node (st : State) (vis : bool) (par : option ref) (g0 : Z)
    (h0 : rational) (rot : option (list move)) : AStarNode :=
  {| state := st; visited := vis; parent := par; rotation := rot;
     g := g0; h := h0; f := (inject_Z g0 + h0)%Q |}.

Definition set_parent (par : option ref) (n : AStarNode) : AStarNode :=
  {| state := state n; visited := visited n; parent := par;
     rotation := rotation n; g := g n; h := h n; f := f n |}.

Definition set_costs (g0 : Z) (f0 : rational) (n : AStarNode) : AStarNode :=
  {| state := state n; visited := visited n; parent := parent n;
     rotation := rotation n; g := g0; h := h n; f := f0 |}.

(** Dereferencing. *)
Definition deref (store : list AStarNode) (r : ref) : res AStarNode :=
  match store !! r with
  | Some n => Ok n
  | None => Raise DanglingReference
  end.

(** [AStarNode.calculate_cost], called on the node [self] with a
    parent that may be [None]. *)
Definition calculate_cost (store : list AStarNode) (self : AStarNode)
    (par : option ref) : res (Z * rational) :=
  let* g0 := match par with
             | Some p => let* np := deref store p in Ok (g np + 1)
             | None => Ok 1
             end in
  Ok (g0, (inject_Z g0 + h self)%Q).

(** [AStarNode.update_cost] *)
Definition update_cost (store : list AStarNode) (self : ref)
    : res (list AStarNode) :=
  let* n := deref store self in
  let* gf := calculate_cost store n (parent n) in
  Ok (<[self := set_costs gf.1 gf.2 n]> store).

(** [AStarNode.update_parent] *)
Definition update_parent (store : list AStarNode) (self : ref)
    (cheaper_parent : option ref) : res (list AStarNode) :=
  let* n := deref store self in
  let* gf := calculate_cost store n cheaper_parent in
  if Qltb gf.2 (f n)
  then update_cost (<[self := set_parent cheaper_parent n]> store) self
  else Ok store.

(** What [in] and [list.remove] compare with: identity first, then
    [AStarNode.__eq__], which compares the states. *)
Definition node_eqb (store : list AStarNode) (a b : ref) : res bool :=
  if bool_decide (a = b) then Ok true
  else
    let* na := deref store a in
    let* nb := deref store b in
    Ok (bool_decide (state na = state nb)).

(** [node in l] *)
Fixpoint list_contains (store : list AStarNode) (node : ref) (l : list ref)
    : res bool :=
  match l with
  | [] => Ok false
  | e :: rest =>
      let* b := node_eqb store e node in
      if b then Ok true else list_contains store node rest
  end.

(** [l.remove(node)]: deletes the first item equal to [node]. *)
Fixpoint list_remove (store : list AStarNode) (node : ref) (l : list ref)
    : res (list ref) :=
  match l with
  | [] => Raise ValueError
  | e :: rest =>
      let* b := node_eqb store e node in
      if b then Ok rest
      else let* rest' := list_remove store node rest in Ok (e :: rest')
  end.

(** [min(l, key = lambda node: node.f)]: the first item of least key. *)
Fixpoint min_loop (store : list AStarNode) (best : ref) (best_key : rational)
    (l : list ref) : res ref :=
  match l with
  | [] => Ok best
  | e :: rest =>
      let* n := deref store e in
      if Qltb (f n) best_key
      then min_loop store e (f n) rest
      else min_loop store best best_key rest
  end.

Definition min_by_f (store : list AStarNode) (l : list ref) : res ref :=
  match l with
  | [] => Raise ValueError
  | e :: rest => let* n := deref store e in min_loop store e (f n) rest
  end.

(** ** The solver *)

(** The [AStarSolver] object, together with the store of the node objects.
    Modelled from the spec: the [cube] of the absent [rub_cube] module is
    the state it holds; [get_State] reads it and [set_State] replaces
    it. *)
Record Solver : Type := mkSolver {
  nodes : list AStarNode;
  cube : State;
  Q : list ref;
  visited_nodes : list ref;
  divisor : Z
}.

Definition set_nodes (store : list AStarNode) (sv : Solver) : Solver :=
  mkSolver store (cube sv) (Q sv) (visited_nodes sv) (divisor sv).

Definition set_State (st : State) (sv : Solver) : Solver :=
  mkSolver (nodes sv) st (Q sv) (visited_nodes sv) (divisor sv).

Definition set_Q (q : list ref) (sv : Solver) : Solver :=
  mkSolver (nodes sv) (cube sv) q (visited_nodes sv) (divisor sv).

Definition set_visited_nodes (v : list ref) (sv : Solver) : Solver :=
  mkSolver (nodes sv) (cube sv) (Q sv) v (divisor sv).

(** [AStarSolver(cube)] with the default empty queue and visited list and
    the default divisor, before any node exists. *)
Definition new_solver (st : State) : Solver := mkSolver [] st [] [] 5.

(** Creating an object: it is appended to the store. *)
Definition alloc (n : AStarNode) (sv : Solver) : ref * Solver :=
  (length (nodes sv), set_nodes (nodes sv ++ [n]) sv).

Definition is_visited (sv : Solver) (node : ref) : res bool :=
  list_contains (nodes sv) node (visited_nodes sv).

Definition get_best_node (sv : Solver) : res (option ref * Solver) :=
  match Q sv with
  | [] => Ok (None, sv)
  | _ :: _ =>
      let* best_node := min_by_f (nodes sv) (Q sv) in
      let* q := list_remove (nodes sv) best_node (Q sv) in
      Ok (Some best_node, set_Q q sv)
  end.

Definition axes : list axis := [ax_x; ax_y; ax_z].
Definition layers : list Z := [0; 2].
Definition senses : list Z := [-1; 1; 2].

(** The eighteen rotations in the order of the three nested loops. *)
Definition all_moves : list move :=
  flat_map (fun a => flat_map (fun l => map (fun s => (a, l, s)) senses)
                              layers) axes.

(** The path reconstruction of the solved branch:
    [while parent is not None: rotations.insert(0, x); x = parent; ...]. *)
Fixpoint walk_back (fuel : nat) (store : list AStarNode) (x : ref)
    (par : option ref) (rotations : list ref) : res (list ref) :=
  match par with
  | None => Ok rotations
  | Some p =>
      match fuel with
      | O => Timeout
      | S fuel' =>
          let* np := deref store p in
          walk_back fuel' store p (parent np) (x :: rotations)
      end
  end.

Section Search.

(** Modelled from the spec: the rotation of the absent [rub_cube] module,
    [aux_cube.set_State(s); aux_cube.rotate_90(axis, layer, sense);
    aux_cube.get_State()], as a function of the move and the state [s].
    The spec gives no table for it, so it is a parameter. *)
Variable rotate_90 : axis -> Z -> Z -> State -> State.

Fixpoint get_next_states_loop (moves : list move) (par : ref) (sv : Solver)
    (next_states : list ref) : res (list ref * Solver) :=
  match moves with
  | [] => Ok (next_states, sv)
  | m :: rest =>
      let aux_state := rotate_90 m.1.1 m.1.2 m.2 (cube sv) in
      let* np := deref (nodes sv) par in
      let* h0 := heuristic aux_state (divisor sv) in
      let a := alloc (new_node aux_state false (Some par) (g np + 1) h0
                               (Some [m])) sv in
      get_next_states_loop rest par a.2 (next_states ++ [a.1])
  end.

Definition get_next_states (par : ref) (sv : Solver)
    : res (list ref * Solver) :=
  get_next_states_loop all_moves par sv [].

(** The [for u in U] loop of [solve]. *)
Fixpoint successors_loop (U : list ref) (x : ref) (sv : Solver)
    : res Solver :=
  match U with
  | [] => Ok sv
  | u :: rest =>
      let* seen := is_visited sv u in
      if negb seen then
        let sv1 := set_Q (Q sv ++ [u]) sv in
        let sv2 := set_visited_nodes (visited_nodes sv1 ++ [u]) sv1 in
        successors_loop rest x sv2
      else
        let* store := update_parent (nodes sv) u (Some x) in
        successors_loop rest x (set_nodes store sv)
  end.

(** The initialisation of [solve], up to the main loop; it answers the
    reference of [final_node]. *)
Definition solve_init (sv : Solver) : res (ref * Solver) :=
  let* h0 := heuristic (cube sv) (divisor sv) in
  let a := alloc (new_node (cube sv) false None 0 h0
                           (Some [(ax_x, 0, 0)])) sv in
  let sv1 := set_visited_nodes (visited_nodes a.2 ++ [a.1]) a.2 in
  let sv2 := set_Q (Q sv1 ++ [a.1]) sv1 in
  let b := alloc (new_node solved_state false None 0 0%Q None) sv2 in
  Ok b.

(** One pass through the body of the main loop; it answers the new values
    of [ended] and [rotations]. *)
Definition loop_body (fuel : nat) (final_node : ref) (rotations : list ref)
    (sv : Solver) : res (bool * list ref * Solver) :=
  let* popped := get_best_node sv in
  match popped.1 with
  | None => Raise AttributeError
  | Some x =>
      let* nx := deref (nodes popped.2) x in
      let sv1 := set_State (state nx) popped.2 in
      let* nf := deref (nodes sv1) final_node in
      if bool_decide (state nx = state nf) then
        let* rots := walk_back fuel (nodes sv1) x (parent nx) rotations in
        Ok (true, rots, sv1)
      else
        let* next := get_next_states x sv1 in
        let* sv2 := successors_loop next.1 x next.2 in
        Ok (false, rotations, sv2)
  end.

(** [while not ended and len(self.Q) > 0] *)
Definition guard (ended : bool) (sv : Solver) : bool :=
  negb ended && (0 <? length (Q sv))%nat.

Fixpoint solve_loop (fuel : nat) (final_node : ref) (ended : bool)
    (rotations : list ref) (sv : Solver) : res (bool * list ref * Solver) :=
  if guard ended sv then
    match fuel with
    | O => Timeout
    | S fuel' =>
        let* r := loop_body fuel' final_node rotations sv in
        solve_loop fuel' final_node r.1.1 r.1.2 r.2
    end
  else Ok (ended, rotations, sv).

(** [solve] with the final value of [ended] kept next to the result. *)
Definition solve_run (fuel : nat) (sv : Solver)
    : res (bool * list ref * Solver) :=
  let* i := solve_init sv in
  solve_loop fuel i.1 false [] i.2.

(** [AStarSolver.solve]: the returned [rotations] and the solver as the
    call leaves it. *)
Definition solve (fuel : nat) (sv : Solver) : res (list ref * Solver) :=
  let* r := solve_run fuel sv in
  Ok (r.1.2, r.2).

End Search.

(** ** Statement vocabulary *)

(** How often a cubie id occurs in a list of ids. *)
Fixpoint occurrences (cubie : Z) (ids : list Z) : nat :=
  match ids with
  | [] => 0%nat
  | c :: rest =>
      let here := if c =? cubie then 1%nat else 0%nat in
      (here + occurrences cubie rest)%nat
  end.

(** The cost table of the specification, by piece kind and the two
    booleans: corners are the ids below 8, edges the others. *)
Definition piece_cost (cubie : Z) (positioned oriented : bool) : Z :=
  if cubie <? 8 then
    match oriented, positioned with
    | true, true => 0
    | true, false => 1
    | false, _ => 2
    end
  else
    match positioned, oriented with
    | true, true => 0
    | true, false => 3
    | false, true => 1
    | false, false => 2
    end.

(** The sum of the table over a list of piece ids. *)
Definition cost_sum (pos ori : Z -> bool) (ids : list Z) : Z :=
  foldr (fun i acc => piece_cost i (pos i) (ori i) + acc) 0 ids.

(** The check behind [tables_agree]: a cubie occurs in [cube_map] no more
    often than [dict_cubies] lists colours for it, three for a corner and
    two for an edge. *)
Definition table_check (cubie : Z) : bool :=
  match dict_cubies !! cubie with
  | Some colors =>
      (occurrences cubie (concat (concat cube_map)) <=? length colors)%nat
      && (length colors =? (if (cubie <? 8)%Z then 3 else 2))%nat
  | None => false
  end.

(** The booleans the two checks answer, for the statements below. *)
Definition position_flag (st : State) (cubie : Z) : bool :=
  match correct_position (list_of_pairs st) cubie with
  | Ok b => b
  | _ => false
  end.

Definition orientation_flag (st : State) (cubie : Z) : bool :=
  match correct_orientation (list_of_pairs st) cubie with
  | Ok (Some b) => b
  | _ => false
  end.

(** The state of a node, through a reference. *)
Definition state_of (store : list AStarNode) (r : ref) : option State :=
  state <$> store !! r.

(** A run of [update_parent] calls on one node, one candidate after the
    other. *)
Fixpoint update_parent_seq (store : list AStarNode) (self : ref)
    (candidates : list (option ref)) : res (list AStarNode) :=
  match candidates with
  | [] => Ok store
  | c :: rest =>
      let* store' := update_parent store self c in
      update_parent_seq store' self rest
  end.

(** The values of [ended], [rotations] and the solver at the head of the
    main loop. *)
Definition loop_state : Type := bool * list ref * Solver.

(** The loop states a run passes through: each step is one pass through
    the loop body, taken while the loop condition holds. *)
Inductive reachable (rotate_90 : axis -> Z -> Z -> State -> State)
    (final_node : ref) : loop_state -> loop_state -> Prop :=
| reach_here (c : loop_state) : reachable rotate_90 final_node c c
| reach_step (c c1 c2 : loop_state) (fuel : nat) :
    guard c.1.1 c.2 = true ->
    loop_body rotate_90 fuel final_node c.1.2 c.2 = Ok c1 ->
    reachable rotate_90 final_node c1 c2 ->
    reachable rotate_90 final_node c c2.

(** The visited index holds valid references to nodes of pairwise
    different states. *)
Definition visited_distinct (sv : Solver) : Prop :=
  Forall (fun r => (r < length (nodes sv))%nat) (visited_nodes sv)
  /\ NoDup (state_of (nodes sv) <$> visited_nodes sv).

(** A cube whose 54 stickers all carry the colour [k]. *)
Definition uniform (k : Z) : State :=
  replicate 6 (replicate 3 (replicate 3 k)).

(** A permutation of the stickers, to instantiate the rotation in closed
    examples: it moves whole faces round.  It is not the rotation of the
    puzzle; every theorem below holds for any rotation function. *)
Definition shift_faces (a : axis) (l s : Z) (st : State) : State :=
  rotate (Z.to_nat ((l + s) `mod` 6)) st.

(** The solver after the initialisation of [solve], the loop state after
    one pass and at the end of a run, for closed examples. *)
Definition after_init (sv : Solver) : Solver :=
  match solve_init sv with
  | Ok i => i.2
  | _ => sv
  end.

Definition after_pass (rotate_90 : axis -> Z -> Z -> State -> State)
    (final_node : ref) (c : loop_state) : loop_state :=
  match loop_body rotate_90 0 final_node c.1.2 c.2 with
  | Ok c1 => c1
  | _ => c
  end.

Definition after_run (rotate_90 : axis -> Z -> Z -> State -> State)
    (fuel : nat) (sv : Solver) : loop_state :=
  match solve_run rotate_90 fuel sv with
  | Ok c => c
  | _ => (false, [], sv)
  end.

Definition heuristic_value (st : State) : rational :=
  match heuristic st 5 with
  | Ok q => q
  | _ => 0%Q
  end.

(** A solver built with a visited index that already holds a node: the
    node was reached at cost 5 and its state is one rotation away from the
    state of the cube. *)
Definition relax_start : State := rotate 2 solved_state.

Definition relax_stored : AStarNode :=
  new_node (shift_faces ax_x 0 1 relax_start) false None 5
           (heuristic_value (shift_faces ax_x 0 1 relax_start)) None.

Definition relax_solver : Solver :=
  mkSolver [relax_stored] relax_start [] [0%nat] 5.

(** A store of two nodes: a root, and a node first reached at cost 5. *)
Definition two_nodes : list AStarNode :=
  [ new_node solved_state false None 0 0%Q None;
    new_node (uniform 0) false None 5 (1 # 2)%Q None ].

(** ** Vocabulary of the further properties *)

(** The most a piece can cost: two for a corner, three for an edge. *)
Definition piece_cost_max (cubie : Z) : Z := if cubie <? 8 then 2 else 3.

(** The colours a state shows on the stickers of a cubie, in the order in
    which [list_of_pairs] lists them. *)
Definition stickers_of (cubie : Z) (pairs : list (Z * Z)) : list Z :=
  map snd (filter (fun p : Z * Z => p.1 = cubie) pairs).

(** What [correct_orientation] answers on the stickers [cs] of a cubie
    whose listed colours are [colors]: whether some sticker shows the
    colour listed at its own place, and otherwise whether the walking index
    runs past the colours. *)
Definition orientation_outcome (cs colors : list Z) : res bool :=
  if existsb (fun p : Z * Z => p.1 =? p.2) (combine cs colors) then Ok true
  else if (length cs <=? length colors)%nat then Ok false
  else Raise IndexError.

(** What [__eq__] tells of two nodes in the store: whether their states are
    equal. *)
Definition same_state (store : list AStarNode) (a b : ref) : bool :=
  bool_decide (state_of store a = state_of store b).

(** The number [heuristic] answers for a divisor other than zero. *)
Definition heuristic_of (st : State) (d : Z) : rational :=
  (inject_Z (cost_sum (position_flag st) (orientation_flag st) (seqZ 0 20))
   / inject_Z d)%Q.

(** The node [get_next_states] creates for the move [m], from the parent
    [np] at reference [par], the state [st] of the cube and the divisor. *)
Definition successor_node (rotate_90 : axis -> Z -> Z -> State -> State)
    (par : ref) (np : AStarNode) (st : State) (d : Z) (m : move)
    : AStarNode :=
  new_node (rotate_90 m.1.1 m.1.2 m.2 st) false (Some par) (g np + 1)
           (heuristic_of (rotate_90 m.1.1 m.1.2 m.2 st) d) (Some [m]).

(** Turning a cube by a list of moves, one after the other. *)
Definition apply_moves (rotate_90 : axis -> Z -> Z -> State -> State)
    (ms : list move) (st : State) : State :=
  fold_left (fun s m => rotate_90 m.1.1 m.1.2 m.2 s) ms st.

(** What the caller reads off the returned nodes:
    [rotations[i].rotation[0]] for each [i]. *)
Fixpoint path_moves (store : list AStarNode) (rotations : list ref)
    : res (list move) :=
  match rotations with
  | [] => Ok []
  | r :: rest =>
      let* n := deref store r in
      match rotation n with
      | None => Raise TypeError
      | Some [] => Raise IndexError
      | Some (m :: _) => let* ms := path_moves store rest in Ok (m :: ms)
      end
  end.

(** A node created by an expansion: its parent is an earlier node of the
    search, its state is the parent's state turned by the move it carries,
    and it lies one step deeper. *)
Definition tree_link (rotate_90 : axis -> Z -> Z -> State -> State)
    (r0 : ref) (store : list AStarNode) (i : ref) (n : AStarNode) : Prop :=
  exists (p : ref) (np : AStarNode) (m : move),
    parent n = Some p /\ (r0 <= p < i)%nat /\ p <> S r0
    /\ store !! p = Some np
    /\ state n = rotate_90 m.1.1 m.1.2 m.2 (state np)
    /\ rotation n = Some [m] /\ m ∈ all_moves
    /\ g n = g np + 1.

(** The shape of the store during a run that started with an empty queue:
    the root at [r0] holds the initial state, [final_node] comes next and
    holds the solved state, every later node hangs below an earlier one,
    and the queue names nodes of this tree. *)
Definition search_inv (rotate_90 : axis -> Z -> Z -> State -> State)
    (r0 : ref) (st0 : State) (s : Solver) : Prop :=
  divisor s <> 0
  /\ (exists root, nodes s !! r0 = Some root /\ parent root = None
                   /\ state root = st0 /\ g root = 0)
  /\ (exists fin, nodes s !! S r0 = Some fin /\ state fin = solved_state)
  /\ (forall i n, (S r0 < i)%nat -> nodes s !! i = Some n ->
                  tree_link rotate_90 r0 (nodes s) i n)
  /\ Forall (fun q => (r0 <= q < length (nodes s))%nat /\ q <> S r0) (Q s).

(** Every reference of the visited index names a node. *)
Definition visited_valid (s : Solver) : Prop :=
  Forall (fun r => is_Some (nodes s !! r)) (visited_nodes s).

(** What holds at the head of the loop in a run that started with an
    empty queue. *)
Definition run_inv (rotate_90 : axis -> Z -> Z -> State -> State)
    (r0 : ref) (st0 : State) (c : loop_state) : Prop :=
  search_inv rotate_90 r0 st0 c.2
  /\ (c.1.1 = false -> c.1.2 = [])
  /\ (c.1.1 = true ->
      exists ms, path_moves (nodes c.2) c.1.2 = Ok ms
                 /\ Forall (fun m => m ∈ all_moves) ms
                 /\ apply_moves rotate_90 ms st0 = solved_state).

(** The successors that the loop over [U] of [solve] takes as new, in
    the order of [U]: a successor is kept when no node of the visited index
    holds its state, and joins the index at once, so that a later
    successor of the same state is not kept. *)
Fixpoint unseen (store : list AStarNode) (vis U : list ref) : list ref :=
  match U with
  | [] => []
  | u :: rest =>
      if existsb (fun e => same_state store e u) vis
      then unseen store vis rest
      else u :: unseen store (vis ++ [u]) rest
  end.

(** The face letters of [cube_interactive]. *)
Inductive face : Type := face_F | face_R | face_U.

(** A move as [cube_interactive] takes it: [(face, turns, layer)]. *)
Definition anim_move : Type := face * Z * Z.

(** The [if]/[elif] chain that encodes a rotation of the solver for the
    animation: ['x'] is the face [F], ['y'] is [R], ['z'] is [U], the
    sense changes sign, the layer is kept. *)
Definition encode_move (m : move) : anim_move :=
  match m.1.1 with
  | ax_x => (face_F, - m.2, m.1.2)
  | ax_y => (face_R, - m.2, m.1.2)
  | ax_z => (face_U, - m.2, m.1.2)
  end.

(** The [for i in range(len(rotations))] loop of [on_close], with the
    list [moves_solve] it appends to. *)
Fixpoint on_close_loop (bool_anim : bool) (store : list AStarNode)
    (rotations : list ref) (moves_solve : list anim_move)
    : res (list anim_move) :=
  match rotations with
  | [] => Ok moves_solve
  | r :: rest =>
      let* n := deref store r in
      if bool_anim then
        match rotation n with
        | None => Raise TypeError
        | Some [] => Raise IndexError
        | Some (m :: _) =>
            on_close_loop bool_anim store rest (moves_solve ++ [encode_move m])
        end
      else on_close_loop bool_anim store rest moves_solve
  end.

(** The prompts read from standard input.  One line of input is given by
    what [int(input(...))] makes of it: [Some n], or [None] when [int]
    raises [ValueError].  When the input runs out, [input] raises
    [EOFError], which the prompts do not catch: the answer is [None].
    A prompt answers the number it accepts and the input still unread. *)
Fixpoint get_initial_random_movements (inputs : list (option Z))
    : option (Z * list (option Z)) :=
  match inputs with
  | [] => None
  | Some X :: rest =>
      if X >=? 1 then Some (X, rest) else get_initial_random_movements rest
  | None :: rest => get_initial_random_movements rest
  end.

Fixpoint get_bool_render_img (inputs : list (option Z))
    : option (Z * list (option Z)) :=
  match inputs with
  | [] => None
  | Some X :: rest =>
      if (X =? 1) || (X =? 0) then Some (X, rest)
      else get_bool_render_img rest
  | None :: rest => get_bool_render_img rest
  end.

Fixpoint get_bool_animation (inputs : list (option Z))
    : option (Z * list (option Z)) :=
  match inputs with
  | [] => None
  | Some X :: rest =>
      if X =? 1 then Some (X, rest)
      else if X =? 0 then Some (X, rest)
      else get_bool_animation rest
  | None :: rest => get_bool_animation rest
  end.

(** An input line that a prompt refuses: no integer, or an integer that
    fails the test [ok]. *)
Definition refused (ok : Z -> bool) (line : option Z) : Prop :=
  forall n, line = Some n -> ok n = false.

(** The solved cube with the centre sticker of the first face recoloured. *)
Definition recoloured_centre : State :=
  <[0%nat := [[0; 0; 0]; [0; 5; 0]; [0; 0; 0]]]> solved_state.

(** A cube one turn away from solved, for closed examples. *)
Definition one_turn_away : State := rotate 1 solved_state.

(** The three zipped levels of [list_of_pairs], for any map of ids. *)
Definition zip_rows (mface sface : list (list Z)) : list (Z * Z) :=
  flat_map (fun row : list Z * list Z => combine row.1 row.2)
           (combine mface sface).

Definition zip_faces (m st : list (list (list Z))) : list (Z * Z) :=
  flat_map (fun face : list (list Z) * list (list Z) =>
              zip_rows face.1 face.2) (combine m st).

(** The shape of a cube, whatever the colours: six faces of three rows of
    three stickers. *)
Definition cube_shaped (state : State) : bool :=
  (length state =? 6)%nat &&
  forallb (fun face : list (list Z) =>
    (length face =? 3)%nat &&
    forallb (fun row : list Z => (length row =? 3)%nat) face) state.

(** A cube of the right shape whose stickers all carry the number 7, which
    is none of the six colours. *)
Definition off_colour : State := replicate 6 (replicate 3 (replicate 3 7)).

(** A node whose costs agree with its place in the search: [f] is [g]
    plus [h], [h] is what [heuristic] answers on the state of the node,
    and [g] is not negative. *)
Definition costs_consistent (d : Z) (n : AStarNode) : Prop :=
  f n = (inject_Z (g n) + h n)%Q
  /\ heuristic (state n) d = Ok (h n)
  /\ 0 <= g n.

(** ** The result monad *)

Lemma bind_Ok {A B : Type} (m : res A) (k : A -> res B) (b : B) :
  res_bind m k = Ok b -> exists a, m = Ok a /\ k a = Ok b.
Proof. destruct m as [a| |]; simpl; [eauto | discriminate | discriminate]. Qed.

Ltac bind_inv :=
  repeat match goal with
  | H : res_bind ?m ?k = Ok _ |- _ =>
      let a := fresh "a" in
      let E := fresh "E" in
      apply bind_Ok in H as (a & E & H)
  end.

(** ** The heuristic tables *)

Lemma in_range_spec lo hi x : in_range lo hi x = true <-> lo <= x < hi.
Proof. unfold in_range. rewrite andb_true_iff, Z.leb_le, Z.ltb_lt. tauto. Qed.

Lemma table_check_all : forallb table_check (seqZ 0 20) = true.
Proof. vm_compute. reflexivity. Qed.

Lemma tables_agree cubie :
  in_range 0 20 cubie = true ->
  exists colors,
    dict_cubies !! cubie = Some colors
    /\ (occurrences cubie (concat (concat cube_map)) <= length colors)%nat
    /\ length colors = (if cubie <? 8 then 3%nat else 2%nat).
Proof.
  intros Hr. apply in_range_spec in Hr.
  pose proof table_check_all as Hall.
  rewrite forallb_forall in Hall.
  assert (Hin : In cubie (seqZ 0 20)).
  { apply list_elem_of_In, elem_of_seqZ. lia. }
  specialize (Hall _ Hin). unfold table_check in Hall.
  destruct (dict_cubies !! cubie) as [colors|]; [|discriminate].
  apply andb_true_iff in Hall as [H1 H2].
  exists colors. split; [reflexivity|].
  apply Nat.leb_le in H1. apply Nat.eqb_eq in H2. auto.
Qed.

Lemma occurrences_app cubie l1 l2 :
  occurrences cubie (l1 ++ l2)
  = (occurrences cubie l1 + occurrences cubie l2)%nat.
Proof. induction l1 as [|c l1 IH]; simpl; [reflexivity|]. rewrite IH. lia. Qed.

Lemma occurrences_combine cubie (ids colors : list Z) :
  (occurrences cubie (map fst (combine ids colors))
   <= occurrences cubie ids)%nat.
Proof.
  revert colors. induction ids as [|c ids IH]; intros [|k colors]; simpl;
    try lia.
  specialize (IH colors). lia.
Qed.

Lemma occurrences_rows cubie (mface sface : list (list Z)) :
  (occurrences cubie
     (map fst (flat_map (fun row : list Z * list Z => combine row.1 row.2)
                        (combine mface sface)))
   <= occurrences cubie (concat mface))%nat.
Proof.
  revert sface. induction mface as [|r mface IH]; intros [|s sface]; simpl;
    try lia.
  rewrite map_app, !occurrences_app.
  pose proof (occurrences_combine cubie r s). specialize (IH sface). lia.
Qed.

Lemma occurrences_faces cubie (m : list (list (list Z))) (st : State) :
  (occurrences cubie
     (map fst
        (flat_map
           (fun face : list (list Z) * list (list Z) =>
              flat_map (fun row : list Z * list Z => combine row.1 row.2)
                       (combine face.1 face.2))
           (combine m st)))
   <= occurrences cubie (concat (concat m)))%nat.
Proof.
  revert st. induction m as [|mf m IH]; intros [|sf st]; simpl; try lia.
  rewrite map_app, concat_app, !occurrences_app.
  pose proof (occurrences_rows cubie mf sf). specialize (IH st). lia.
Qed.

Lemma occurrences_list_of_pairs cubie st :
  (occurrences cubie (map fst (list_of_pairs st))
   <= occurrences cubie (concat (concat cube_map)))%nat.
Proof. apply occurrences_faces. Qed.

(** The walking index stays inside the colour list as long as the
    occurrences still to come fit behind it. *)
Lemma correct_orientation_loop_ok cubie colors pairs i :
  dict_cubies !! cubie = Some colors ->
  (i + occurrences cubie (map fst pairs) <= length colors)%nat ->
  exists b, correct_orientation_loop cubie pairs i = Ok b.
Proof.
  intros Hd. revert i.
  induction pairs as [|[c k] pairs IH]; intros i Hi;
    cbn [correct_orientation_loop occurrences map fst snd] in Hi |- *.
  - eauto.
  - destruct (c =? cubie).
    + unfold dict_get_at, dict_get. rewrite Hd. cbn [res_bind].
      destruct (lookup_lt_is_Some_2 colors i ltac:(lia)) as [col Hcol].
      rewrite Hcol. cbn [res_bind]. destruct (k =? col); [eauto|].
      apply IH. lia.
    + apply IH. lia.
Qed.

Lemma correct_orientation_ok st cubie :
  in_range 0 20 cubie = true ->
  exists b, correct_orientation (list_of_pairs st) cubie = Ok (Some b).
Proof.
  intros Hr. destruct (tables_agree cubie Hr) as (colors & Hd & Hocc & _).
  unfold correct_orientation. rewrite Hr.
  destruct (correct_orientation_loop_ok cubie colors (list_of_pairs st) 0 Hd)
    as [b Hb].
  { pose proof (occurrences_list_of_pairs cubie st). lia. }
  rewrite Hb. simpl. eauto.
Qed.

Lemma correct_position_loop_ok cubie colors pairs b0 :
  dict_cubies !! cubie = Some colors ->
  exists b, correct_position_loop cubie pairs b0 = Ok b.
Proof.
  intros Hd. revert b0.
  induction pairs as [|[c k] pairs IH]; intros b0;
    cbn [correct_position_loop fst snd].
  - eauto.
  - destruct (c =? cubie); [|apply IH].
    unfold dict_get. rewrite Hd. cbn [res_bind].
    destruct (negb (bool_decide (k ∈ colors))); apply IH.
Qed.

Lemma correct_position_ok pairs cubie :
  in_range 0 20 cubie = true ->
  exists b, correct_position pairs cubie = Ok b.
Proof.
  intros Hr. destruct (tables_agree cubie Hr) as (colors & Hd & _).
  unfold correct_position. rewrite Hr.
  eapply correct_position_loop_ok; eauto.
Qed.

Lemma flags_correct st cubie :
  in_range 0 20 cubie = true ->
  correct_position (list_of_pairs st) cubie = Ok (position_flag st cubie)
  /\ correct_orientation (list_of_pairs st) cubie
     = Ok (Some (orientation_flag st cubie)).
Proof.
  intros Hr. unfold position_flag, orientation_flag.
  destruct (correct_position_ok (list_of_pairs st) cubie Hr) as [bp ->].
  destruct (correct_orientation_ok st cubie Hr) as [bo ->].
  auto.
Qed.

Lemma moves_for_correct_cubie_table st cubie :
  in_range 0 20 cubie = true ->
  moves_for_correct_cubie (list_of_pairs st) cubie
  = Ok (Some (piece_cost cubie (position_flag st cubie)
                               (orientation_flag st cubie))).
Proof.
  intros Hr. destruct (flags_correct st cubie Hr) as [Hp Ho].
  unfold moves_for_correct_cubie. rewrite Hp, Ho. simpl.
  apply in_range_spec in Hr. unfold piece_cost, in_range.
  destruct (Z.ltb_spec cubie 8) as [Hlt|Hge].
  - replace (0 <=? cubie) with true by (symmetry; apply Z.leb_le; lia).
    simpl.
    destruct (position_flag st cubie), (orientation_flag st cubie);
      reflexivity.
  - replace (8 <=? cubie) with true by (symmetry; apply Z.leb_le; lia).
    replace (cubie <? 20) with true by (symmetry; apply Z.ltb_lt; lia).
    rewrite andb_false_r. simpl.
    destruct (position_flag st cubie), (orientation_flag st cubie);
      reflexivity.
Qed.

Lemma sum_moves_loop_table st ids acc :
  Forall (fun i => in_range 0 20 i = true) ids ->
  sum_moves_loop (list_of_pairs st) ids acc
  = Ok (acc + cost_sum (position_flag st) (orientation_flag st) ids).
Proof.
  intros Hids. revert acc.
  induction Hids as [|i ids Hi _ IH]; intros acc; simpl.
  - f_equal. lia.
  - rewrite (moves_for_correct_cubie_table st i Hi). simpl.
    rewrite IH. f_equal. lia.
Qed.

Lemma range20_in_range : Forall (fun i => in_range 0 20 i = true) (seqZ 0 20).
Proof. apply Forall_seqZ. intros i Hi. apply in_range_spec. lia. Qed.

Lemma heuristic_table st d :
  d <> 0 ->
  heuristic st d
  = Ok (inject_Z (cost_sum (position_flag st) (orientation_flag st)
                           (seqZ 0 20)) / inject_Z d)%Q.
Proof.
  intros Hd. unfold heuristic.
  rewrite (sum_moves_loop_table st _ 0 range20_in_range).
  cbn [res_bind]. rewrite Z.add_0_l.
  destruct (Z.eqb_spec d 0); [contradiction|]. reflexivity.
Qed.

Lemma piece_cost_nonneg cubie bp bo : 0 <= piece_cost cubie bp bo.
Proof. unfold piece_cost. destruct (cubie <? 8), bp, bo; lia. Qed.

Lemma cost_sum_nonneg pos ori ids : 0 <= cost_sum pos ori ids.
Proof.
  induction ids as [|i ids IH]; simpl; [lia|].
  pose proof (piece_cost_nonneg i (pos i) (ori i)). lia.
Qed.

Lemma heuristic_nonneg st d q :
  0 < d -> heuristic st d = Ok q -> (0 <= q)%Q.
Proof.
  intros Hd Hq. rewrite heuristic_table in Hq by lia.
  injection Hq as <-.
  pose proof (cost_sum_nonneg (position_flag st) (orientation_flag st)
                              (seqZ 0 20)) as Hs.
  apply Qle_shift_div_l.
  - change 0%Q with (inject_Z 0). rewrite <- Zlt_Qlt. exact Hd.
  - rewrite Qmult_0_l. change 0%Q with (inject_Z 0). rewrite <- Zle_Qle.
    exact Hs.
Qed.

Lemma heuristic_solved : heuristic solved_state 5 = Ok (0 # 5)%Q.
Proof. vm_compute. reflexivity. Qed.

(** ** The heuristic: claims C9, C2, C3 *)

(** C9.  For every piece id 0..19 and every state, [correct_orientation]
    ends without indexing the colour list of the piece out of range: the
    piece has three colours if it is a corner and two if it is an edge, it
    occurs in [cube_map] no more often than that, the zipped pairs of a
    state hold no more occurrences than [cube_map], the loop started at
    index [i] is safe whenever the occurrences still to come fit behind
    [i], and so the call answers a boolean and never [IndexError]. *)
Theorem correct_orientation_index_in_bounds (st : State) (cubie : Z) :
  0 <= cubie < 20 ->
  exists colors : list Z,
    dict_cubies !! cubie = Some colors
    /\ length colors = (if cubie <? 8 then 3%nat else 2%nat)
    /\ (occurrences cubie (concat (concat cube_map)) <= length colors)%nat
    /\ (occurrences cubie (map fst (list_of_pairs st))
        <= occurrences cubie (concat (concat cube_map)))%nat
    /\ (forall (pairs : list (Z * Z)) (i : nat),
          (i + occurrences cubie (map fst pairs) <= length colors)%nat ->
          exists b, correct_orientation_loop cubie pairs i = Ok b)
    /\ exists b, correct_orientation (list_of_pairs st) cubie = Ok (Some b).
Proof.
  intros Hr. apply in_range_spec in Hr.
  destruct (tables_agree cubie Hr) as (colors & Hd & Hocc & Hlen).
  exists colors. repeat split; auto.
  - apply occurrences_list_of_pairs.
  - intros pairs i Hi. eapply correct_orientation_loop_ok; eauto.
  - apply correct_orientation_ok. exact Hr.
Qed.

Lemma correct_orientation_index_in_bounds_witness :
  exists colors : list Z,
    dict_cubies !! 0 = Some colors
    /\ length colors = 3%nat
    /\ (occurrences 0 (concat (concat cube_map)) <= length colors)%nat
    /\ (occurrences 0 (map fst (list_of_pairs solved_state))
        <= occurrences 0 (concat (concat cube_map)))%nat
    /\ (forall (pairs : list (Z * Z)) (i : nat),
          (i + occurrences 0 (map fst pairs) <= length colors)%nat ->
          exists b, correct_orientation_loop 0 pairs i = Ok b)
    /\ exists b, correct_orientation (list_of_pairs solved_state) 0
                 = Ok (Some b).
Proof.
  apply (correct_orientation_index_in_bounds solved_state 0). lia.
Defined.

(** C2.  For every state and positive divisor, each piece id 0..19 gets
    the cost that the table [piece_cost] gives for the booleans answered by
    [correct_position] and [correct_orientation], and [heuristic] is the
    sum of these twenty costs divided by the divisor. *)
Theorem heuristic_is_cost_table_sum (st : State) (d : Z) :
  0 < d ->
  (forall i : Z, 0 <= i < 20 ->
     correct_position (list_of_pairs st) i = Ok (position_flag st i)
     /\ correct_orientation (list_of_pairs st) i
        = Ok (Some (orientation_flag st i))
     /\ moves_for_correct_cubie (list_of_pairs st) i
        = Ok (Some (piece_cost i (position_flag st i)
                                 (orientation_flag st i))))
  /\ heuristic st d
     = Ok (inject_Z (cost_sum (position_flag st) (orientation_flag st)
                              (seqZ 0 20)) / inject_Z d)%Q.
Proof.
  intros Hd. split.
  - intros i Hi. apply in_range_spec in Hi.
    destruct (flags_correct st i Hi) as [Hp Ho].
    repeat split; auto. apply moves_for_correct_cubie_table. exact Hi.
  - apply heuristic_table. lia.
Qed.

Lemma heuristic_is_cost_table_sum_witness :
  (forall i : Z, 0 <= i < 20 ->
     correct_position (list_of_pairs (uniform 7)) i
     = Ok (position_flag (uniform 7) i)
     /\ correct_orientation (list_of_pairs (uniform 7)) i
        = Ok (Some (orientation_flag (uniform 7) i))
     /\ moves_for_correct_cubie (list_of_pairs (uniform 7)) i
        = Ok (Some (piece_cost i (position_flag (uniform 7) i)
                                 (orientation_flag (uniform 7) i))))
  /\ heuristic (uniform 7) 5
     = Ok (inject_Z (cost_sum (position_flag (uniform 7))
                              (orientation_flag (uniform 7))
                              (seqZ 0 20)) / inject_Z 5)%Q.
Proof. apply (heuristic_is_cost_table_sum (uniform 7) 5). lia. Defined.

(** The table itself, case by case as the specification lists it. *)
Lemma piece_cost_cases (cubie : Z) :
  (0 <= cubie < 8 ->
     piece_cost cubie true true = 0
     /\ piece_cost cubie false true = 1
     /\ piece_cost cubie true false = 2
     /\ piece_cost cubie false false = 2)
  /\ (8 <= cubie < 20 ->
     piece_cost cubie true true = 0
     /\ piece_cost cubie true false = 3
     /\ piece_cost cubie false true = 1
     /\ piece_cost cubie false false = 2).
Proof.
  unfold piece_cost. split; intros Hc.
  - replace (cubie <? 8) with true by (symmetry; apply Z.ltb_lt; lia).
    auto.
  - replace (cubie <? 8) with false by (symmetry; apply Z.ltb_ge; lia).
    auto.
Qed.

(** C3.  For every valid state and the default divisor 5 the heuristic is
    a non-negative number, and at the solved state it is zero. *)
Theorem heuristic_nonneg_zero_at_solved (st : State) :
  valid_state st = true ->
  (exists q, heuristic st 5 = Ok q /\ (0 <= q)%Q)
  /\ (exists q0, heuristic solved_state 5 = Ok q0 /\ (q0 == 0)%Q).
Proof.
  intros _. split.
  - eexists. split; [apply heuristic_table; lia|].
    eapply heuristic_nonneg; [|apply heuristic_table]; lia.
  - exists (0 # 5)%Q. split; [apply heuristic_solved | reflexivity].
Qed.

Lemma heuristic_nonneg_zero_at_solved_witness :
  valid_state (rotate 1 solved_state) = true
  /\ (exists q, heuristic (rotate 1 solved_state) 5 = Ok q /\ (0 <= q)%Q)
  /\ (exists q0, heuristic solved_state 5 = Ok q0 /\ (q0 == 0)%Q).
Proof.
  split; [reflexivity|].
  apply (heuristic_nonneg_zero_at_solved (rotate 1 solved_state)).
  reflexivity.
Defined.

(** ** Nodes in the store *)

Lemma deref_Ok (store : list AStarNode) (r : ref) (n : AStarNode) :
  deref store r = Ok n <-> store !! r = Some n.
Proof.
  unfold deref. destruct (store !! r) as [m|]; split; intros H;
    try discriminate; congruence.
Qed.

Lemma Qltb_lt (a b : rational) : Qltb a b = true <-> (a < b)%Q.
Proof.
  unfold Qltb. rewrite negb_true_iff. split.
  - intros H. apply Qnot_le_lt. intros Hle.
    apply Qle_bool_iff in Hle. congruence.
  - intros H. destruct (Qle_bool b a) eqn:E; [|reflexivity].
    apply Qle_bool_iff in E. exfalso. exact (Qlt_not_le _ _ H E).
Qed.

Lemma Qltb_nlt (a b : rational) : Qltb a b = false <-> ~ (a < b)%Q.
Proof.
  rewrite <- Qltb_lt. destruct (Qltb a b); split; intros H; congruence.
Qed.

(** Rebinding the parent of a node does not change the cost computed
    through the new parent, also when the node is its own new parent. *)
Lemma calculate_cost_rebound (store : list AStarNode) (self : ref)
    (n : AStarNode) (c : option ref) :
  store !! self = Some n ->
  calculate_cost (<[self := set_parent c n]> store) (set_parent c n) c
  = calculate_cost store n c.
Proof.
  intros Hn. unfold calculate_cost. destruct c as [p|]; [|reflexivity].
  unfold deref. destruct (decide (p = self)) as [->|Hne].
  - rewrite list_lookup_insert_eq by (eapply lookup_lt_Some; eauto).
    rewrite Hn. reflexivity.
  - rewrite list_lookup_insert_ne by congruence. reflexivity.
Qed.

(** What one call of [update_parent] does to the store. *)
Lemma update_parent_spec (store store' : list AStarNode) (self : ref)
    (n : AStarNode) (c : option ref) :
  store !! self = Some n ->
  update_parent store self c = Ok store' ->
  exists g1 f1,
    calculate_cost store n c = Ok (g1, f1)
    /\ store' = if Qltb f1 (f n)
                then <[self := set_costs g1 f1 (set_parent c n)]> store
                else store.
Proof.
  intros Hn Hup. unfold update_parent in Hup.
  apply deref_Ok in Hn as Hd. rewrite Hd in Hup. cbn [res_bind] in Hup.
  destruct (calculate_cost store n c) as [[g1 f1]| |] eqn:Hc;
    cbn [res_bind fst snd] in Hup; try discriminate.
  exists g1, f1. split; [reflexivity|].
  destruct (Qltb f1 (f n)); [|congruence].
  unfold update_cost in Hup.
  assert (Hlt : (self < length store)%nat) by (eapply lookup_lt_Some; eauto).
  assert (Hd' : deref (<[self := set_parent c n]> store) self
                = Ok (set_parent c n)).
  { apply deref_Ok. apply list_lookup_insert_eq. exact Hlt. }
  rewrite Hd' in Hup. cbn [res_bind] in Hup.
  change (parent (set_parent c n)) with c in Hup.
  rewrite (calculate_cost_rebound store self n c Hn), Hc in Hup.
  cbn [res_bind fst snd] in Hup. injection Hup as <-.
  rewrite list_insert_insert_eq. reflexivity.
Qed.

Lemma calculate_cost_f (store : list AStarNode) (n : AStarNode)
    (c : option ref) (g1 : Z) (f1 : rational) :
  calculate_cost store n c = Ok (g1, f1) ->
  f1 = (inject_Z g1 + h n)%Q
  /\ (forall p np, c = Some p -> store !! p = Some np -> g1 = g np + 1)
  /\ (c = None -> g1 = 1).
Proof.
  unfold calculate_cost. intros Hc. destruct c as [p|].
  - destruct (deref store p) as [np| |] eqn:Hp; cbn [res_bind] in Hc;
      try discriminate.
    injection Hc as <- <-. apply deref_Ok in Hp.
    split; [reflexivity|]. split; [|discriminate].
    intros p' np' [= <-] Hp'. congruence.
  - cbn [res_bind] in Hc. injection Hc as <- <-.
    split; [reflexivity|]. split; [discriminate|reflexivity].
Qed.

(** A call leaves the lengths, the other nodes and every state alone. *)
Lemma update_parent_frame (store store' : list AStarNode) (self : ref)
    (c : option ref) :
  update_parent store self c = Ok store' ->
  length store' = length store
  /\ (forall r, r <> self -> store' !! r = store !! r)
  /\ (forall r, state_of store' r = state_of store r).
Proof.
  intros Hup.
  destruct (store !! self) as [n|] eqn:Hn.
  - destruct (update_parent_spec _ _ _ _ _ Hn Hup) as (g1 & f1 & _ & ->).
    destruct (Qltb f1 (f n)); [|auto].
    split; [apply length_insert|]. split.
    + intros r Hr. apply list_lookup_insert_ne. congruence.
    + intros r. unfold state_of. destruct (decide (r = self)) as [->|Hne].
      * rewrite list_lookup_insert_eq by (eapply lookup_lt_Some; eauto).
        rewrite Hn. reflexivity.
      * rewrite list_lookup_insert_ne by congruence. reflexivity.
  - unfold update_parent, deref in Hup. rewrite Hn in Hup. discriminate.
Qed.

(** ** Relaxation: claim C6 *)

(** C6.  A call of [update_parent] on a node computes the tentative cost
    through the candidate (the candidate's [g] plus one, plus the node's own
    [h]); it rebinds the parent and stores the tentative [g] and [f] when
    the tentative [f] is strictly below the stored one, and changes nothing
    otherwise.  Hence along any run of calls on the node its [f] never
    goes up, and its [h] and state stay as they were. *)
Theorem update_parent_never_increases_f (store : list AStarNode)
    (self : ref) (n : AStarNode) :
  store !! self = Some n ->
  (forall (c : option ref) (store' : list AStarNode),
     update_parent store self c = Ok store' ->
     exists g1 f1,
       calculate_cost store n c = Ok (g1, f1)
       /\ f1 = (inject_Z g1 + h n)%Q
       /\ (forall p np, c = Some p -> store !! p = Some np -> g1 = g np + 1)
       /\ ((f1 < f n)%Q ->
           store' = <[self := set_costs g1 f1 (set_parent c n)]> store)
       /\ (~ (f1 < f n)%Q -> store' = store))
  /\ (forall (cs : list (option ref)) (store' : list AStarNode),
        update_parent_seq store self cs = Ok store' ->
        exists n',
          store' !! self = Some n'
          /\ (f n' <= f n)%Q /\ h n' = h n /\ state n' = state n).
Proof.
  intros Hn. split.
  - intros c store' Hup.
    destruct (update_parent_spec _ _ _ _ _ Hn Hup) as (g1 & f1 & Hc & ->).
    destruct (calculate_cost_f _ _ _ _ _ Hc) as (Hf & Hg & _).
    exists g1, f1. repeat split; auto.
    + intros Hlt. apply Qltb_lt in Hlt. rewrite Hlt. reflexivity.
    + intros Hnlt. apply Qltb_nlt in Hnlt. rewrite Hnlt. reflexivity.
  - intros cs. revert store n Hn.
    induction cs as [|c cs IH]; intros store n Hn store' Hseq;
      cbn [update_parent_seq] in Hseq.
    + injection Hseq as <-. exists n. repeat split; auto. apply Qle_refl.
    + destruct (update_parent store self c) as [store1| |] eqn:Hup;
        cbn [res_bind] in Hseq; try discriminate.
      destruct (update_parent_spec _ _ _ _ _ Hn Hup)
        as (g1 & f1 & Hc & Hst).
      destruct (Qltb f1 (f n)) eqn:Hlt.
      * assert (Hn1 : store1 !! self
                      = Some (set_costs g1 f1 (set_parent c n))).
        { rewrite Hst. apply list_lookup_insert_eq.
          eapply lookup_lt_Some; eauto. }
        destruct (IH _ _ Hn1 _ Hseq) as (n' & Hn' & Hle & Hh & Hs).
        exists n'. repeat split; auto.
        apply Qltb_lt in Hlt. cbn [f set_costs] in Hle.
        eapply Qle_trans; [exact Hle|]. apply Qlt_le_weak. exact Hlt.
      * subst store1. apply (IH _ _ Hn _ Hseq).
Qed.

(** ** The visited index and the frontier *)

Lemma node_eqb_false (store : list AStarNode) (a b : ref) :
  node_eqb store a b = Ok false ->
  a <> b
  /\ forall na nb, store !! a = Some na -> store !! b = Some nb ->
                   state na <> state nb.
Proof.
  unfold node_eqb. case_bool_decide as Hab; [discriminate|].
  intros H. split; [exact Hab|].
  intros na nb Ha Hb. apply deref_Ok in Ha, Hb. rewrite Ha, Hb in H.
  cbn [res_bind] in H. injection H as H.
  apply bool_decide_eq_false in H. exact H.
Qed.

Lemma list_contains_false (store : list AStarNode) (u : ref) (l : list ref) :
  list_contains store u l = Ok false ->
  forall e, e ∈ l ->
  forall ne nu, store !! e = Some ne -> store !! u = Some nu ->
                state ne <> state nu.
Proof.
  induction l as [|e0 l IH]; intros H e He; [inversion He|].
  cbn [list_contains] in H.
  destruct (node_eqb store e0 u) as [b| |] eqn:Hb; cbn [res_bind] in H;
    try discriminate.
  destruct b; [discriminate|].
  apply elem_of_cons in He as [->|He].
  - apply node_eqb_false in Hb as [_ Hb]. exact Hb.
  - apply IH; assumption.
Qed.

Lemma get_best_node_frame (sv sv1 : Solver) (ox : option ref) :
  get_best_node sv = Ok (ox, sv1) ->
  nodes sv1 = nodes sv /\ cube sv1 = cube sv
  /\ visited_nodes sv1 = visited_nodes sv /\ divisor sv1 = divisor sv.
Proof.
  unfold get_best_node. destruct (Q sv) as [|r q].
  - intros [= <- <-]. auto.
  - intros H. bind_inv. injection H as <- <-. auto.
Qed.

(** The distinctness of the visited states only looks at the states of
    the nodes and at the visited list. *)
Lemma visited_distinct_ext (sv sv' : Solver) :
  visited_nodes sv' = visited_nodes sv ->
  (length (nodes sv) <= length (nodes sv'))%nat ->
  (forall r, (r < length (nodes sv))%nat ->
             state_of (nodes sv') r = state_of (nodes sv) r) ->
  visited_distinct sv -> visited_distinct sv'.
Proof.
  intros Hv Hlen Hst [Hval Hnd]. unfold visited_distinct. rewrite Hv. split.
  - eapply Forall_impl; [exact Hval|]. intros r Hr. simpl in Hr. lia.
  - erewrite list_fmap_ext; [exact Hnd|].
    intros i r Hi. apply Hst.
    rewrite Forall_forall in Hval. apply Hval.
    eapply list_elem_of_lookup_2. exact Hi.
Qed.

Lemma successors_loop_frame (U : list ref) (x : ref) (sv sv' : Solver)
    (L : nat) :
  successors_loop U x sv = Ok sv' ->
  Forall (fun u => (L <= u)%nat) U ->
  length (nodes sv') = length (nodes sv)
  /\ (forall r, (r < L)%nat -> nodes sv' !! r = nodes sv !! r)
  /\ (forall r, state_of (nodes sv') r = state_of (nodes sv) r)
  /\ cube sv' = cube sv /\ divisor sv' = divisor sv.
Proof.
  revert sv. induction U as [|u U IH]; intros sv H HU;
    cbn [successors_loop] in H.
  - injection H as <-. auto.
  - apply Forall_cons in HU as [Hu HU].
    destruct (is_visited sv u) as [seen| |]; cbn [res_bind] in H;
      try discriminate.
    destruct seen; cbn [negb] in H.
    + destruct (update_parent (nodes sv) u (Some x)) as [store| |] eqn:Hup;
        cbn [res_bind] in H; try discriminate.
      destruct (update_parent_frame _ _ _ _ Hup) as (Hlen & Hoth & Hst).
      destruct (IH _ H HU) as (Hlen' & Hoth' & Hst' & Hc & Hd).
      cbn [nodes cube divisor set_nodes] in *.
      split; [congruence|]. split; [|split; [|split; congruence]].
      * intros r Hr. rewrite Hoth' by exact Hr. apply Hoth. lia.
      * intros r. rewrite Hst'. apply Hst.
    + destruct (IH _ H HU) as (Hlen' & Hoth' & Hst' & Hc & Hd).
      cbn [nodes cube divisor set_Q set_visited_nodes] in *. auto.
Qed.

Lemma successors_loop_distinct (U : list ref) (x : ref) (sv sv' : Solver) :
  successors_loop U x sv = Ok sv' ->
  Forall (fun u => (u < length (nodes sv))%nat) U ->
  visited_distinct sv -> visited_distinct sv'.
Proof.
  revert sv. induction U as [|u U IH]; intros sv H HU Hinv;
    cbn [successors_loop] in H.
  - injection H as <-. exact Hinv.
  - apply Forall_cons in HU as [Hu HU].
    destruct (is_visited sv u) as [seen| |] eqn:Hseen; cbn [res_bind] in H;
      try discriminate.
    destruct seen; cbn [negb] in H.
    + destruct (update_parent (nodes sv) u (Some x)) as [store| |] eqn:Hup;
        cbn [res_bind] in H; try discriminate.
      destruct (update_parent_frame _ _ _ _ Hup) as (Hlen & _ & Hst).
      apply (IH _ H).
      * cbn [nodes set_nodes]. rewrite Hlen. exact HU.
      * eapply visited_distinct_ext; [| | |exact Hinv];
          cbn [nodes visited_nodes set_nodes]; auto. lia.
    + apply (IH _ H).
      * exact HU.
      * destruct Hinv as [Hval Hnd]. unfold visited_distinct.
        cbn [nodes visited_nodes set_Q set_visited_nodes]. split.
        { apply Forall_app. split; [exact Hval|]. apply Forall_singleton.
          exact Hu. }
        rewrite fmap_app. apply NoDup_app. split; [exact Hnd|].
        split; [|apply NoDup_singleton].
        intros s Hs Hs'. apply list_elem_of_singleton in Hs'. subst s.
        apply list_elem_of_fmap in Hs as (e & Heq & He).
        rewrite Forall_forall in Hval. pose proof (Hval e He) as Hev.
        apply lookup_lt_is_Some_2 in Hev as [ne Hne].
        apply lookup_lt_is_Some_2 in Hu as [nu Hnu].
        unfold state_of in Heq. rewrite Hne, Hnu in Heq.
        injection Heq as Heq.
        unfold is_visited in Hseen.
        exact (list_contains_false _ _ _ Hseen e He ne nu Hne Hnu
                 (eq_sym Heq)).
Qed.

Section SearchFacts.

Variable rotate_90 : axis -> Z -> Z -> State -> State.

Lemma get_next_states_loop_frame (moves : list move) (par : ref)
    (sv sv' : Solver) (acc U : list ref) :
  get_next_states_loop rotate_90 moves par sv acc = Ok (U, sv') ->
  exists new : list AStarNode,
    nodes sv' = nodes sv ++ new
    /\ U = acc ++ seq (length (nodes sv)) (length new)
    /\ cube sv' = cube sv /\ Q sv' = Q sv
    /\ visited_nodes sv' = visited_nodes sv /\ divisor sv' = divisor sv.
Proof.
  revert sv acc. induction moves as [|m moves IH]; intros sv acc H;
    cbn [get_next_states_loop] in H.
  - injection H as <- <-. exists []. cbn [length seq].
    rewrite !app_nil_r. auto 10.
  - destruct (deref (nodes sv) par) as [np| |]; cbn [res_bind] in H;
      try discriminate.
    destruct (heuristic (rotate_90 m.1.1 m.1.2 m.2 (cube sv)) (divisor sv))
      as [h0| |]; cbn [res_bind] in H; try discriminate.
    apply IH in H as (new & Hn & HU & Hc & Hq & Hv & Hd).
    cbn [alloc fst snd nodes cube Q visited_nodes divisor set_nodes] in *.
    eexists (_ :: new). rewrite Hn, HU, <- !app_assoc.
    rewrite length_app. cbn [length seq app].
    replace (length (nodes sv) + 1)%nat with (S (length (nodes sv))) by lia.
    auto 10.
Qed.

(** One pass through the loop body: which node it pops, what it leaves in
    the cube, and what it keeps. *)
Lemma loop_body_facts (fuel : nat) (final : ref) (rots rots' : list ref)
    (sv sv' : Solver) (e : bool) :
  loop_body rotate_90 fuel final rots sv = Ok (e, rots', sv') ->
  exists x nx nf sv1,
    get_best_node sv = Ok (Some x, sv1)
    /\ nodes sv !! x = Some nx
    /\ nodes sv !! final = Some nf
    /\ cube sv' = state nx
    /\ e = bool_decide (state nx = state nf)
    /\ (e = false -> rots' = rots)
    /\ (length (nodes sv) <= length (nodes sv'))%nat
    /\ (forall r, (r < length (nodes sv))%nat ->
                  nodes sv' !! r = nodes sv !! r)
    /\ divisor sv' = divisor sv
    /\ (visited_distinct sv -> visited_distinct sv').
Proof.
  unfold loop_body. intros H.
  destruct (get_best_node sv) as [[ox sv1]| |] eqn:Hb;
    cbn [res_bind fst snd] in H; try discriminate.
  destruct ox as [x|]; [|discriminate].
  destruct (get_best_node_frame _ _ _ Hb) as (Hn1 & Hc1 & Hv1 & Hd1).
  destruct (deref (nodes sv1) x) as [nx| |] eqn:Hx; cbn [res_bind] in H;
    try discriminate.
  cbn [nodes set_State] in H.
  destruct (deref (nodes sv1) final) as [nf| |] eqn:Hf; cbn [res_bind] in H;
    try discriminate.
  apply deref_Ok in Hx, Hf. rewrite Hn1 in Hx, Hf.
  exists x, nx, nf, sv1.
  split; [reflexivity|]. split; [exact Hx|]. split; [exact Hf|].
  destruct (bool_decide (state nx = state nf)) eqn:Heq.
  - destruct (walk_back fuel (nodes sv1) x (parent nx) rots) as [rs| |];
      cbn [res_bind] in H; try discriminate.
    injection H as <- <- <-.
    cbn [cube nodes divisor set_State]. rewrite Hn1.
    split; [reflexivity|]. split; [reflexivity|].
    split; [discriminate|]. split; [lia|]. split; [auto|].
    split; [exact Hd1|].
    apply visited_distinct_ext; cbn [nodes visited_nodes set_State];
      rewrite ?Hn1; auto.
  - destruct (get_next_states rotate_90 x (set_State (state nx) sv1))
      as [[U sv2]| |] eqn:Hg; cbn [res_bind fst snd] in H;
      try discriminate.
    destruct (successors_loop U x sv2) as [sv3| |] eqn:Hs;
      cbn [res_bind] in H; try discriminate.
    injection H as <- <- <-.
    apply get_next_states_loop_frame in Hg
      as (new & Hn2 & HU & Hc2 & _ & Hv2 & Hd2).
    cbn [nodes cube visited_nodes divisor set_State app] in Hn2, HU, Hc2,
      Hv2, Hd2.
    rewrite Hn1 in Hn2, HU.
    assert (HUlo : Forall (fun u => (length (nodes sv) <= u)%nat) U).
    { rewrite HU. apply Forall_seq. intros j Hj. lia. }
    assert (HUhi : Forall (fun u => (u < length (nodes sv2))%nat) U).
    { rewrite HU, Hn2, length_app. apply Forall_seq. intros j Hj. lia. }
    destruct (successors_loop_frame _ _ _ _ _ Hs HUlo)
      as (Hlen3 & Hoth3 & _ & Hc3 & Hd3).
    split; [congruence|]. split; [reflexivity|].
    split; [reflexivity|].
    split; [rewrite Hlen3, Hn2, length_app; lia|].
    split.
    { intros r Hr. rewrite Hoth3 by exact Hr. rewrite Hn2.
      apply lookup_app_l. exact Hr. }
    split; [congruence|].
    intros Hinv. apply (successors_loop_distinct _ _ _ _ Hs HUhi).
    apply (visited_distinct_ext sv); auto.
    + congruence.
    + rewrite Hn2, length_app. lia.
    + intros r Hr. unfold state_of. rewrite Hn2.
      rewrite lookup_app_l by exact Hr. reflexivity.
Qed.

(** Once the loop condition fails the loop returns, whatever the fuel. *)
Lemma solve_loop_done (fuel : nat) (final : ref) (e : bool)
    (rots : list ref) (sv : Solver) :
  guard e sv = false ->
  solve_loop rotate_90 fuel final e rots sv = Ok (e, rots, sv).
Proof. intros Hg. destruct fuel; cbn [solve_loop]; rewrite Hg; reflexivity. Qed.

(** What the loop returns is reached from where it starts, and the loop
    condition fails there. *)
Lemma solve_loop_reachable (fuel : nat) (final : ref) (c c' : loop_state) :
  solve_loop rotate_90 fuel final c.1.1 c.1.2 c.2 = Ok c' ->
  reachable rotate_90 final c c' /\ guard c'.1.1 c'.2 = false.
Proof.
  revert c. induction fuel as [|fuel IH]; intros [[e rots] sv] H;
    cbn [solve_loop fst snd] in H.
  - destruct (guard e sv) eqn:Hg; [discriminate|].
    injection H as <-. split; [apply reach_here | exact Hg].
  - destruct (guard e sv) eqn:Hg.
    + destruct (loop_body rotate_90 fuel final rots sv) as [c1| |] eqn:Hb;
        cbn [res_bind] in H; try discriminate.
      destruct (IH c1 H) as [Hr Hg']. split; [|exact Hg'].
      eapply reach_step; [exact Hg | exact Hb | exact Hr].
    + injection H as <-. split; [apply reach_here | exact Hg].
Qed.

(** An invariant of the loop states that each pass keeps holds wherever
    the run gets. *)
Lemma reachable_ind_inv (final : ref) (P : loop_state -> Prop) :
  (forall c c1 fuel,
     P c -> guard c.1.1 c.2 = true ->
     loop_body rotate_90 fuel final c.1.2 c.2 = Ok c1 -> P c1) ->
  forall c c', reachable rotate_90 final c c' -> P c -> P c'.
Proof.
  intros Hstep c c' Hr. induction Hr as [c|c c1 c2 fuel Hg Hb Hr IH];
    intros Hc; [exact Hc|].
  apply IH. eapply Hstep; eauto.
Qed.

(** What [solve_init] builds. *)
Lemma solve_init_spec (sv sv0 : Solver) (final : ref) :
  solve_init sv = Ok (final, sv0) ->
  exists h0,
    heuristic (cube sv) (divisor sv) = Ok h0
    /\ final = S (length (nodes sv))
    /\ nodes sv0
       = nodes sv
         ++ [new_node (cube sv) false None 0 h0 (Some [(ax_x, 0, 0)]);
             new_node solved_state false None 0 0%Q None]
    /\ cube sv0 = cube sv
    /\ Q sv0 = Q sv ++ [length (nodes sv)]
    /\ visited_nodes sv0 = visited_nodes sv ++ [length (nodes sv)]
    /\ divisor sv0 = divisor sv.
Proof.
  unfold solve_init. intros H.
  destruct (heuristic (cube sv) (divisor sv)) as [h0| |];
    cbn [res_bind] in H; try discriminate.
  injection H as <- <-. exists h0.
  cbn [alloc fst snd nodes cube Q visited_nodes divisor set_nodes set_Q
       set_visited_nodes].
  rewrite length_app, <- app_assoc. cbn [length app].
  replace (length (nodes sv) + 1)%nat with (S (length (nodes sv))) by lia.
  auto 10.
Qed.

Lemma walk_back_root (fuel : nat) (store : list AStarNode) (x : ref)
    (rots : list ref) :
  walk_back fuel store x None rots = Ok rots.
Proof. destruct fuel; reflexivity. Qed.

(** The solved branch when the popped node is a root. *)
Lemma loop_body_solved_root (fuel : nat) (final : ref) (rots : list ref)
    (sv sv1 : Solver) (x : ref) (nx nf : AStarNode) :
  get_best_node sv = Ok (Some x, sv1) ->
  nodes sv1 !! x = Some nx ->
  nodes sv1 !! final = Some nf ->
  state nx = state nf ->
  parent nx = None ->
  loop_body rotate_90 fuel final rots sv
  = Ok (true, rots, set_State (state nx) sv1).
Proof.
  intros Hb Hx Hf Heq Hp. unfold loop_body. rewrite Hb.
  cbn [res_bind fst snd]. apply deref_Ok in Hx, Hf. rewrite Hx.
  cbn [res_bind nodes set_State]. rewrite Hf. cbn [res_bind].
  rewrite bool_decide_eq_true_2 by exact Heq.
  rewrite Hp, walk_back_root. reflexivity.
Qed.

(** A pass that does not end the search does not look at the fuel. *)
Lemma loop_body_fuel (fuel fuel' : nat) (final : ref) (rots r : list ref)
    (sv s : Solver) :
  loop_body rotate_90 fuel final rots sv = Ok (false, r, s) ->
  loop_body rotate_90 fuel' final rots sv = Ok (false, r, s).
Proof.
  unfold loop_body.
  destruct (get_best_node sv) as [[ox sv1]| |]; cbn [res_bind fst snd];
    try discriminate.
  destruct ox as [x|]; [|discriminate].
  destruct (deref (nodes sv1) x) as [nx| |]; cbn [res_bind];
    try discriminate.
  destruct (deref (nodes (set_State (state nx) sv1)) final) as [nf| |];
    cbn [res_bind]; try discriminate.
  destruct (bool_decide (state nx = state nf)); [|auto].
  destruct (walk_back fuel (nodes (set_State (state nx) sv1)) x (parent nx)
              rots); cbn [res_bind]; discriminate.
Qed.

(** After the solved branch the run goes nowhere. *)
Lemma reachable_ended (final : ref) (c c' : loop_state) :
  reachable rotate_90 final c c' -> c.1.1 = true -> c' = c.
Proof.
  intros Hr He. destruct Hr as [c|c c1 c2 fuel Hg _ _]; [reflexivity|].
  unfold guard in Hg. rewrite He in Hg. discriminate.
Qed.

(** A run that reaches the end of the loop with [ended] still false is
    what the loop computes, given fuel for its passes. *)
Lemma reachable_solve_loop (final : ref) (c c' : loop_state) :
  reachable rotate_90 final c c' ->
  guard c'.1.1 c'.2 = false ->
  c'.1.1 = false ->
  exists n : nat, forall fuel : nat, (n <= fuel)%nat ->
    solve_loop rotate_90 fuel final c.1.1 c.1.2 c.2 = Ok c'.
Proof.
  intros Hr Hg He.
  induction Hr as [[[e r] s]|[[e r] s] [[e1 r1] s1] c2 fuel0 Hgd Hb Hr IH].
  - exists 0%nat. intros fuel _. apply solve_loop_done. exact Hg.
  - cbn [fst snd] in *.
    assert (He1 : e1 = false).
    { destruct e1; [|reflexivity].
      rewrite (reachable_ended _ _ _ Hr eq_refl) in He. discriminate. }
    subst e1. destruct (IH Hg He) as [n Hn].
    exists (S n). intros fuel Hfuel.
    destruct fuel as [|fuel]; [lia|].
    cbn [solve_loop]. rewrite Hgd.
    rewrite (loop_body_fuel fuel0 fuel _ _ _ _ _ Hb).
    cbn [res_bind fst snd]. apply Hn. lia.
Qed.

(** The call [u.update_parent(x)] of the expansion, on a successor [u]
    that [get_next_states] has just created with parent [x], never fires:
    the tentative [f] is the [f] the node already has. *)
Lemma update_parent_fresh_successor (store : list AStarNode) (u x : ref)
    (nx : AStarNode) (st : State) (h0 : rational) (m : move) :
  store !! x = Some nx ->
  store !! u = Some (new_node st false (Some x) (g nx + 1) h0 (Some [m])) ->
  update_parent store u (Some x) = Ok store.
Proof.
  intros Hx Hu. unfold update_parent, calculate_cost.
  apply deref_Ok in Hx, Hu. rewrite Hu. cbn [res_bind]. rewrite Hx.
  cbn [res_bind fst snd h f new_node].
  rewrite (proj2 (Qltb_nlt _ _) (Qlt_irrefl _)). reflexivity.
Qed.

(** ** The search driver: claims C4, C5, C10, C7, C8, C1 *)

(** C4.  Started on the solved cube with a fresh solver, [solve] returns
    the empty list of rotations as soon as it has fuel for one pass, and
    the visited index then holds exactly one node; this is so whatever the
    rotation function. *)
Theorem solve_solved_state (fuel : nat) :
  exists sv' : Solver,
    solve rotate_90 (S fuel) (new_solver solved_state) = Ok ([], sv')
    /\ length (visited_nodes sv') = 1%nat
    /\ cube sv' = solved_state.
Proof.
  pose (n0 := new_node solved_state false None 0 (0 # 5)%Q
                       (Some [(ax_x, 0, 0)])).
  pose (nfin := new_node solved_state false None 0 0%Q None).
  pose (sv0 := mkSolver [n0; nfin] solved_state [0%nat] [0%nat] 5).
  assert (Hi : solve_init (new_solver solved_state) = Ok (1%nat, sv0)).
  { vm_compute. reflexivity. }
  assert (Hb : loop_body rotate_90 fuel 1 [] sv0
               = Ok (true, [], set_State (state n0) (set_Q [] sv0))).
  { apply (loop_body_solved_root fuel 1 [] sv0 (set_Q [] sv0) 0 n0 nfin);
      reflexivity. }
  unfold solve, solve_run. rewrite Hi. cbn [res_bind fst snd solve_loop].
  change (guard false sv0) with true. cbv iota. rewrite Hb.
  cbn [res_bind fst snd]. rewrite solve_loop_done by reflexivity.
  cbn [res_bind fst snd]. eexists. split; [reflexivity|].
  split; reflexivity.
Qed.

(** C5, as amended.  When [solve] is called with a visited index whose
    nodes hold pairwise different states, none of them the state of the
    cube (as with the empty index of a new solver), then at every pass of
    the main loop and on return every reference of the visited index names
    a node and no two entries of the index name nodes of equal states: a
    successor enters the index only when [is_visited] finds no node of its
    state there.  The initial node enters it untested. *)
Theorem visited_one_node_per_state (sv sv0 : Solver) (final : ref)
    (c : loop_state) :
  visited_distinct sv ->
  (forall r n, r ∈ visited_nodes sv -> nodes sv !! r = Some n ->
               state n <> cube sv) ->
  solve_init sv = Ok (final, sv0) ->
  reachable rotate_90 final (false, [], sv0) c ->
  (forall r, r ∈ visited_nodes c.2 -> is_Some (nodes c.2 !! r))
  /\ forall (i j : nat) (ri rj : ref) (ni nj : AStarNode),
       visited_nodes c.2 !! i = Some ri ->
       visited_nodes c.2 !! j = Some rj ->
       nodes c.2 !! ri = Some ni ->
       nodes c.2 !! rj = Some nj ->
       state ni = state nj -> i = j.
Proof.
  intros [Hval0 Hnd0] Hcube Hi Hr.
  assert (Hinv : visited_distinct c.2).
  { refine (reachable_ind_inv final (fun c => visited_distinct c.2) _ _ _
              Hr _).
    - intros [[e rots] s] [[e1 rots1] s1] fuel Hc _ Hb.
      cbn [fst snd] in *.
      destruct (loop_body_facts _ _ _ _ _ _ _ Hb)
        as (x & nx & nf & s' & _ & _ & _ & _ & _ & _ & _ & _ & _ & Hd).
      exact (Hd Hc).
    - cbn [fst snd].
      destruct (solve_init_spec _ _ _ Hi)
        as (h0 & _ & _ & Hn & _ & _ & Hvis & _).
      rewrite Forall_forall in Hval0.
      assert (Hold : forall r, r ∈ visited_nodes sv ->
                state_of (nodes sv0) r = state_of (nodes sv) r).
      { intros r Hr'. unfold state_of. rewrite Hn.
        rewrite lookup_app_l by (apply Hval0; exact Hr'). reflexivity. }
      unfold visited_distinct. rewrite Hvis. split.
      + apply Forall_app. split.
        * apply Forall_forall. intros r Hr'. specialize (Hval0 r Hr').
          rewrite Hn, length_app. lia.
        * apply Forall_singleton. rewrite Hn, length_app. cbn [length]. lia.
      + rewrite fmap_app. apply NoDup_app. split; [|split].
        * erewrite list_fmap_ext; [exact Hnd0|].
          intros i r Hir. apply Hold. eapply list_elem_of_lookup_2. exact Hir.
        * intros st Hst Hst'. cbn in Hst'.
          apply list_elem_of_singleton in Hst'. subst st.
          apply list_elem_of_fmap in Hst as (r & Heq & Hr').
          rewrite (Hold r Hr') in Heq.
          unfold state_of in Heq. rewrite Hn in Heq.
          rewrite lookup_app_r in Heq by lia.
          rewrite Nat.sub_diag in Heq. cbn in Heq.
          destruct (nodes sv !! r) as [n|] eqn:Hrn; [|discriminate].
          cbn in Heq. injection Heq as Heq.
          exact (Hcube r n Hr' Hrn (eq_sym Heq)).
        * cbn. apply NoDup_singleton. }
  destruct Hinv as [Hval Hnd]. split.
  - intros r Hr'. rewrite Forall_forall in Hval.
    apply lookup_lt_is_Some_2. exact (Hval r Hr').
  - intros i j ri rj ni nj Hi' Hj Hni Hnj Heq.
    apply (NoDup_lookup _ i j (Some (state ni)) Hnd).
    + rewrite list_lookup_fmap, Hi'. cbn. unfold state_of. rewrite Hni.
      reflexivity.
    + rewrite list_lookup_fmap, Hj. cbn. unfold state_of. rewrite Hnj, Heq.
      reflexivity.
Qed.

(** C10.  Each pass through the loop body overwrites the cube with the
    state of the node it pops, and a run that ends through the solved
    branch leaves the cube in the solved state. *)
Theorem solve_leaves_cube_solved (fuel : nat) (sv sv' : Solver)
    (rots : list ref) :
  solve_run rotate_90 fuel sv = Ok (true, rots, sv') ->
  cube sv' = solved_state
  /\ forall (fuel1 : nat) (final : ref) (r1 r2 : list ref)
            (s1 s2 : Solver) (e : bool),
       loop_body rotate_90 fuel1 final r1 s1 = Ok (e, r2, s2) ->
       exists (x : ref) (nx : AStarNode) (s : Solver),
         get_best_node s1 = Ok (Some x, s)
         /\ nodes s1 !! x = Some nx
         /\ cube s2 = state nx.
Proof.
  intros Hrun. split.
  - unfold solve_run in Hrun.
    destruct (solve_init sv) as [[final sv0]| |] eqn:Hi;
      cbn [res_bind fst snd] in Hrun; try discriminate.
    apply (solve_loop_reachable fuel final (false, [], sv0)) in Hrun
      as [Hr _].
    pose (P := fun c : loop_state =>
      (exists nf, nodes c.2 !! final = Some nf /\ state nf = solved_state)
      /\ (c.1.1 = true -> cube c.2 = solved_state)).
    assert (HP : P (true, rots, sv')).
    { refine (reachable_ind_inv final P _ _ _ Hr _).
      - intros [[e r] s] [[e1 r1] s1] fuel1 [(nf & Hnf & Hs) _] _ Hb.
        cbn [fst snd] in *.
        destruct (loop_body_facts _ _ _ _ _ _ _ Hb)
          as (x & nx & nf' & s' & _ & _ & Hnf' & Hc & He & _ & _ & Hfr & _).
        unfold P. cbn [fst snd]. split.
        + exists nf. split; [|exact Hs]. rewrite Hfr; [exact Hnf|].
          eapply lookup_lt_Some. exact Hnf.
        + intros ->. symmetry in He. apply bool_decide_eq_true in He.
          rewrite Hc, He. congruence.
      - destruct (solve_init_spec _ _ _ Hi)
          as (h0 & _ & -> & Hn & _).
        unfold P. cbn [fst snd]. split; [|discriminate].
        exists (new_node solved_state false None 0 0%Q None).
        split; [|reflexivity]. rewrite Hn.
        rewrite lookup_app_r by lia.
        replace (S (length (nodes sv)) - length (nodes sv))%nat
          with 1%nat by lia.
        reflexivity. }
    destruct HP as [_ HP]. apply HP. reflexivity.
  - intros fuel1 final r1 r2 s1 s2 e Hb.
    destruct (loop_body_facts _ _ _ _ _ _ _ Hb)
      as (x & nx & nf & s & Hg & Hx & _ & Hc & _).
    exists x, nx, s. auto.
Qed.

(** C7, as amended.  When the run ends with the frontier emptied and no
    popped state solved, [solve] has returned normally: the rotations it
    returns are the empty list and the queue is empty.  At an empty queue
    the loop returns at once, whatever the fuel. *)
Theorem exhausted_search_returns_empty (fuel : nat) (sv sv' : Solver)
    (rots : list ref) :
  solve_run rotate_90 fuel sv = Ok (false, rots, sv') ->
  rots = [] /\ Q sv' = []
  /\ solve rotate_90 fuel sv = Ok ([], sv')
  /\ forall (fuel1 : nat) (final : ref) (e : bool) (r : list ref)
            (s : Solver),
       Q s = [] ->
       solve_loop rotate_90 fuel1 final e r s = Ok (e, r, s).
Proof.
  intros Hrun.
  assert (Hfacts : rots = [] /\ Q sv' = []).
  { unfold solve_run in Hrun.
    destruct (solve_init sv) as [[final sv0]| |] eqn:Hi;
      cbn [res_bind fst snd] in Hrun; try discriminate.
    apply (solve_loop_reachable fuel final (false, [], sv0)) in Hrun
      as [Hr Hg].
    cbn [fst snd] in Hg. split.
    - refine (reachable_ind_inv final
                (fun c : loop_state => c.1.1 = false -> c.1.2 = [])
                _ _ _ Hr _ eq_refl).
      + intros [[e r] s] [[e1 r1] s1] fuel1 Hc Hgd Hb. cbn [fst snd] in *.
        destruct (loop_body_facts _ _ _ _ _ _ _ Hb)
          as (x & nx & nf & s' & _ & _ & _ & _ & _ & Hrots & _).
        intros He1. rewrite (Hrots He1). apply Hc.
        unfold guard in Hgd. destruct e; [discriminate|reflexivity].
      + reflexivity.
    - unfold guard in Hg. cbn [negb andb] in Hg.
      apply Nat.ltb_ge in Hg. apply length_zero_iff_nil. lia. }
  destruct Hfacts as [-> HQ]. split; [reflexivity|]. split; [exact HQ|].
  split.
  - unfold solve. rewrite Hrun. reflexivity.
  - intros fuel1 final e r s Hs. apply solve_loop_done.
    unfold guard. rewrite Hs. apply andb_false_r.
Qed.

(** X17.  Exhaustion ends the search.  When a run reaches the head of the loop with the
    queue emptied and no popped state solved, [solve] returns normally,
    given fuel for the passes made: it returns the empty list of rotations,
    with [ended] still false. *)
Theorem exhaustion_terminates (sv sv0 sv' : Solver) (final : ref)
    (rots : list ref) :
  solve_init sv = Ok (final, sv0) ->
  reachable rotate_90 final (false, [], sv0) (false, rots, sv') ->
  Q sv' = [] ->
  rots = []
  /\ exists n : nat, forall fuel : nat, (n <= fuel)%nat ->
       solve_run rotate_90 fuel sv = Ok (false, [], sv')
       /\ solve rotate_90 fuel sv = Ok ([], sv').
Proof.
  intros Hi Hr HQ.
  assert (Hrots : rots = []).
  { refine (reachable_ind_inv final
              (fun c : loop_state => c.1.1 = false -> c.1.2 = [])
              _ _ _ Hr _ eq_refl); [|reflexivity].
    intros [[e r] s] [[e1 r1] s1] fuel1 Hc Hgd Hb. cbn [fst snd] in *.
    destruct (loop_body_facts _ _ _ _ _ _ _ Hb)
      as (x & nx & nf & s' & _ & _ & _ & _ & _ & Hrots & _).
    intros He1. rewrite (Hrots He1). apply Hc.
    unfold guard in Hgd. destruct e; [discriminate|reflexivity]. }
  subst rots. split; [reflexivity|].
  destruct (reachable_solve_loop final _ _ Hr) as [n Hn].
  { unfold guard. cbn [fst snd]. rewrite HQ. reflexivity. }
  { reflexivity. }
  exists n. intros fuel Hfuel. specialize (Hn fuel Hfuel).
  cbn [fst snd] in Hn.
  assert (Hrun : solve_run rotate_90 fuel sv = Ok (false, [], sv')).
  { unfold solve_run. rewrite Hi. cbn [res_bind fst snd]. exact Hn. }
  split; [exact Hrun|]. unfold solve. rewrite Hrun. reflexivity.
Qed.






(** C1: what the code does.  A pass through the loop body leaves every
    node that was in the store before it exactly as it was: its parent, its
    [g] and its [f] are not touched, whatever cheaper path the pass offers.
    The call [u.update_parent(x)] of the expansion goes to the successor
    just created, not to the node of the visited index. *)
Theorem expansion_leaves_stored_nodes_unrelaxed (fuel : nat) (final : ref)
    (rots rots' : list ref) (sv sv' : Solver) (e : bool) (r : ref)
    (n : AStarNode) :
  loop_body rotate_90 fuel final rots sv = Ok (e, rots', sv') ->
  nodes sv !! r = Some n ->
  nodes sv' !! r = Some n.
Proof.
  intros Hb Hn.
  destruct (loop_body_facts _ _ _ _ _ _ _ Hb)
    as (x & nx & nf & s & _ & _ & _ & _ & _ & _ & _ & Hfr & _).
  rewrite Hfr; [exact Hn|]. eapply lookup_lt_Some. exact Hn.
Qed.

End SearchFacts.

(** ** Closed instances *)

Lemma visited_one_node_per_state_witness :
  visited_distinct relax_solver
  /\ (forall r n, r ∈ visited_nodes relax_solver ->
                  nodes relax_solver !! r = Some n ->
                  state n <> cube relax_solver)
  /\ solve_init relax_solver = Ok (2%nat, after_init relax_solver)
  /\ length (visited_nodes
       (after_pass shift_faces 2 (false, [], after_init relax_solver)).2)
     = 6%nat
  /\ (forall r,
        r ∈ visited_nodes
              (after_pass shift_faces 2
                 (false, [], after_init relax_solver)).2 ->
        is_Some
          (nodes
             (after_pass shift_faces 2
                (false, [], after_init relax_solver)).2
           !! r))
  /\ forall (i j : nat) (ri rj : ref) (ni nj : AStarNode),
       visited_nodes
         (after_pass shift_faces 2 (false, [], after_init relax_solver)).2
       !! i = Some ri ->
       visited_nodes
         (after_pass shift_faces 2 (false, [], after_init relax_solver)).2
       !! j = Some rj ->
       nodes
         (after_pass shift_faces 2 (false, [], after_init relax_solver)).2
       !! ri = Some ni ->
       nodes
         (after_pass shift_faces 2 (false, [], after_init relax_solver)).2
       !! rj = Some nj ->
       state ni = state nj -> i = j.
Proof.
  assert (Hd : visited_distinct relax_solver).
  { split.
    - apply Forall_singleton. cbn. lia.
    - cbn. apply NoDup_singleton. }
  assert (Hc : forall r n, r ∈ visited_nodes relax_solver ->
                 nodes relax_solver !! r = Some n ->
                 state n <> cube relax_solver).
  { intros r n Hr Hn. cbn in Hr. apply list_elem_of_singleton in Hr.
    subst r. cbn in Hn. injection Hn as <-. vm_compute. discriminate. }
  split; [exact Hd|]. split; [exact Hc|].
  split; [vm_compute; reflexivity|].
  split; [vm_compute; reflexivity|].
  apply (visited_one_node_per_state shift_faces relax_solver
           (after_init relax_solver) 2%nat _ Hd Hc).
  - vm_compute. reflexivity.
  - eapply (reach_step shift_faces 2%nat _ _ _ 0%nat).
    + vm_compute. reflexivity.
    + vm_compute. reflexivity.
    + apply reach_here.
Defined.

(** C5, the claim as stated fails: [solve] puts the initial node in the
    visited index without asking [is_visited].  Called a second time on
    the same solver, it adds a second node of the state of the cube to the
    index, which holds the node of the first call: two nodes of equal
    states are in the index during and after the second run. *)
Lemma second_solve_repeats_state :
  exists (rots : list ref) (sv1 sv2 : Solver) (c : loop_state)
         (n0 n2 : AStarNode),
    solve shift_faces 2 (new_solver solved_state) = Ok (rots, sv1)
    /\ solve_init sv1 = Ok (3%nat, sv2)
    /\ reachable shift_faces 3 (false, [], sv2) c
    /\ visited_nodes sv2 = [0%nat; 2%nat]
    /\ visited_nodes c.2 !! 0%nat = Some 0%nat
    /\ visited_nodes c.2 !! 1%nat = Some 2%nat
    /\ nodes c.2 !! 0%nat = Some n0
    /\ nodes c.2 !! 2%nat = Some n2
    /\ state n0 = state n2.
Proof.
  exists (after_run shift_faces 2 (new_solver solved_state)).1.2,
         (after_run shift_faces 2 (new_solver solved_state)).2,
         (after_init (after_run shift_faces 2 (new_solver solved_state)).2),
         (after_pass shift_faces 3
            (false, [],
             after_init
               (after_run shift_faces 2 (new_solver solved_state)).2)).
  eexists. eexists.
  split; [vm_compute; reflexivity|]. split; [vm_compute; reflexivity|].
  split.
  { eapply (reach_step shift_faces 3%nat _ _ _ 0%nat).
    - vm_compute. reflexivity.
    - vm_compute. reflexivity.
    - apply reach_here. }
  split; [vm_compute; reflexivity|]. split; [vm_compute; reflexivity|].
  split; [vm_compute; reflexivity|]. split; [vm_compute; reflexivity|].
  split; [vm_compute; reflexivity|]. reflexivity.
Qed.

Lemma update_parent_never_increases_f_witness :
  two_nodes !! 1%nat = Some (new_node (uniform 0) false None 5 (1 # 2)%Q None)
  /\ (forall (c : option ref) (store' : list AStarNode),
        update_parent two_nodes 1 c = Ok store' ->
        exists g1 f1,
          calculate_cost two_nodes
            (new_node (uniform 0) false None 5 (1 # 2)%Q None) c
          = Ok (g1, f1)
          /\ f1 = (inject_Z g1 + (1 # 2))%Q
          /\ (forall p np, c = Some p -> two_nodes !! p = Some np ->
                           g1 = g np + 1)
          /\ ((f1 < inject_Z 5 + (1 # 2))%Q ->
              store'
              = <[1%nat := set_costs g1 f1
                    (set_parent c
                       (new_node (uniform 0) false None 5 (1 # 2)%Q None))]>
                  two_nodes)
          /\ (~ (f1 < inject_Z 5 + (1 # 2))%Q -> store' = two_nodes))
  /\ (forall (cs : list (option ref)) (store' : list AStarNode),
        update_parent_seq two_nodes 1 cs = Ok store' ->
        exists n',
          store' !! 1%nat = Some n'
          /\ (f n' <= inject_Z 5 + (1 # 2))%Q
          /\ h n' = (1 # 2)%Q /\ state n' = uniform 0).
Proof.
  split; [reflexivity|].
  apply (update_parent_never_increases_f two_nodes 1
           (new_node (uniform 0) false None 5 (1 # 2)%Q None)).
  reflexivity.
Defined.

(** The relaxation through the root takes the node of [two_nodes] from
    cost 5 to cost 1; a second offer of the same parent changes nothing. *)
Example update_parent_relaxes :
  update_parent_seq two_nodes 1 [Some 0%nat; Some 0%nat]
  = Ok [ new_node solved_state false None 0 0%Q None;
         mkNode (uniform 0) false (Some 0%nat) None 1 (1 # 2)%Q
                (inject_Z 1 + (1 # 2))%Q ].
Proof. vm_compute. reflexivity. Qed.

Lemma solve_leaves_cube_solved_witness :
  cube (new_solver (rotate 1 solved_state)) <> solved_state
  /\ solve_run shift_faces 5 (new_solver (rotate 1 solved_state))
     = Ok (true, [2%nat],
           (after_run shift_faces 5 (new_solver (rotate 1 solved_state))).2)
  /\ cube (after_run shift_faces 5 (new_solver (rotate 1 solved_state))).2
     = solved_state
  /\ forall (fuel1 : nat) (final : ref) (r1 r2 : list ref)
            (s1 s2 : Solver) (e : bool),
       loop_body shift_faces fuel1 final r1 s1 = Ok (e, r2, s2) ->
       exists (x : ref) (nx : AStarNode) (s : Solver),
         get_best_node s1 = Ok (Some x, s)
         /\ nodes s1 !! x = Some nx
         /\ cube s2 = state nx.
Proof.
  split; [vm_compute; discriminate|].
  split; [vm_compute; reflexivity|].
  apply (solve_leaves_cube_solved shift_faces 5
           (new_solver (rotate 1 solved_state)) _ [2%nat]).
  vm_compute. reflexivity.
Defined.

Lemma exhausted_search_returns_empty_witness :
  solve_run shift_faces 2 (new_solver (uniform 0))
  = Ok (false, [], (after_run shift_faces 2 (new_solver (uniform 0))).2)
  /\ Q (after_run shift_faces 2 (new_solver (uniform 0))).2 = []
  /\ solve shift_faces 2 (new_solver (uniform 0))
     = Ok ([], (after_run shift_faces 2 (new_solver (uniform 0))).2)
  /\ forall (fuel1 : nat) (final : ref) (e : bool) (r : list ref)
            (s : Solver),
       Q s = [] ->
       solve_loop shift_faces fuel1 final e r s = Ok (e, r, s).
Proof.
  split; [vm_compute; reflexivity|].
  apply (exhausted_search_returns_empty shift_faces 2
           (new_solver (uniform 0))
           (after_run shift_faces 2 (new_solver (uniform 0))).2 []).
  vm_compute. reflexivity.
Defined.

Lemma exhaustion_terminates_witness :
  solve_init (new_solver (uniform 0))
  = Ok (1%nat, after_init (new_solver (uniform 0)))
  /\ Q (after_run shift_faces 2 (new_solver (uniform 0))).2 = []
  /\ exists n : nat, forall fuel : nat, (n <= fuel)%nat ->
       solve_run shift_faces fuel (new_solver (uniform 0))
       = Ok (false, [],
             (after_run shift_faces 2 (new_solver (uniform 0))).2)
       /\ solve shift_faces fuel (new_solver (uniform 0))
          = Ok ([], (after_run shift_faces 2 (new_solver (uniform 0))).2).
Proof.
  split; [vm_compute; reflexivity|]. split; [vm_compute; reflexivity|].
  apply (exhaustion_terminates shift_faces
           (new_solver (uniform 0)) (after_init (new_solver (uniform 0)))
           (after_run shift_faces 2 (new_solver (uniform 0))).2 1%nat []).
  - vm_compute. reflexivity.
  - eapply (reach_step shift_faces 1%nat _ _ _ 0%nat).
    + vm_compute. reflexivity.
    + vm_compute. reflexivity.
    + apply reach_here.
  - vm_compute. reflexivity.
Defined.

(** C7, the claim as stated fails: a run that exhausts the frontier and a
    run that solves the cube hand the same value to the caller.  A cube
    of one colour is left as it is by every permutation of the stickers, so
    every successor of the root is already visited and the frontier is
    empty after one pass; [solve] returns the empty list, as it does for a
    cube that is solved from the start. *)
Lemma exhaustion_returns_what_success_returns :
  exists sv_a sv_b : Solver,
    solve_run shift_faces 2 (new_solver (uniform 0)) = Ok (false, [], sv_a)
    /\ Q sv_a = []
    /\ cube sv_a <> solved_state
    /\ solve_run shift_faces 2 (new_solver solved_state)
       = Ok (true, [], sv_b)
    /\ (exists out,
          solve shift_faces 2 (new_solver (uniform 0)) = Ok (out, sv_a)
          /\ solve shift_faces 2 (new_solver solved_state) = Ok (out, sv_b)).
Proof.
  exists (after_run shift_faces 2 (new_solver (uniform 0))).2,
         (after_run shift_faces 2 (new_solver solved_state)).2.
  split; [vm_compute; reflexivity|]. split; [vm_compute; reflexivity|].
  split; [vm_compute; discriminate|]. split; [vm_compute; reflexivity|].
  exists []. split; vm_compute; reflexivity.
Qed.



Lemma expansion_leaves_stored_nodes_unrelaxed_witness :
  solve_init relax_solver = Ok (2%nat, after_init relax_solver)
  /\ loop_body shift_faces 0 2 [] (after_init relax_solver)
     = Ok (after_pass shift_faces 2 (false, [], after_init relax_solver))
  /\ nodes (after_init relax_solver) !! 0%nat = Some relax_stored
  /\ relax_stored ∈ nodes (after_init relax_solver)
  /\ (exists (sv1 : Solver) (nx : AStarNode),
        get_best_node (after_init relax_solver) = Ok (Some 1%nat, sv1)
        /\ nodes (after_init relax_solver) !! 1%nat = Some nx
        /\ shift_faces ax_x 0 1 (state nx) = state relax_stored
        /\ (inject_Z (g nx + 1) + h relax_stored < f relax_stored)%Q)
  /\ nodes (after_pass shift_faces 2
              (false, [], after_init relax_solver)).2 !! 0%nat
     = Some relax_stored
  /\ parent relax_stored = None /\ g relax_stored = 5.
Proof.
  assert (Hb : loop_body shift_faces 0 2 [] (after_init relax_solver)
               = Ok (after_pass shift_faces 2
                       (false, [], after_init relax_solver))).
  { vm_compute. reflexivity. }
  split; [vm_compute; reflexivity|]. split; [exact Hb|].
  split; [reflexivity|]. split; [apply list_elem_of_here|].
  split.
  { eexists (set_Q [] (after_init relax_solver)), _.
    split; [vm_compute; reflexivity|]. split; [reflexivity|].
    split; [vm_compute; reflexivity|]. vm_compute. reflexivity. }
  split; [|split; reflexivity].
  destruct (after_pass shift_faces 2 (false, [], after_init relax_solver))
    as [[e rots'] sv'] eqn:Hc.
  exact (expansion_leaves_stored_nodes_unrelaxed shift_faces 0 2 [] rots'
           (after_init relax_solver) sv' e 0 relax_stored Hb eq_refl).
Defined.

(** * Further properties of the code *)

(** ** The heuristic, further *)

Lemma piece_cost_le cubie bp bo : piece_cost cubie bp bo <= piece_cost_max cubie.
Proof.
  unfold piece_cost, piece_cost_max.
  destruct (cubie <? 8), bp, bo; lia.
Qed.

Lemma cost_sum_le pos ori ids :
  cost_sum pos ori ids <= foldr (fun i acc => piece_cost_max i + acc) 0 ids.
Proof.
  induction ids as [|i ids IH]; cbn [cost_sum foldr]; [lia|].
  pose proof (piece_cost_le i (pos i) (ori i)). unfold cost_sum in IH. lia.
Qed.

Lemma piece_cost_zero cubie bp bo :
  piece_cost cubie bp bo = 0 <-> bp = true /\ bo = true.
Proof.
  unfold piece_cost. destruct (cubie <? 8), bp, bo; split;
    try intros [? ?]; try intros ?; try discriminate; auto.
Qed.

Lemma cost_sum_zero pos ori ids :
  cost_sum pos ori ids = 0
  <-> Forall (fun i => pos i = true /\ ori i = true) ids.
Proof.
  induction ids as [|i ids IH]; cbn [cost_sum foldr].
  - split; [constructor|reflexivity].
  - change (foldr (fun i acc => piece_cost i (pos i) (ori i) + acc) 0 ids)
      with (cost_sum pos ori ids).
    pose proof (piece_cost_nonneg i (pos i) (ori i)).
    pose proof (cost_sum_nonneg pos ori ids).
    rewrite Forall_cons, <- IH, <- (piece_cost_zero i). 
    lia.
Qed.

(** X1.  The heuristic is a whole number of moves between 0 and 52, over the
    divisor. *)
Theorem heuristic_bounded (st : State) (d : Z) :
  d <> 0 ->
  exists k : Z,
    0 <= k <= 52 /\ heuristic st d = Ok (inject_Z k / inject_Z d)%Q.
Proof.
  intros Hd.
  exists (cost_sum (position_flag st) (orientation_flag st) (seqZ 0 20)).
  split; [|apply heuristic_table; exact Hd].
  split; [apply cost_sum_nonneg|].
  etransitivity; [apply cost_sum_le|]. vm_compute. discriminate.
Qed.

Lemma heuristic_bounded_witness :
  exists k : Z,
    0 <= k <= 52 /\ heuristic (uniform 7) 5 = Ok (inject_Z k / inject_Z 5)%Q.
Proof. apply (heuristic_bounded (uniform 7) 5). lia. Defined.

Lemma heuristic_zero_divisor_any (st : State) :
  heuristic st 0 = Raise ZeroDivisionError.
Proof.
  unfold heuristic.
  rewrite (sum_moves_loop_table st (seqZ 0 20) 0 range20_in_range).
  reflexivity.
Qed.

(** X4.  With divisor 0 the heuristic raises [ZeroDivisionError] on every state,
    and so does [solve], at the root node it tries to create. *)
Theorem solve_zero_divisor (rotate_90 : axis -> Z -> Z -> State -> State)
    (fuel : nat) (store : list AStarNode) (st : State) (q v : list ref) :
  heuristic st 0 = Raise ZeroDivisionError
  /\ solve rotate_90 fuel (mkSolver store st q v 0) = Raise ZeroDivisionError.
Proof.
  split; [apply heuristic_zero_divisor_any|].
  unfold solve, solve_run, solve_init. cbn [cube divisor].
  rewrite heuristic_zero_divisor_any. reflexivity.
Qed.

(** X2.  The sum of the costs of the twenty pieces, the integer that
    [heuristic] adds up and then divides by the divisor, is zero exactly
    when each of the twenty pieces is found both in position and
    oriented. *)
Theorem sum_moves_zero_iff (st : State) :
  exists k : Z,
    sum_moves_loop (list_of_pairs st) (seqZ 0 20) 0 = Ok k
    /\ (forall d : Z, d <> 0 ->
          heuristic st d = Ok (inject_Z k / inject_Z d)%Q)
    /\ (k = 0
        <-> forall i : Z, 0 <= i < 20 ->
              correct_position (list_of_pairs st) i = Ok true
              /\ correct_orientation (list_of_pairs st) i = Ok (Some true)).
Proof.
  exists (cost_sum (position_flag st) (orientation_flag st) (seqZ 0 20)).
  split.
  { rewrite (sum_moves_loop_table st (seqZ 0 20) 0 range20_in_range).
    rewrite Z.add_0_l. reflexivity. }
  split; [intros d Hd; apply heuristic_table; exact Hd|].
  etransitivity; [apply cost_sum_zero|].
  rewrite Forall_forall. split.
  - intros H i Hi.
    assert (Hr : in_range 0 20 i = true) by (apply in_range_spec; lia).
    destruct (flags_correct st i Hr) as [Hp Ho].
    destruct (H i) as [E1 E2]; [apply elem_of_seqZ; lia|].
    rewrite Hp, Ho, E1, E2. auto.
  - intros H i Hi. apply elem_of_seqZ in Hi.
    assert (Hr : in_range 0 20 i = true) by (apply in_range_spec; lia).
    destruct (flags_correct st i Hr) as [Hp Ho].
    destruct (H i) as [E1 E2]; [lia|].
    rewrite Hp in E1. rewrite Ho in E2.
    injection E1 as E1. injection E2 as E2. auto.
Qed.

(** X5.  What [moves_for_correct_cubie] can answer: 0, 1 or 2 for a corner, 0 to
    3 for an edge, and [None] for any other id, whatever the pairs. *)
Theorem moves_for_correct_cubie_range (st : State) (pairs : list (Z * Z))
    (cubie : Z) :
  (0 <= cubie < 8 ->
     exists k, moves_for_correct_cubie (list_of_pairs st) cubie = Ok (Some k)
               /\ 0 <= k <= 2)
  /\ (8 <= cubie < 20 ->
     exists k, moves_for_correct_cubie (list_of_pairs st) cubie = Ok (Some k)
               /\ 0 <= k <= 3)
  /\ (~ 0 <= cubie < 20 ->
     correct_position pairs cubie = Ok true
     /\ correct_orientation pairs cubie = Ok None
     /\ moves_for_correct_cubie pairs cubie = Ok None).
Proof.
  split; [|split].
  - intros Hc. eexists. split.
    + apply moves_for_correct_cubie_table. apply in_range_spec. lia.
    + pose proof (piece_cost_nonneg cubie (position_flag st cubie)
                    (orientation_flag st cubie)).
      pose proof (piece_cost_le cubie (position_flag st cubie)
                    (orientation_flag st cubie)) as Hle.
      unfold piece_cost_max in Hle.
      destruct (Z.ltb_spec cubie 8); lia.
  - intros Hc. eexists. split.
    + apply moves_for_correct_cubie_table. apply in_range_spec. lia.
    + pose proof (piece_cost_nonneg cubie (position_flag st cubie)
                    (orientation_flag st cubie)).
      pose proof (piece_cost_le cubie (position_flag st cubie)
                    (orientation_flag st cubie)) as Hle.
      unfold piece_cost_max in Hle.
      destruct (Z.ltb_spec cubie 8); lia.
  - intros Hc.
    assert (H20 : in_range 0 20 cubie = false).
    { destruct (in_range 0 20 cubie) eqn:E; [|reflexivity].
      apply in_range_spec in E. lia. }
    assert (H8 : in_range 0 8 cubie = false).
    { destruct (in_range 0 8 cubie) eqn:E; [|reflexivity].
      apply in_range_spec in E. lia. }
    assert (H820 : in_range 8 20 cubie = false).
    { destruct (in_range 8 20 cubie) eqn:E; [|reflexivity].
      apply in_range_spec in E. lia. }
    unfold moves_for_correct_cubie, correct_position, correct_orientation.
    rewrite H20, H8, H820. auto.
Qed.

Lemma moves_for_correct_cubie_range_witness :
  (exists k, moves_for_correct_cubie (list_of_pairs (uniform 7)) 3 = Ok (Some k)
             /\ 0 <= k <= 2)
  /\ (exists k, moves_for_correct_cubie (list_of_pairs (uniform 7)) 12
                = Ok (Some k) /\ 0 <= k <= 3)
  /\ (correct_position [(20, 0)] 20 = Ok true
      /\ correct_orientation [(20, 0)] 20 = Ok None
      /\ moves_for_correct_cubie [(20, 0)] 20 = Ok None).
Proof.
  split; [|split].
  - apply (moves_for_correct_cubie_range (uniform 7) [] 3). lia.
  - apply (moves_for_correct_cubie_range (uniform 7) [] 12). lia.
  - apply (moves_for_correct_cubie_range (uniform 7) [(20, 0)] 20). lia.
Defined.

Lemma stickers_of_cons_eq (cubie c : Z) (pairs : list (Z * Z)) :
  stickers_of cubie ((cubie, c) :: pairs) = c :: stickers_of cubie pairs.
Proof. unfold stickers_of. rewrite filter_cons_True; reflexivity. Qed.

Lemma stickers_of_cons_ne (cubie : Z) (p : Z * Z) (pairs : list (Z * Z)) :
  p.1 <> cubie -> stickers_of cubie (p :: pairs) = stickers_of cubie pairs.
Proof. intros H. unfold stickers_of. rewrite filter_cons_False; auto. Qed.

Lemma correct_position_loop_meaning (cubie : Z) (colors : list Z)
    (pairs : list (Z * Z)) (b0 : bool) :
  dict_cubies !! cubie = Some colors ->
  correct_position_loop cubie pairs b0
  = Ok (b0 && forallb (fun c => bool_decide (c ∈ colors))
                      (stickers_of cubie pairs)).
Proof.
  intros Hd. revert b0.
  induction pairs as [|[id c] pairs IH]; intros b0;
    cbn [correct_position_loop fst snd].
  - cbn. rewrite andb_true_r. reflexivity.
  - destruct (Z.eqb_spec id cubie) as [->|Hne].
    + rewrite stickers_of_cons_eq. cbn [forallb].
      unfold dict_get. rewrite Hd. cbn [res_bind].
      destruct (bool_decide (c ∈ colors)); cbn [negb andb]; rewrite IH.
      * reflexivity.
      * rewrite andb_false_r. reflexivity.
    + rewrite stickers_of_cons_ne by exact Hne. apply IH.
Qed.

Lemma correct_orientation_loop_meaning (cubie : Z) (colors : list Z)
    (pairs : list (Z * Z)) (i : nat) :
  dict_cubies !! cubie = Some colors ->
  correct_orientation_loop cubie pairs i
  = orientation_outcome (stickers_of cubie pairs) (drop i colors).
Proof.
  intros Hd. revert i.
  induction pairs as [|[id c] pairs IH]; intros i;
    cbn [correct_orientation_loop fst snd].
  - reflexivity.
  - destruct (Z.eqb_spec id cubie) as [->|Hne].
    + rewrite stickers_of_cons_eq.
      unfold dict_get_at, dict_get. rewrite Hd. cbn [res_bind].
      destruct (colors !! i) as [c0|] eqn:Hi.
      * cbn [res_bind].
        rewrite (drop_S _ _ _ Hi). unfold orientation_outcome.
        cbn [combine existsb fst snd length].
        destruct (c =? c0); cbn [orb]; [reflexivity|].
        rewrite IH. reflexivity.
      * cbn [res_bind].
        apply lookup_ge_None_1 in Hi. rewrite drop_ge by lia.
        unfold orientation_outcome. rewrite combine_nil. reflexivity.
    + rewrite stickers_of_cons_ne by exact Hne. apply IH.
Qed.

(** X6.  A piece counts as positioned exactly when every sticker that the state
    shows on it carries one of the colours listed for the piece. *)
Theorem correct_position_meaning (pairs : list (Z * Z)) (cubie : Z) :
  0 <= cubie < 20 ->
  exists colors : list Z,
    dict_cubies !! cubie = Some colors
    /\ correct_position pairs cubie
       = Ok (forallb (fun c => bool_decide (c ∈ colors))
                     (stickers_of cubie pairs)).
Proof.
  intros Hc.
  assert (Hr : in_range 0 20 cubie = true) by (apply in_range_spec; lia).
  destruct (tables_agree cubie Hr) as (colors & Hd & _).
  exists colors. split; [exact Hd|].
  unfold correct_position. rewrite Hr.
  apply (correct_position_loop_meaning cubie colors pairs true Hd).
Qed.

Lemma correct_position_meaning_witness :
  exists colors : list Z,
    dict_cubies !! 8 = Some colors
    /\ correct_position [(8, 4); (0, 1); (8, 2)] 8
       = Ok (forallb (fun c => bool_decide (c ∈ colors))
                     (stickers_of 8 [(8, 4); (0, 1); (8, 2)])).
Proof. apply (correct_position_meaning [(8, 4); (0, 1); (8, 2)] 8). lia. Defined.

(** X7.  A piece counts as oriented exactly when one of its stickers, taken in
    the order of [cube_map], shows the colour listed at the same place in
    [dict_cubies]; with no such sticker the answer is [False], unless the
    pairs hold more stickers of the piece than it has colours, and then the
    walking index raises [IndexError]. *)
Theorem correct_orientation_meaning (pairs : list (Z * Z)) (cubie : Z) :
  0 <= cubie < 20 ->
  exists colors : list Z,
    dict_cubies !! cubie = Some colors
    /\ correct_orientation pairs cubie
       = (let* b := orientation_outcome (stickers_of cubie pairs) colors in
          Ok (Some b)).
Proof.
  intros Hc.
  assert (Hr : in_range 0 20 cubie = true) by (apply in_range_spec; lia).
  destruct (tables_agree cubie Hr) as (colors & Hd & _).
  exists colors. split; [exact Hd|].
  unfold correct_orientation. rewrite Hr.
  rewrite (correct_orientation_loop_meaning cubie colors pairs 0 Hd).
  reflexivity.
Qed.

Lemma correct_orientation_meaning_witness :
  exists colors : list Z,
    dict_cubies !! 8 = Some colors
    /\ correct_orientation [(8, 1); (8, 1); (8, 1)] 8
       = (let* b := orientation_outcome
                      (stickers_of 8 [(8, 1); (8, 1); (8, 1)]) colors in
          Ok (Some b)).
Proof. apply (correct_orientation_meaning [(8, 1); (8, 1); (8, 1)] 8). lia. Defined.

Example correct_orientation_index_error :
  correct_orientation [(8, 1); (8, 1); (8, 1)] 8 = Raise IndexError.
Proof. vm_compute. reflexivity. Qed.

(** ** Relaxation and the queue, further *)

(** X8.  Relaxing twice through the same candidate is relaxing once. *)
Theorem update_parent_idempotent (store store' : list AStarNode)
    (self : ref) (c : option ref) :
  c <> Some self ->
  update_parent store self c = Ok store' ->
  update_parent store' self c = Ok store'.
Proof.
  intros Hc Hup.
  destruct (store !! self) as [n|] eqn:Hn.
  2:{ unfold update_parent, deref in Hup. rewrite Hn in Hup. discriminate. }
  destruct (update_parent_spec _ _ _ _ _ Hn Hup) as (g1 & f1 & Hcost & ->).
  destruct (Qltb f1 (f n)) eqn:Hlt; [|exact Hup].
  assert (Hlen : (self < length store)%nat) by (eapply lookup_lt_Some; eauto).
  unfold update_parent.
  assert (Hd : deref (<[self := set_costs g1 f1 (set_parent c n)]> store) self
               = Ok (set_costs g1 f1 (set_parent c n))).
  { apply deref_Ok. apply list_lookup_insert_eq. exact Hlen. }
  rewrite Hd. cbn [res_bind].
  assert (Hcost' : calculate_cost
                     (<[self := set_costs g1 f1 (set_parent c n)]> store)
                     (set_costs g1 f1 (set_parent c n)) c = Ok (g1, f1)).
  { revert Hcost. unfold calculate_cost. destruct c as [p|]; [|auto].
    unfold deref. rewrite list_lookup_insert_ne by congruence. auto. }
  rewrite Hcost'. cbn [res_bind fst snd f set_costs].
  rewrite (proj2 (Qltb_nlt _ _) (Qlt_irrefl _)). reflexivity.
Qed.

Lemma update_parent_idempotent_witness :
  update_parent
    (<[1%nat := set_costs 1 (3 # 2)%Q (set_parent (Some 0%nat)
                  (new_node (uniform 0) false None 5 (1 # 2)%Q None))]>
       two_nodes) 1 (Some 0%nat)
  = Ok (<[1%nat := set_costs 1 (3 # 2)%Q (set_parent (Some 0%nat)
                  (new_node (uniform 0) false None 5 (1 # 2)%Q None))]>
       two_nodes).
Proof.
  apply (update_parent_idempotent two_nodes _ 1 (Some 0%nat)).
  - discriminate.
  - vm_compute. reflexivity.
Defined.

(** *** The queue *)

Lemma min_loop_spec (store : list AStarNode) (l pre mid : list ref)
    (best : ref) (nb : AStarNode) :
  store !! best = Some nb ->
  Forall (fun r => is_Some (store !! r)) l ->
  (forall y ny, y ∈ pre -> store !! y = Some ny -> (f nb < f ny)%Q) ->
  (forall y ny, y ∈ mid -> store !! y = Some ny -> (f nb <= f ny)%Q) ->
  exists x nx l1 l2,
    min_loop store best (f nb) l = Ok x
    /\ store !! x = Some nx
    /\ pre ++ best :: mid ++ l = l1 ++ x :: l2
    /\ (forall y ny, y ∈ l1 -> store !! y = Some ny -> (f nx < f ny)%Q)
    /\ (forall y ny, y ∈ l2 -> store !! y = Some ny -> (f nx <= f ny)%Q).
Proof.
  revert pre mid best nb.
  induction l as [|e l IH]; intros pre mid best nb Hb Hl Hpre Hmid.
  - exists best, nb, pre, mid. cbn [min_loop]. rewrite app_nil_r. auto.
  - apply Forall_cons in Hl as [[ne He] Hl]. cbn [min_loop].
    apply deref_Ok in He as Hde. rewrite Hde. cbn [res_bind].
    destruct (Qltb (f ne) (f nb)) eqn:Hlt.
    + apply Qltb_lt in Hlt.
      destruct (IH (pre ++ best :: mid) [] e ne He Hl)
        as (x & nx & l1 & l2 & Hm & Hx & Hsplit & H1 & H2).
      * intros y ny Hy Hny. apply elem_of_app in Hy as [Hy|Hy].
        { eapply Qlt_trans; [exact Hlt|]. eapply Hpre; eauto. }
        apply elem_of_cons in Hy as [->|Hy].
        { replace ny with nb by congruence. exact Hlt. }
        eapply Qlt_le_trans; [exact Hlt|]. eapply Hmid; eauto.
      * intros y ny Hy. inversion Hy.
      * exists x, nx, l1, l2. split; [exact Hm|]. split; [exact Hx|].
        split; [|auto]. rewrite <- Hsplit.
        rewrite <- !app_assoc. reflexivity.
    + apply Qltb_nlt in Hlt. apply Qnot_lt_le in Hlt.
      destruct (IH pre (mid ++ [e]) best nb Hb Hl Hpre)
        as (x & nx & l1 & l2 & Hm & Hx & Hsplit & H1 & H2).
      * intros y ny Hy Hny. apply elem_of_app in Hy as [Hy|Hy].
        { eapply Hmid; eauto. }
        apply list_elem_of_singleton in Hy. subst y.
        replace ny with ne by congruence. exact Hlt.
      * exists x, nx, l1, l2. split; [exact Hm|]. split; [exact Hx|].
        split; [|auto]. rewrite <- Hsplit.
        rewrite <- !app_assoc. reflexivity.
Qed.

Lemma node_eqb_same_state (store : list AStarNode) (a b : ref) :
  is_Some (store !! a) -> is_Some (store !! b) ->
  node_eqb store a b = Ok (same_state store a b).
Proof.
  intros [na Ha] [nb Hb]. unfold node_eqb, same_state, state_of.
  case_bool_decide as Hab.
  - subst b. rewrite bool_decide_eq_true_2; reflexivity.
  - apply deref_Ok in Ha as Hda. apply deref_Ok in Hb as Hdb.
    rewrite Hda, Hdb. cbn [res_bind]. rewrite Ha, Hb. cbn.
    f_equal. apply bool_decide_ext. split; congruence.
Qed.

Lemma list_remove_spec (store : list AStarNode) (x : ref) (l : list ref) :
  is_Some (store !! x) ->
  Forall (fun r => is_Some (store !! r)) l ->
  x ∈ l ->
  exists l1 e l2,
    list_remove store x l = Ok (l1 ++ l2)
    /\ l = l1 ++ e :: l2
    /\ same_state store e x = true
    /\ Forall (fun y => same_state store y x = false) l1.
Proof.
  intros Hx Hl Hin. induction l as [|e l IH]; [inversion Hin|].
  apply Forall_cons in Hl as [He Hl]. cbn [list_remove].
  rewrite (node_eqb_same_state store e x He Hx). cbn [res_bind].
  destruct (same_state store e x) eqn:Hs.
  - exists [], e, l. auto.
  - apply elem_of_cons in Hin as [->|Hin].
    { unfold same_state in Hs. rewrite bool_decide_eq_true_2 in Hs;
        [discriminate|reflexivity]. }
    destruct (IH Hl Hin) as (l1 & e' & l2 & Hr & -> & Hs' & Hl1).
    exists (e :: l1), e', l2. rewrite Hr. cbn [res_bind]. auto.
Qed.

Lemma get_best_node_spec (sv : Solver) :
  Forall (fun r => is_Some (nodes sv !! r)) (Q sv) ->
  (Q sv = [] -> get_best_node sv = Ok (None, sv))
  /\ (Q sv <> [] ->
      exists x nx l1 l2 r1 e r2,
        get_best_node sv = Ok (Some x, set_Q (r1 ++ r2) sv)
        /\ nodes sv !! x = Some nx
        /\ Q sv = l1 ++ x :: l2
        /\ (forall y ny, y ∈ l1 -> nodes sv !! y = Some ny ->
                         (f nx < f ny)%Q)
        /\ (forall y ny, y ∈ l2 -> nodes sv !! y = Some ny ->
                         (f nx <= f ny)%Q)
        /\ Q sv = r1 ++ e :: r2
        /\ same_state (nodes sv) e x = true
        /\ Forall (fun y => same_state (nodes sv) y x = false) r1).
Proof.
  intros Hval. split.
  - intros HQ. unfold get_best_node. rewrite HQ. reflexivity.
  - intros HQ. unfold get_best_node.
    destruct (Q sv) as [|b q] eqn:E; [congruence|]. clear HQ.
    apply Forall_cons in Hval as Hval'. destruct Hval' as [[nb Hb] Hq].
    destruct (min_loop_spec (nodes sv) q [] [] b nb Hb Hq)
      as (x & nx & l1 & l2 & Hm & Hx & Hsplit & H1 & H2).
    { intros y ny Hy. inversion Hy. }
    { intros y ny Hy. inversion Hy. }
    cbn [app] in Hsplit.
    assert (Hin : x ∈ b :: q).
    { rewrite Hsplit. apply elem_of_app. right. apply elem_of_cons. auto. }
    destruct (list_remove_spec (nodes sv) x (b :: q)) as
      (r1 & e & r2 & Hr & Hsplit' & Hs & Hr1); [eauto|exact Hval|exact Hin|].
    exists x, nx, l1, l2, r1, e, r2.
    unfold min_by_f. apply deref_Ok in Hb as Hdb. rewrite Hdb.
    cbn [res_bind]. rewrite Hm. cbn [res_bind]. rewrite Hr. cbn [res_bind].
    auto 10.
Qed.

Lemma same_state_refs (store : list AStarNode) (l : list ref) (a b : ref) :
  NoDup (state_of store <$> l) ->
  a ∈ l -> b ∈ l -> same_state store a b = true -> a = b.
Proof.
  intros Hnd Ha Hb Hs. apply bool_decide_eq_true in Hs.
  apply list_elem_of_lookup in Ha as [i Hi].
  apply list_elem_of_lookup in Hb as [j Hj].
  assert (i = j).
  { eapply NoDup_lookup; [exact Hnd| |].
    - rewrite list_lookup_fmap, Hi. reflexivity.
    - rewrite list_lookup_fmap, Hj. cbn. f_equal. auto. }
  subst j. congruence.
Qed.

(** X9.  [get_best_node] on an empty queue answers [None] and changes nothing;
    otherwise it answers the first node of least [f] in the queue and
    takes one item out of the queue, the first one that compares equal to
    that node. *)
Theorem get_best_node_pops_minimum (sv : Solver) :
  Forall (fun r => is_Some (nodes sv !! r)) (Q sv) ->
  (Q sv = [] -> get_best_node sv = Ok (None, sv))
  /\ (Q sv <> [] ->
      exists x nx l1 l2 r1 e r2,
        get_best_node sv = Ok (Some x, set_Q (r1 ++ r2) sv)
        /\ nodes sv !! x = Some nx
        /\ Q sv = l1 ++ x :: l2
        /\ (forall y ny, y ∈ l1 -> nodes sv !! y = Some ny ->
                         (f nx < f ny)%Q)
        /\ (forall y ny, y ∈ l2 -> nodes sv !! y = Some ny ->
                         (f nx <= f ny)%Q)
        /\ Q sv = r1 ++ e :: r2
        /\ same_state (nodes sv) e x = true
        /\ Forall (fun y => same_state (nodes sv) y x = false) r1).
Proof. apply get_best_node_spec. Qed.

Lemma get_best_node_pops_minimum_witness :
  (Q (mkSolver two_nodes solved_state [1%nat; 0%nat] [] 5) = [] ->
   get_best_node (mkSolver two_nodes solved_state [1%nat; 0%nat] [] 5)
   = Ok (None, mkSolver two_nodes solved_state [1%nat; 0%nat] [] 5))
  /\ (Q (mkSolver two_nodes solved_state [1%nat; 0%nat] [] 5) <> [] ->
      exists x nx l1 l2 r1 e r2,
        get_best_node (mkSolver two_nodes solved_state [1%nat; 0%nat] [] 5)
        = Ok (Some x,
              set_Q (r1 ++ r2)
                    (mkSolver two_nodes solved_state [1%nat; 0%nat] [] 5))
        /\ two_nodes !! x = Some nx
        /\ [1%nat; 0%nat] = l1 ++ x :: l2
        /\ (forall y ny, y ∈ l1 -> two_nodes !! y = Some ny ->
                         (f nx < f ny)%Q)
        /\ (forall y ny, y ∈ l2 -> two_nodes !! y = Some ny ->
                         (f nx <= f ny)%Q)
        /\ [1%nat; 0%nat] = r1 ++ e :: r2
        /\ same_state two_nodes e x = true
        /\ Forall (fun y => same_state two_nodes y x = false) r1).
Proof.
  apply (get_best_node_pops_minimum
           (mkSolver two_nodes solved_state [1%nat; 0%nat] [] 5)).
  repeat constructor; vm_compute; eauto.
Defined.

(** X10.  When the queued nodes have pairwise different states, the node that
    [get_best_node] answers is the one it takes out of the queue, and it
    is in the queue no more. *)
Theorem get_best_node_removes_popped (sv sv1 : Solver) (x : ref) :
  Forall (fun r => is_Some (nodes sv !! r)) (Q sv) ->
  NoDup (state_of (nodes sv) <$> Q sv) ->
  get_best_node sv = Ok (Some x, sv1) ->
  exists l1 l2,
    Q sv = l1 ++ x :: l2 /\ Q sv1 = l1 ++ l2 /\ x ∉ Q sv1.
Proof.
  intros Hval Hnd Hg.
  destruct (get_best_node_spec sv Hval) as [Hempty Hpop].
  destruct (Q sv) as [|b q] eqn:E.
  { rewrite Hempty in Hg by reflexivity. discriminate. }
  destruct Hpop as (x' & nx & l1 & l2 & r1 & e & r2 & Hg' & Hx & Hs1 & _ & _
                    & Hs2 & Hsame & Hr1); [discriminate|].
  rewrite Hg' in Hg. injection Hg as -> <-.
  assert (e = x).
  { apply (same_state_refs (nodes sv) (b :: q)); auto.
    - rewrite Hs2. apply elem_of_app. right. apply elem_of_cons. auto.
    - rewrite Hs1. apply elem_of_app. right. apply elem_of_cons. auto. }
  subst e. exists r1, r2. split; [exact Hs2|]. split; [reflexivity|].
  cbn [Q set_Q]. intros Hin.
  assert (Hnd' : NoDup (b :: q)).
  { eapply NoDup_fmap_1. exact Hnd. }
  rewrite Hs2 in Hnd'. apply NoDup_app in Hnd' as (_ & Hdisj & Hnd2).
  apply NoDup_cons in Hnd2 as [Hx2 _].
  apply elem_of_app in Hin as [Hin|Hin].
  - apply (Hdisj x Hin). apply elem_of_cons. auto.
  - exact (Hx2 Hin).
Qed.

Lemma get_best_node_removes_popped_witness :
  exists l1 l2,
    Q (mkSolver two_nodes solved_state [1%nat; 0%nat] [] 5) = l1 ++ 0%nat :: l2
    /\ Q (mkSolver two_nodes solved_state [1%nat] [] 5) = l1 ++ l2
    /\ 0%nat ∉ Q (mkSolver two_nodes solved_state [1%nat] [] 5).
Proof.
  apply (get_best_node_removes_popped
           (mkSolver two_nodes solved_state [1%nat; 0%nat] [] 5)).
  - repeat constructor; vm_compute; eauto.
  - refine (bool_decide_eq_true_1 _ _). vm_compute. reflexivity.
  - vm_compute. reflexivity.
Defined.

(** Without that, the node answered may stay in the queue while another
    node of the same state leaves it. *)
Example get_best_node_removes_another :
  get_best_node
    (mkSolver [new_node (uniform 0) false None 5 0%Q None;
               new_node (uniform 0) false None 3 0%Q None]
              solved_state [0%nat; 1%nat] [] 5)
  = Ok (Some 1%nat,
        mkSolver [new_node (uniform 0) false None 5 0%Q None;
                  new_node (uniform 0) false None 3 0%Q None]
                 solved_state [1%nat] [] 5).
Proof. vm_compute. reflexivity. Qed.

Lemma list_contains_spec (store : list AStarNode) (u : ref) (l : list ref) :
  is_Some (store !! u) ->
  Forall (fun r => is_Some (store !! r)) l ->
  list_contains store u l = Ok (existsb (fun e => same_state store e u) l).
Proof.
  intros Hu Hl. induction l as [|e l IH]; [reflexivity|].
  apply Forall_cons in Hl as [He Hl]. cbn [list_contains existsb].
  rewrite (node_eqb_same_state store e u He Hu). cbn [res_bind].
  destruct (same_state store e u); [reflexivity|]. apply IH. exact Hl.
Qed.

(** X11.  [is_visited] looks for the state, not for the object: it answers
    [True] exactly when the visited index holds a node whose state is the
    state of the node asked for. *)
Theorem is_visited_by_state (sv : Solver) (u : ref) :
  is_Some (nodes sv !! u) ->
  Forall (fun r => is_Some (nodes sv !! r)) (visited_nodes sv) ->
  exists b : bool,
    is_visited sv u = Ok b
    /\ (b = true
        <-> exists e, e ∈ visited_nodes sv
                      /\ state_of (nodes sv) e = state_of (nodes sv) u).
Proof.
  intros Hu Hv. eexists. split.
  - apply list_contains_spec; assumption.
  - rewrite existsb_exists. split.
    + intros (e & He & Hs). exists e. split.
      * apply list_elem_of_In. exact He.
      * apply bool_decide_eq_true in Hs. exact Hs.
    + intros (e & He & Hs). exists e. split.
      * apply list_elem_of_In. exact He.
      * apply bool_decide_eq_true. exact Hs.
Qed.

Lemma is_visited_by_state_witness :
  exists b : bool,
    is_visited (mkSolver two_nodes solved_state [] [0%nat] 5) 1 = Ok b
    /\ (b = true
        <-> exists e, e ∈ [0%nat]
                      /\ state_of two_nodes e = state_of two_nodes 1).
Proof.
  apply (is_visited_by_state (mkSolver two_nodes solved_state [] [0%nat] 5) 1).
  - vm_compute. eauto.
  - repeat constructor. vm_compute. eauto.
Defined.

(** ** One pass of the search *)

Section MoreSearchFacts.

Variable rotate_90 : axis -> Z -> Z -> State -> State.

Lemma heuristic_Ok_divisor (st : State) (d : Z) (q : rational) :
  heuristic st d = Ok q -> d <> 0.
Proof.
  intros H ->. rewrite heuristic_zero_divisor_any in H. discriminate.
Qed.

Lemma get_next_states_loop_exact (moves : list move) (par : ref)
    (np : AStarNode) (sv : Solver) (acc : list ref) :
  nodes sv !! par = Some np ->
  divisor sv <> 0 ->
  get_next_states_loop rotate_90 moves par sv acc
  = Ok (acc ++ seq (length (nodes sv)) (length moves),
        set_nodes (nodes sv
                   ++ map (successor_node rotate_90 par np (cube sv)
                                          (divisor sv)) moves) sv).
Proof.
  revert sv acc. induction moves as [|m moves IH]; intros sv acc Hp Hd.
  - cbn [get_next_states_loop length seq map]. rewrite !app_nil_r.
    destruct sv; reflexivity.
  - cbn [get_next_states_loop].
    apply deref_Ok in Hp as Hdp. rewrite Hdp. cbn [res_bind].
    rewrite (heuristic_table _ _ Hd). cbn [res_bind].
    unfold alloc. cbn [fst snd].
    rewrite IH.
    2:{ cbn [nodes set_nodes]. apply lookup_app_l_Some. exact Hp. }
    2:{ exact Hd. }
    cbn [nodes cube divisor set_nodes map length seq].
    rewrite length_app. cbn [length]. rewrite Nat.add_1_r.
    rewrite <- !app_assoc. reflexivity.
Qed.

Lemma min_loop_in (store : list AStarNode) (best x : ref) (k : rational)
    (l : list ref) :
  min_loop store best k l = Ok x -> x ∈ best :: l.
Proof.
  revert best k. induction l as [|e l IH]; intros best k H;
    cbn [min_loop] in H.
  - injection H as ->. apply elem_of_cons. auto.
  - destruct (deref store e) as [ne| |]; cbn [res_bind] in H;
      try discriminate.
    destruct (Qltb (f ne) k); apply IH in H;
      apply elem_of_cons in H as [->|H]; set_solver.
Qed.

Lemma list_remove_sublist (store : list AStarNode) (x : ref)
    (l l' : list ref) :
  list_remove store x l = Ok l' -> sublist l' l.
Proof.
  revert l'. induction l as [|e l IH]; intros l' H; cbn [list_remove] in H;
    [discriminate|].
  destruct (node_eqb store e x) as [b| |]; cbn [res_bind] in H;
    try discriminate.
  destruct b.
  - injection H as <-. apply sublist_cons. reflexivity.
  - destruct (list_remove store x l) as [r| |]; cbn [res_bind] in H;
      try discriminate.
    injection H as <-. apply sublist_skip. apply IH. reflexivity.
Qed.

Lemma get_best_node_in (sv sv1 : Solver) (x : ref) :
  get_best_node sv = Ok (Some x, sv1) ->
  x ∈ Q sv /\ sublist (Q sv1) (Q sv) /\ sv1 = set_Q (Q sv1) sv.
Proof.
  unfold get_best_node. destruct (Q sv) as [|b q] eqn:E; [discriminate|].
  intros H. unfold min_by_f in H.
  destruct (deref (nodes sv) b) as [nb| |]; cbn [res_bind] in H;
    try discriminate.
  destruct (min_loop (nodes sv) b (f nb) q) as [y| |] eqn:Hm;
    cbn [res_bind] in H; try discriminate.
  destruct (list_remove (nodes sv) y (b :: q)) as [r| |] eqn:Hr;
    cbn [res_bind] in H; try discriminate.
  injection H as <- <-. split; [eapply min_loop_in; eauto|].
  split; [eapply list_remove_sublist; eauto|]. reflexivity.
Qed.

(** The successor loop on successors fresh from [get_next_states]: the
    call of [update_parent] changes nothing, so the store stays as it is;
    some of the successors join the queue and the visited index. *)
Lemma successors_loop_fresh (U : list ref) (x : ref) (nx : AStarNode)
    (sv sv' : Solver) :
  nodes sv !! x = Some nx ->
  Forall (fun u => exists st h0 m,
            nodes sv !! u
            = Some (new_node st false (Some x) (g nx + 1) h0 (Some [m]))) U ->
  successors_loop U x sv = Ok sv' ->
  exists added : list ref,
    sublist added U
    /\ Forall (fun u => forall e ne nu,
                 e ∈ visited_nodes sv -> nodes sv !! e = Some ne ->
                 nodes sv !! u = Some nu -> state ne <> state nu) added
    /\ sv' = mkSolver (nodes sv) (cube sv) (Q sv ++ added)
                      (visited_nodes sv ++ added) (divisor sv).
Proof.
  intros Hx. revert sv Hx. induction U as [|u U IH]; intros sv Hx HU H;
    cbn [successors_loop] in H.
  - injection H as <-. exists []. split; [constructor|].
    split; [constructor|].
    rewrite !app_nil_r. destruct sv; reflexivity.
  - apply Forall_cons in HU as [(st & h0 & m & Hu) HU].
    destruct (is_visited sv u) as [seen| |] eqn:Hseen; cbn [res_bind] in H;
      try discriminate.
    destruct seen; cbn [negb] in H.
    + rewrite (update_parent_fresh_successor _ _ _ _ _ _ _ Hx Hu) in H.
      cbn [res_bind] in H.
      replace (set_nodes (nodes sv) sv) with sv in H by (destruct sv; auto).
      destruct (IH sv Hx HU H) as (added & Hsub & Hnew & ->).
      exists added. split; [apply sublist_cons; exact Hsub|].
      split; [exact Hnew|reflexivity].
    + apply IH in H; [|exact Hx|exact HU].
      destruct H as (added & Hsub & Hnew & ->).
      exists (u :: added). split; [apply sublist_skip; exact Hsub|].
      cbn [nodes cube Q visited_nodes divisor set_Q set_visited_nodes]
        in *.
      split; [|rewrite <- !app_assoc; reflexivity].
      apply Forall_cons. split.
      * intros e ne nu He Hne Hnu.
        exact (list_contains_false _ _ _ Hseen e He ne nu Hne Hnu).
      * eapply Forall_impl; [exact Hnew|]. intros v Hv e ne nu He.
        apply Hv. apply elem_of_app. left. exact He.
Qed.

Lemma node_eqb_Ok (store : list AStarNode) (a b : ref) (r : bool) :
  node_eqb store a b = Ok r -> r = same_state store a b.
Proof.
  unfold node_eqb, same_state, state_of. case_bool_decide as Hab.
  - intros [= <-]. subst b. rewrite bool_decide_eq_true_2; reflexivity.
  - destruct (deref store a) as [na| |] eqn:Ha; cbn [res_bind];
      try discriminate.
    destruct (deref store b) as [nb| |] eqn:Hb; cbn [res_bind];
      try discriminate.
    intros [= <-]. apply deref_Ok in Ha, Hb. rewrite Ha, Hb. cbn.
    apply bool_decide_ext. split; congruence.
Qed.

Lemma list_contains_Ok (store : list AStarNode) (u : ref) (l : list ref)
    (b : bool) :
  list_contains store u l = Ok b ->
  b = existsb (fun e => same_state store e u) l.
Proof.
  induction l as [|e l IH]; cbn [list_contains existsb].
  - intros [= <-]. reflexivity.
  - destruct (node_eqb store e u) as [r| |] eqn:Hr; cbn [res_bind];
      try discriminate.
    apply node_eqb_Ok in Hr. rewrite <- Hr.
    destruct r; [intros [= <-]; reflexivity|]. exact IH.
Qed.

(** The successors that join the queue and the visited index are those
    that [unseen] keeps. *)
Lemma successors_loop_unseen (U : list ref) (x : ref) (nx : AStarNode)
    (sv sv' : Solver) :
  nodes sv !! x = Some nx ->
  Forall (fun u => exists st h0 m,
            nodes sv !! u
            = Some (new_node st false (Some x) (g nx + 1) h0 (Some [m]))) U ->
  successors_loop U x sv = Ok sv' ->
  sv' = mkSolver (nodes sv) (cube sv)
                 (Q sv ++ unseen (nodes sv) (visited_nodes sv) U)
                 (visited_nodes sv ++ unseen (nodes sv) (visited_nodes sv) U)
                 (divisor sv).
Proof.
  intros Hx. revert sv Hx. induction U as [|u U IH]; intros sv Hx HU H;
    cbn [successors_loop unseen] in *.
  - injection H as <-. rewrite !app_nil_r. destruct sv; reflexivity.
  - apply Forall_cons in HU as [(st & h0 & m & Hu) HU].
    destruct (is_visited sv u) as [seen| |] eqn:Hseen; cbn [res_bind] in H;
      try discriminate.
    unfold is_visited in Hseen. apply list_contains_Ok in Hseen.
    rewrite <- Hseen. destruct seen; cbn [negb] in H.
    + rewrite (update_parent_fresh_successor _ _ _ _ _ _ _ Hx Hu) in H.
      cbn [res_bind] in H.
      replace (set_nodes (nodes sv) sv) with sv in H by (destruct sv; auto).
      exact (IH sv Hx HU H).
    + apply IH in H; [|exact Hx|exact HU]. rewrite H.
      cbn [nodes cube Q visited_nodes divisor set_Q set_visited_nodes].
      rewrite <- !app_assoc. reflexivity.
Qed.

(** With every reference valid the successor loop raises nothing. *)
Lemma successors_loop_total (U : list ref) (x : ref) (nx : AStarNode)
    (sv : Solver) :
  nodes sv !! x = Some nx ->
  Forall (fun u => exists st h0 m,
            nodes sv !! u
            = Some (new_node st false (Some x) (g nx + 1) h0 (Some [m]))) U ->
  visited_valid sv ->
  exists sv', successors_loop U x sv = Ok sv'.
Proof.
  intros Hx. revert sv Hx. induction U as [|u U IH]; intros sv Hx HU Hv;
    cbn [successors_loop].
  - eauto.
  - apply Forall_cons in HU as [(st & h0 & m & Hu) HU].
    unfold is_visited.
    rewrite (list_contains_spec (nodes sv) u (visited_nodes sv));
      [|eauto|exact Hv].
    cbn [res_bind].
    destruct (existsb _ _); cbn [negb].
    + rewrite (update_parent_fresh_successor _ _ _ _ _ _ _ Hx Hu).
      cbn [res_bind].
      replace (set_nodes (nodes sv) sv) with sv by (destruct sv; auto).
      apply IH; assumption.
    + apply IH; [exact Hx|exact HU|].
      unfold visited_valid.
      cbn [nodes visited_nodes set_Q set_visited_nodes].
      apply Forall_app. split; [exact Hv|]. apply Forall_singleton. eauto.
Qed.

Lemma successors_are_fresh (par : ref) (np : AStarNode) (st : State)
    (d : Z) (store : list AStarNode) (moves : list move) :
  Forall (fun u => exists st' h0 m,
            (store ++ map (successor_node rotate_90 par np st d) moves) !! u
            = Some (new_node st' false (Some par) (g np + 1) h0 (Some [m])))
         (seq (length store) (length moves)).
Proof.
  apply Forall_forall. intros u Hu. apply elem_of_seq in Hu.
  destruct (lookup_lt_is_Some_2 moves (u - length store)) as [m Hm]; [lia|].
  exists (rotate_90 m.1.1 m.1.2 m.2 st),
         (heuristic_of (rotate_90 m.1.1 m.1.2 m.2 st) d), m.
  rewrite lookup_app_r by lia. rewrite list_lookup_fmap, Hm. reflexivity.
Qed.

(** The two ways through the loop body. *)
Lemma loop_body_cases (fuel : nat) (final : ref) (rots rots' : list ref)
    (sv sv' : Solver) (e : bool) :
  divisor sv <> 0 ->
  loop_body rotate_90 fuel final rots sv = Ok (e, rots', sv') ->
  exists x sv1 nx nf,
    get_best_node sv = Ok (Some x, sv1)
    /\ nodes sv !! x = Some nx
    /\ nodes sv !! final = Some nf
    /\ ((e = true /\ state nx = state nf
         /\ walk_back fuel (nodes sv) x (parent nx) rots = Ok rots'
         /\ sv' = set_State (state nx) sv1)
        \/ (e = false /\ state nx <> state nf /\ rots' = rots
            /\ exists added,
                 sublist added (seq (length (nodes sv)) (length all_moves))
                 /\ Forall (fun u => forall e ne nu,
                       e ∈ visited_nodes sv -> nodes sv !! e = Some ne ->
                       (nodes sv
                        ++ map (successor_node rotate_90 x nx (state nx)
                                               (divisor sv)) all_moves) !! u
                       = Some nu ->
                       state ne <> state nu) added
                 /\ sv' = mkSolver
                            (nodes sv
                             ++ map (successor_node rotate_90 x nx (state nx)
                                                    (divisor sv)) all_moves)
                            (state nx) (Q sv1 ++ added)
                            (visited_nodes sv ++ added) (divisor sv))).
Proof.
  intros Hd H. unfold loop_body in H.
  destruct (get_best_node sv) as [[ox sv1]| |] eqn:Hg;
    cbn [res_bind fst snd] in H; try discriminate.
  destruct ox as [x|]; [|discriminate].
  destruct (get_best_node_frame _ _ _ Hg) as (Hn & Hc & Hv & Hdv).
  destruct (deref (nodes sv1) x) as [nx| |] eqn:Hx; cbn [res_bind] in H;
    try discriminate.
  cbn [nodes set_State] in H.
  destruct (deref (nodes sv1) final) as [nf| |] eqn:Hf; cbn [res_bind] in H;
    try discriminate.
  apply deref_Ok in Hx, Hf. rewrite Hn in Hx, Hf.
  exists x, sv1, nx, nf. split; [reflexivity|]. split; [exact Hx|].
  split; [exact Hf|].
  case_bool_decide as Hs.
  - left. rewrite Hn in H.
    destruct (walk_back fuel (nodes sv) x (parent nx) rots) as [r| |] eqn:Hw;
      cbn [res_bind] in H; try discriminate.
    injection H as <- <- <-. auto.
  - right. unfold get_next_states in H.
    rewrite (get_next_states_loop_exact all_moves x nx) in H.
    2:{ cbn [nodes set_State]. rewrite Hn. exact Hx. }
    2:{ cbn [divisor set_State]. rewrite Hdv. exact Hd. }
    cbn [res_bind fst snd app] in H.
    cbn [nodes cube divisor set_State set_nodes] in H.
    destruct (successors_loop _ _ _) as [s2| |] eqn:Hsucc in H;
      cbn [res_bind] in H; try discriminate.
    injection H as <- <- <-.
    apply (successors_loop_fresh _ x nx) in Hsucc.
    + destruct Hsucc as (added & Hsub & Hnew & ->).
      cbn [nodes cube Q visited_nodes divisor set_nodes set_State] in *.
      rewrite Hn, Hv, Hdv in *.
      split; [reflexivity|]. split; [exact Hs|]. split; [reflexivity|].
      exists added. split; [exact Hsub|]. split; [|reflexivity].
      eapply Forall_impl; [exact Hnew|]. intros v Hv' e ne nu He Hne Hnu.
      eapply Hv'; [exact He| |exact Hnu].
      apply lookup_app_l_Some. exact Hne.
    + cbn [nodes set_nodes set_State]. rewrite Hn.
      apply lookup_app_l_Some. exact Hx.
    + cbn [nodes set_nodes set_State]. rewrite Hn.
      apply successors_are_fresh.
Qed.

(** The visited index after a pass that expands a node. *)
Lemma loop_body_unseen (fuel : nat) (final : ref) (rots rots' : list ref)
    (sv sv' : Solver) :
  divisor sv <> 0 ->
  loop_body rotate_90 fuel final rots sv = Ok (false, rots', sv') ->
  visited_nodes sv'
  = visited_nodes sv
    ++ unseen (nodes sv') (visited_nodes sv)
              (seq (length (nodes sv)) (length all_moves)).
Proof.
  intros Hd H. unfold loop_body in H.
  destruct (get_best_node sv) as [[ox sv1]| |] eqn:Hg;
    cbn [res_bind fst snd] in H; try discriminate.
  destruct ox as [x|]; [|discriminate].
  destruct (get_best_node_frame _ _ _ Hg) as (Hn & Hc & Hv & Hdv).
  destruct (deref (nodes sv1) x) as [nx| |] eqn:Hx; cbn [res_bind] in H;
    try discriminate.
  cbn [nodes set_State] in H.
  destruct (deref (nodes sv1) final) as [nf| |] eqn:Hf; cbn [res_bind] in H;
    try discriminate.
  apply deref_Ok in Hx, Hf. rewrite Hn in Hx, Hf.
  case_bool_decide as Hs.
  - destruct (walk_back fuel (nodes sv1) x (parent nx) rots) as [r| |];
      cbn [res_bind] in H; discriminate.
  - unfold get_next_states in H.
    rewrite (get_next_states_loop_exact all_moves x nx) in H.
    2:{ cbn [nodes set_State]. rewrite Hn. exact Hx. }
    2:{ cbn [divisor set_State]. rewrite Hdv. exact Hd. }
    cbn [res_bind fst snd app] in H.
    cbn [nodes cube divisor set_State set_nodes] in H.
    destruct (successors_loop _ _ _) as [s2| |] eqn:Hsucc in H;
      cbn [res_bind] in H; try discriminate.
    injection H as <- <-.
    apply (successors_loop_unseen _ x nx) in Hsucc.
    + rewrite Hsucc.
      cbn [nodes cube Q visited_nodes divisor set_nodes set_State].
      rewrite Hn, Hv. reflexivity.
    + cbn [nodes set_nodes set_State]. rewrite Hn.
      apply lookup_app_l_Some. exact Hx.
    + cbn [nodes set_nodes set_State]. rewrite Hn.
      apply successors_are_fresh.
Qed.

End MoreSearchFacts.

(** ** The search tree *)

Section TreeFacts.

Variable rotate_90 : axis -> Z -> Z -> State -> State.

Lemma solve_init_total (sv : Solver) :
  divisor sv <> 0 ->
  exists sv0, solve_init sv = Ok (S (length (nodes sv)), sv0).
Proof.
  intros Hd. unfold solve_init. rewrite (heuristic_table _ _ Hd).
  cbn [res_bind]. unfold alloc. cbn [fst snd nodes set_nodes set_Q
    set_visited_nodes]. rewrite length_app, Nat.add_1_r. eauto.
Qed.

Lemma solve_init_inv (sv sv0 : Solver) (final : ref) :
  Q sv = [] ->
  solve_init sv = Ok (final, sv0) ->
  final = S (length (nodes sv))
  /\ search_inv rotate_90 (length (nodes sv)) (cube sv) sv0
  /\ Q sv0 = [length (nodes sv)]
  /\ visited_nodes sv0 = visited_nodes sv ++ [length (nodes sv)]
  /\ length (nodes sv0) = S (S (length (nodes sv))).
Proof.
  intros HQ Hi.
  destruct (solve_init_spec _ _ _ Hi)
    as (h0 & Hh & -> & Hn & Hc & HQ0 & Hv & Hd).
  rewrite HQ in HQ0. cbn [app] in HQ0.
  assert (Hlen : length (nodes sv0) = S (S (length (nodes sv)))).
  { rewrite Hn, length_app. cbn [length]. lia. }
  split; [reflexivity|]. split; [|auto].
  unfold search_inv. split.
  { rewrite Hd. eapply heuristic_Ok_divisor. exact Hh. }
  split.
  { eexists. rewrite Hn. split.
    - rewrite lookup_app_r by lia. rewrite Nat.sub_diag. reflexivity.
    - auto. }
  split.
  { eexists. rewrite Hn. split.
    - rewrite lookup_app_r by lia.
      replace (S (length (nodes sv)) - length (nodes sv))%nat with 1%nat
        by lia.
      reflexivity.
    - reflexivity. }
  split.
  { intros i n Hi' Hl. apply lookup_lt_Some in Hl. lia. }
  rewrite HQ0. apply Forall_singleton. lia.
Qed.

Lemma tree_link_app (r0 : ref) (store new : list AStarNode) (i : ref)
    (n : AStarNode) :
  tree_link rotate_90 r0 store i n ->
  tree_link rotate_90 r0 (store ++ new) i n.
Proof.
  intros (p & np & m & H1 & H2 & H3 & H4 & H5).
  exists p, np, m. split; [exact H1|]. split; [exact H2|].
  split; [exact H3|]. split; [|exact H5].
  apply lookup_app_l_Some. exact H4.
Qed.

(** Each pass through the loop body keeps the shape of the store. *)
Lemma loop_body_inv (fuel : nat) (r0 : ref) (st0 : State)
    (rots rots' : list ref) (s s' : Solver) (e : bool) :
  search_inv rotate_90 r0 st0 s ->
  loop_body rotate_90 fuel (S r0) rots s = Ok (e, rots', s') ->
  search_inv rotate_90 r0 st0 s'.
Proof.
  intros (Hd & Hroot & Hfin & Htree & HQ) Hb.
  destruct (loop_body_cases rotate_90 _ _ _ _ _ _ _ Hd Hb)
    as (x & sv1 & nx & nf & Hg & Hx & Hf & Hcase).
  destruct (get_best_node_in _ _ _ Hg) as (Hin & Hsub & Hsv1).
  rewrite Forall_forall in HQ.
  destruct Hcase as [(-> & Hs & Hw & ->)
                    |(-> & Hs & -> & added & Hadd & _ & ->)].
  - rewrite Hsv1. unfold search_inv.
    cbn [nodes Q divisor set_State set_Q].
    split; [exact Hd|]. split; [exact Hroot|]. split; [exact Hfin|].
    split; [exact Htree|].
    apply Forall_forall. intros q Hq. apply HQ.
    eapply elem_of_sublist; eauto.
  - unfold search_inv. cbn [nodes Q divisor].
    destruct Hroot as (root & Hr & Hroot).
    destruct Hfin as (fin & Hfi & Hfin).
    assert (Hlen : (S r0 < length (nodes s))%nat)
      by (eapply lookup_lt_Some; eauto).
    split; [exact Hd|].
    split; [exists root; split; [apply lookup_app_l_Some; exact Hr|auto]|].
    split; [exists fin; split; [apply lookup_app_l_Some; exact Hfi|auto]|].
    split.
    + intros i n Hi Hl.
      destruct (decide (i < length (nodes s))%nat) as [Hlt|Hge].
      * rewrite lookup_app_l in Hl by exact Hlt.
        apply tree_link_app. apply Htree; assumption.
      * rewrite lookup_app_r in Hl by lia.
        rewrite list_lookup_fmap in Hl.
        destruct (all_moves !! (i - length (nodes s))%nat) as [m|] eqn:Hm;
          [|discriminate].
        injection Hl as <-.
        destruct (HQ x Hin) as [Hxr Hxf].
        exists x, nx, m. cbn [parent state rotation g successor_node new_node].
        split; [reflexivity|]. split; [lia|]. split; [exact Hxf|].
        split; [apply lookup_app_l_Some; exact Hx|].
        split; [reflexivity|]. split; [reflexivity|].
        split; [|reflexivity].
        eapply list_elem_of_lookup_2. exact Hm.
    + apply Forall_app. split.
      * apply Forall_forall. intros q Hq.
        destruct (HQ q) as [Hq1 Hq2].
        { eapply elem_of_sublist; eauto. }
        rewrite length_app. split; [lia|exact Hq2].
      * apply Forall_forall. intros q Hq.
        eapply elem_of_sublist in Hq; [|exact Hadd].
        apply elem_of_seq in Hq. rewrite length_app, length_map. lia.
Qed.

Lemma apply_moves_app (a b : list move) (st : State) :
  apply_moves rotate_90 (a ++ b) st
  = apply_moves rotate_90 b (apply_moves rotate_90 a st).
Proof. unfold apply_moves. apply fold_left_app. Qed.

Lemma path_moves_app (store : list AStarNode) (a b : list ref)
    (ma mb : list move) :
  path_moves store a = Ok ma ->
  path_moves store b = Ok mb ->
  path_moves store (a ++ b) = Ok (ma ++ mb).
Proof.
  revert ma. induction a as [|r a IH]; intros ma Ha Hb.
  - injection Ha as <-. exact Hb.
  - cbn [path_moves app] in *.
    destruct (deref store r) as [n| |]; cbn [res_bind] in *;
      try discriminate.
    destruct (rotation n) as [[|m ?]|]; try discriminate.
    destruct (path_moves store a) as [ms| |]; cbn [res_bind] in *;
      try discriminate.
    injection Ha as <-. rewrite (IH ms eq_refl Hb). reflexivity.
Qed.

Lemma path_moves_length (store : list AStarNode) (rots : list ref)
    (ms : list move) :
  path_moves store rots = Ok ms -> length ms = length rots.
Proof.
  revert ms. induction rots as [|r rots IH]; intros ms H;
    cbn [path_moves] in H.
  - injection H as <-. reflexivity.
  - destruct (deref store r) as [n| |]; cbn [res_bind] in H;
      try discriminate.
    destruct (rotation n) as [[|m ?]|]; try discriminate.
    destruct (path_moves store rots) as [ms'| |]; cbn [res_bind] in H;
      try discriminate.
    injection H as <-. cbn [length]. f_equal. apply IH. reflexivity.
Qed.

(** The walk back from a node of the tree: it takes as many steps as the
    node is deep; the nodes it collects carry the moves that lead from
    the initial state to the state of the node. *)
Lemma walk_back_path (r0 : ref) (st0 : State) (store : list AStarNode) :
  (exists root, store !! r0 = Some root /\ parent root = None
                /\ state root = st0 /\ g root = 0) ->
  (forall i n, (S r0 < i)%nat -> store !! i = Some n ->
               tree_link rotate_90 r0 store i n) ->
  forall (i : ref) (n : AStarNode),
    (r0 <= i)%nat -> i <> S r0 -> store !! i = Some n ->
    exists (path : list ref) (ms : list move),
      path_moves store path = Ok ms
      /\ Forall (fun m => m ∈ all_moves) ms
      /\ apply_moves rotate_90 ms st0 = state n
      /\ Z.of_nat (length path) = g n
      /\ forall (fuel : nat) (rots : list ref),
           walk_back fuel store i (parent n) rots
           = if (length path <=? fuel)%nat then Ok (path ++ rots)
             else Timeout.
Proof.
  intros (root & Hr & Hpar & Hst & Hg) Htree i.
  induction i as [i IH] using lt_wf_ind. intros n Hi Hif Hn.
  destruct (decide (i = r0)) as [->|Hne].
  - replace n with root by congruence.
    exists [], []. split; [reflexivity|]. split; [constructor|].
    split; [symmetry; exact Hst|]. split; [cbn [length]; lia|].
    intros fuel rots. rewrite Hpar. destruct fuel; reflexivity.
  - destruct (Htree i n ltac:(lia) Hn)
      as (p & np & m & Hp & Hrange & Hpf & Hnp & Hs & Hrot & Hm & Hgn).
    destruct (IH p ltac:(lia) np ltac:(lia) Hpf Hnp)
      as (path & ms & Hpm & Hall & Happ & Hlen & Hwalk).
    exists (path ++ [i]), (ms ++ [m]). split.
    { apply path_moves_app; [exact Hpm|]. cbn [path_moves].
      apply deref_Ok in Hn as Hdn. rewrite Hdn. cbn [res_bind].
      rewrite Hrot. reflexivity. }
    split.
    { apply Forall_app. split; [exact Hall|]. apply Forall_singleton.
      exact Hm. }
    split.
    { rewrite apply_moves_app, Happ. symmetry. exact Hs. }
    split.
    { rewrite length_app. cbn [length]. lia. }
    intros fuel rots. rewrite Hp, length_app. cbn [length].
    rewrite Nat.add_1_r.
    destruct fuel as [|fuel]; cbn [walk_back]; [reflexivity|].
    apply deref_Ok in Hnp as Hdp. rewrite Hdp. cbn [res_bind].
    rewrite Hwalk. cbn [Nat.leb]. rewrite <- app_assoc. reflexivity.
Qed.

Lemma run_inv_step (r0 : ref) (st0 : State) (c c1 : loop_state)
    (fuel : nat) :
  run_inv rotate_90 r0 st0 c ->
  guard c.1.1 c.2 = true ->
  loop_body rotate_90 fuel (S r0) c.1.2 c.2 = Ok c1 ->
  run_inv rotate_90 r0 st0 c1.
Proof.
  destruct c as [[e rots] s], c1 as [[e1 rots1] s1]. unfold run_inv.
  cbn [fst snd]. intros (Hinv & Hrots & _) Hgd Hb.
  assert (He : e = false).
  { unfold guard in Hgd. destruct e; [discriminate|reflexivity]. }
  subst e. rewrite (Hrots eq_refl) in Hb. clear Hrots.
  split; [eapply loop_body_inv; eauto|].
  destruct Hinv as (Hd & Hroot & Hfin & Htree & HQ).
  destruct (loop_body_cases rotate_90 _ _ _ _ _ _ _ Hd Hb)
    as (x & sv1 & nx & nf & Hg & Hx & Hf & Hcase).
  destruct (get_best_node_in _ _ _ Hg) as (Hin & Hsub & Hsv1).
  rewrite Forall_forall in HQ. destruct (HQ x Hin) as [Hxr Hxf].
  destruct Hcase as [(-> & Hs & Hw & ->)
                    |(-> & Hs & -> & _)].
  - split; [discriminate|]. intros _.
    destruct (walk_back_path r0 st0 (nodes s) Hroot Htree x nx
                ltac:(lia) Hxf Hx)
      as (path & ms & Hpm & Hall & Happ & Hlen & Hwalk).
    rewrite Hwalk in Hw.
    destruct (length path <=? fuel)%nat; [|discriminate].
    injection Hw as <-. rewrite app_nil_r.
    exists ms. rewrite Hsv1. cbn [nodes set_State set_Q].
    split; [exact Hpm|]. split; [exact Hall|].
    rewrite Happ, Hs.
    destruct Hfin as (fin & Hfi & Hfin). congruence.
  - split; [reflexivity|discriminate].
Qed.

Lemma run_inv_reachable (sv sv0 : Solver) (final : ref) (c : loop_state) :
  Q sv = [] ->
  solve_init sv = Ok (final, sv0) ->
  reachable rotate_90 final (false, [], sv0) c ->
  final = S (length (nodes sv))
  /\ run_inv rotate_90 (length (nodes sv)) (cube sv) c.
Proof.
  intros HQ Hi Hr.
  destruct (solve_init_inv _ _ _ HQ Hi) as (-> & Hinv & _).
  split; [reflexivity|].
  refine (reachable_ind_inv rotate_90 _ _ _ _ _ Hr _).
  - intros c0 c1 fuel. apply run_inv_step.
  - split; [exact Hinv|]. split; [reflexivity|discriminate].
Qed.

(** X14.  Soundness of the search.  When [solve], started with an empty queue,
    ends through the solved branch, every node it returns carries one of
    the eighteen moves, and these moves, made in the order of the list on
    the state the cube had at the call, give the solved state. *)
Theorem solve_returns_a_solution (fuel : nat) (sv sv' : Solver)
    (rots : list ref) :
  Q sv = [] ->
  solve_run rotate_90 fuel sv = Ok (true, rots, sv') ->
  exists ms : list move,
    path_moves (nodes sv') rots = Ok ms
    /\ length ms = length rots
    /\ Forall (fun m => m ∈ all_moves) ms
    /\ apply_moves rotate_90 ms (cube sv) = solved_state.
Proof.
  intros HQ Hrun. unfold solve_run in Hrun.
  destruct (solve_init sv) as [[final sv0]| |] eqn:Hi;
    cbn [res_bind fst snd] in Hrun; try discriminate.
  apply (solve_loop_reachable rotate_90 fuel final (false, [], sv0))
    in Hrun as [Hr _].
  destruct (run_inv_reachable _ _ _ _ HQ Hi Hr) as (_ & _ & _ & Hsol).
  destruct (Hsol eq_refl) as (ms & Hpm & Hall & Happ).
  exists ms. split; [exact Hpm|].
  split; [eapply path_moves_length; exact Hpm|]. auto.
Qed.


(** *** No exception *)

Lemma get_best_node_total (s : Solver) :
  Q s <> [] ->
  Forall (fun r => is_Some (nodes s !! r)) (Q s) ->
  exists x q, get_best_node s = Ok (Some x, set_Q q s).
Proof.
  intros Hne Hval.
  destruct (get_best_node_spec s Hval) as [_ H].
  destruct (H Hne) as (x & nx & l1 & l2 & r1 & e & r2 & Hg & _). eauto.
Qed.

Lemma loop_body_progress (fuel : nat) (r0 : ref) (st0 : State)
    (rots : list ref) (s : Solver) :
  search_inv rotate_90 r0 st0 s ->
  visited_valid s ->
  guard false s = true ->
  (exists c1, loop_body rotate_90 fuel (S r0) rots s = Ok c1)
  \/ (loop_body rotate_90 fuel (S r0) rots s = Timeout
      /\ exists x s1 nx,
           get_best_node s = Ok (Some x, s1) /\ nodes s !! x = Some nx
           /\ state nx = solved_state /\ Z.of_nat fuel < g nx).
Proof.
  intros (Hd & Hroot & Hfin & Htree & HQ) Hv Hgd.
  assert (Hne : Q s <> []).
  { unfold guard in Hgd. cbn [negb andb] in Hgd.
    apply Nat.ltb_lt in Hgd. intros E. rewrite E in Hgd. cbn in Hgd. lia. }
  assert (Hval : Forall (fun r => is_Some (nodes s !! r)) (Q s)).
  { eapply Forall_impl; [exact HQ|]. intros q [Hq _].
    apply lookup_lt_is_Some_2. lia. }
  destruct (get_best_node_total s Hne Hval) as (x & q & Hg).
  destruct (get_best_node_in _ _ _ Hg) as (Hin & _ & _).
  rewrite Forall_forall in HQ. destruct (HQ x Hin) as [Hxr Hxf].
  destruct (lookup_lt_is_Some_2 (nodes s) x ltac:(lia)) as [nx Hx].
  destruct Hfin as (fin & Hfi & Hfin).
  unfold loop_body. rewrite Hg. cbn [res_bind fst snd nodes set_Q set_State].
  apply deref_Ok in Hx as Hdx. apply deref_Ok in Hfi as Hdf.
  rewrite Hdx. cbn [res_bind]. rewrite Hdf. cbn [res_bind].
  case_bool_decide as Hs.
  - destruct (walk_back_path r0 st0 (nodes s) Hroot Htree x nx
                ltac:(lia) Hxf Hx)
      as (path & ms & _ & _ & _ & Hlen & Hwalk).
    rewrite Hwalk. destruct (Nat.leb_spec (length path) fuel);
      cbn [res_bind]; [eauto|].
    right. split; [reflexivity|]. exists x, (set_Q q s), nx.
    split; [reflexivity|]. split; [exact Hx|]. split; [congruence|lia].
  - left. unfold get_next_states.
    rewrite (get_next_states_loop_exact rotate_90 all_moves x nx);
      [|exact Hx|exact Hd].
    cbn [res_bind fst snd app].
    match goal with
    | |- context [successors_loop ?U x ?sv2] =>
        destruct (successors_loop_total U x nx sv2) as [s2 Hs2]
    end.
    + cbn [nodes set_nodes set_State set_Q]. apply lookup_app_l_Some.
      exact Hx.
    + cbn [nodes set_nodes set_State set_Q]. apply successors_are_fresh.
    + unfold visited_valid.
      cbn [nodes visited_nodes set_nodes set_State set_Q].
      eapply Forall_impl; [exact Hv|]. intros r [n Hn].
      exists n. apply lookup_app_l_Some. exact Hn.
    + rewrite Hs2. cbn [res_bind]. eauto.
Qed.

Lemma loop_body_visited_valid (fuel : nat) (final : ref)
    (rots rots' : list ref) (s s' : Solver) (e : bool) :
  divisor s <> 0 ->
  visited_valid s ->
  loop_body rotate_90 fuel final rots s = Ok (e, rots', s') ->
  visited_valid s'.
Proof.
  intros Hd Hv Hb.
  destruct (loop_body_cases rotate_90 _ _ _ _ _ _ _ Hd Hb)
    as (x & sv1 & nx & nf & Hg & Hx & Hf & Hcase).
  destruct (get_best_node_in _ _ _ Hg) as (Hin & Hsub & Hsv1).
  destruct Hcase as [(-> & Hs & Hw & ->)
                    |(-> & Hs & -> & added & Hadd & _ & ->)].
  - rewrite Hsv1. exact Hv.
  - unfold visited_valid. cbn [nodes visited_nodes].
    apply Forall_app. split.
    + eapply Forall_impl; [exact Hv|]. intros r [n Hn].
      exists n. apply lookup_app_l_Some. exact Hn.
    + apply Forall_forall. intros r Hr.
      eapply elem_of_sublist in Hr; [|exact Hadd].
      apply elem_of_seq in Hr. apply lookup_lt_is_Some_2.
      rewrite length_app, length_map. lia.
Qed.

Lemma solve_loop_no_raise (r0 : ref) (st0 : State) (fuel : nat) (e0 : bool)
    (rots : list ref) (s : Solver) (e : exn) :
  search_inv rotate_90 r0 st0 s ->
  visited_valid s ->
  solve_loop rotate_90 fuel (S r0) e0 rots s <> Raise e.
Proof.
  revert e0 rots s. induction fuel as [|fuel IH]; intros e0 rots s Hinv Hv;
    cbn [solve_loop]; destruct (guard e0 s) eqn:Hgd; try discriminate.
  assert (He0 : e0 = false).
  { unfold guard in Hgd. destruct e0; [discriminate|reflexivity]. }
  subst e0.
  destruct (loop_body_progress fuel r0 st0 rots s Hinv Hv Hgd)
    as [[[[e1 r1] s1] Hb]|[Hb _]]; rewrite Hb; cbn [res_bind fst snd];
    [|discriminate].
  apply IH.
  - eapply loop_body_inv; eauto.
  - eapply loop_body_visited_valid; [|exact Hv|exact Hb].
    destruct Hinv as [Hd _]. exact Hd.
Qed.

(** In the tree of a search from a well-formed state, with a rotation
    that keeps states well formed, every node holds a well-formed
    state. *)
Lemma search_inv_valid (r0 : ref) (st0 : State) (s : Solver) :
  search_inv rotate_90 r0 st0 s ->
  valid_state st0 = true ->
  (forall (m : move) (st : State), m ∈ all_moves ->
     valid_state st = true ->
     valid_state (rotate_90 m.1.1 m.1.2 m.2 st) = true) ->
  forall (i : ref) (n : AStarNode),
    (r0 <= i)%nat -> nodes s !! i = Some n -> valid_state (state n) = true.
Proof.
  intros (_ & (root & Hr & _ & Hrs & _) & (fin & Hf & Hfs) & Htree & _)
         Hv0 Hrot i.
  induction i as [i IH] using lt_wf_ind. intros n Hi Hn.
  destruct (decide (i = r0)) as [->|Hne].
  { rewrite Hr in Hn. injection Hn as <-. rewrite Hrs. exact Hv0. }
  destruct (decide (i = S r0)) as [->|Hne'].
  { rewrite Hf in Hn. injection Hn as <-. rewrite Hfs. reflexivity. }
  destruct (Htree i n ltac:(lia) Hn)
    as (p & np & m & _ & Hp & _ & Hnp & Hst & _ & Hm & _).
  rewrite Hst. apply Hrot; [exact Hm|].
  apply (IH p); [lia|lia|exact Hnp].
Qed.

(** X15.  [solve] raises no exception on a well-formed cube.  Started with an
    empty queue, a visited index of live nodes and a divisor other than
    zero, on a cube of six faces of three rows of three stickers of the six
    colours, and with a rotation that turns well-formed states into
    well-formed states, a run either returns or is still running when the
    fuel is spent.  At every pass the state of the cube and the states of
    the nodes that the run created are well formed. *)
Theorem solve_never_raises (fuel : nat) (sv : Solver) (e : exn) :
  Q sv = [] ->
  visited_valid sv ->
  divisor sv <> 0 ->
  valid_state (cube sv) = true ->
  (forall (m : move) (st : State), m ∈ all_moves ->
     valid_state st = true ->
     valid_state (rotate_90 m.1.1 m.1.2 m.2 st) = true) ->
  solve_run rotate_90 fuel sv <> Raise e
  /\ solve rotate_90 fuel sv <> Raise e
  /\ forall (final : ref) (sv0 : Solver) (c : loop_state),
       solve_init sv = Ok (final, sv0) ->
       reachable rotate_90 final (false, [], sv0) c ->
       valid_state (cube c.2) = true
       /\ forall (i : ref) (n : AStarNode),
            (length (nodes sv) <= i)%nat -> nodes c.2 !! i = Some n ->
            valid_state (state n) = true.
Proof.
  intros HQ Hv Hd Hvc Hrot.
  assert (Hrun : solve_run rotate_90 fuel sv <> Raise e).
  { unfold solve_run.
    destruct (solve_init_total sv Hd) as [sv0 Hi]. rewrite Hi.
    cbn [res_bind fst snd].
    destruct (solve_init_inv _ _ _ HQ Hi) as (_ & Hinv & _ & Hv0 & Hlen).
    eapply solve_loop_no_raise; [exact Hinv|].
    unfold visited_valid. rewrite Hv0. apply Forall_app. split.
    - eapply Forall_impl; [exact Hv|]. intros r [n Hn].
      apply lookup_lt_is_Some_2. apply lookup_lt_Some in Hn.
      rewrite Hlen. lia.
    - apply Forall_singleton. apply lookup_lt_is_Some_2. lia. }
  split; [exact Hrun|]. split.
  { unfold solve.
    destruct (solve_run rotate_90 fuel sv) as [r| |]; cbn [res_bind];
      congruence. }
  intros final sv0 c Hi Hr.
  destruct (solve_init_inv _ _ _ HQ Hi) as (-> & Hinv & _).
  assert (HP : search_inv rotate_90 (length (nodes sv)) (cube sv) c.2
               /\ valid_state (cube c.2) = true).
  { refine (reachable_ind_inv rotate_90 _
              (fun c => search_inv rotate_90 (length (nodes sv)) (cube sv) c.2
                        /\ valid_state (cube c.2) = true) _ _ _ Hr _).
    - intros [[e0 rots0] s0] [[e1 rots1] s1] fuel0 [Hs0 Hc0] _ Hb.
      cbn [fst snd] in *.
      split; [eapply loop_body_inv; eauto|].
      assert (Hd0 : divisor s0 <> 0) by (destruct Hs0 as [H _]; exact H).
      destruct (loop_body_cases rotate_90 _ _ _ _ _ _ _ Hd0 Hb)
        as (x & s' & nx & nf & Hg & Hx & _ & Hcase).
      destruct (get_best_node_in _ _ _ Hg) as (Hin & _ & _).
      assert (Hvx : valid_state (state nx) = true).
      { apply (search_inv_valid _ _ _ Hs0 Hvc Hrot x nx); [|exact Hx].
        destruct Hs0 as (_ & _ & _ & _ & HQ0).
        rewrite Forall_forall in HQ0. destruct (HQ0 x Hin) as [Hq _]. lia. }
      destruct Hcase as [(_ & _ & _ & ->)
                        |(_ & _ & _ & added & _ & _ & ->)];
        cbn [cube set_State]; exact Hvx.
    - cbn [fst snd]. split; [exact Hinv|].
      destruct (solve_init_spec _ _ _ Hi) as (h0 & _ & _ & _ & Hc & _).
      rewrite Hc. exact Hvc. }
  destruct HP as [Hs Hc]. split; [exact Hc|].
  exact (search_inv_valid _ _ _ Hs Hvc Hrot).
Qed.

End TreeFacts.

(** ** Runs, the caller and the prompts *)

Section RunFacts.

Variable rotate_90 : axis -> Z -> Z -> State -> State.

(** The passes of a run that has not ended cost one unit of fuel each and
    nothing else. *)
Lemma reachable_prefix (final : ref) (c c' : loop_state) :
  reachable rotate_90 final c c' ->
  c'.1.1 = false ->
  exists n : nat, forall k : nat,
    solve_loop rotate_90 (n + k) final c.1.1 c.1.2 c.2
    = solve_loop rotate_90 k final c'.1.1 c'.1.2 c'.2.
Proof.
  intros Hr He.
  induction Hr as [c|[[e r] s] [[e1 r1] s1] c2 fuel0 Hgd Hb Hr IH].
  - exists 0%nat. reflexivity.
  - cbn [fst snd] in *.
    assert (He1 : e1 = false).
    { destruct e1; [|reflexivity].
      rewrite (reachable_ended rotate_90 _ _ _ Hr eq_refl) in He.
      discriminate. }
    subst e1. destruct (IH He) as [n Hn].
    exists (S n). intros k. cbn [Nat.add solve_loop]. rewrite Hgd.
    rewrite (loop_body_fuel rotate_90 fuel0 (n + k) _ _ _ _ _ Hb).
    cbn [res_bind fst snd]. apply Hn.
Qed.

(** X16.  The search ends when a solved node is popped.  If a run, started with
    an empty queue, gets to the head of the loop and the node popped there
    holds the solved state, then [solve] returns, given fuel enough; the
    list it returns has as many nodes as the popped node is deep. *)
Theorem solve_terminates_on_solved (sv sv0 s s1 : Solver) (final x : ref)
    (rots : list ref) (nx : AStarNode) :
  Q sv = [] ->
  solve_init sv = Ok (final, sv0) ->
  reachable rotate_90 final (false, [], sv0) (false, rots, s) ->
  get_best_node s = Ok (Some x, s1) ->
  nodes s !! x = Some nx ->
  state nx = solved_state ->
  exists (n : nat) (path : list ref),
    Z.of_nat (length path) = g nx
    /\ forall fuel : nat, (n <= fuel)%nat ->
         solve rotate_90 fuel sv = Ok (path, set_State solved_state s1).
Proof.
  intros HQ Hi Hr Hg Hx Hs.
  destruct (run_inv_reachable rotate_90 _ _ _ _ HQ Hi Hr)
    as (-> & Hinv & Hrots & _).
  cbn [fst snd] in *. rewrite (Hrots eq_refl) in *. clear Hrots.
  destruct Hinv as (Hd & Hroot & Hfin & Htree & HQs).
  destruct (get_best_node_in _ _ _ Hg) as (Hin & _ & _).
  destruct (get_best_node_frame _ _ _ Hg) as (Hn & _).
  rewrite Forall_forall in HQs. destruct (HQs x Hin) as [Hxr Hxf].
  destruct (walk_back_path rotate_90 _ _ (nodes s) Hroot Htree x nx
              ltac:(lia) Hxf Hx)
    as (path & ms & _ & _ & _ & Hlen & Hwalk).
  destruct (reachable_prefix _ _ _ Hr eq_refl) as [n0 Hpre].
  cbn [fst snd] in Hpre.
  exists (n0 + S (length path))%nat, path. split; [exact Hlen|].
  intros fuel Hfuel.
  replace fuel with (n0 + S (fuel - n0 - 1))%nat by lia.
  unfold solve, solve_run. rewrite Hi. cbn [res_bind fst snd].
  rewrite Hpre. cbn [solve_loop].
  assert (Hgd : guard false s = true).
  { unfold guard. cbn [negb andb]. apply Nat.ltb_lt.
    destruct (Q s); [inversion Hin|cbn [length]; lia]. }
  rewrite Hgd.
  destruct Hfin as (fin & Hfi & Hfin).
  assert (Hb : loop_body rotate_90 (fuel - n0 - 1)
                 (S (length (nodes sv))) [] s
               = Ok (true, path, set_State solved_state s1)).
  { unfold loop_body. rewrite Hg. cbn [res_bind fst snd].
    cbn [nodes set_State]. rewrite Hn.
    apply deref_Ok in Hx as Hdx. apply deref_Ok in Hfi as Hdf.
    rewrite Hdx. cbn [res_bind]. rewrite Hdf. cbn [res_bind].
    rewrite bool_decide_eq_true_2 by congruence.
    rewrite Hwalk.
    replace (length path <=? fuel - n0 - 1)%nat with true
      by (symmetry; apply Nat.leb_le; lia).
    cbn [res_bind]. rewrite app_nil_r, Hs. reflexivity. }
  rewrite Hb. cbn [res_bind fst snd].
  rewrite solve_loop_done by reflexivity. reflexivity.
Qed.

(** The queue is a part of the visited index, in the same order; when
    the visited index starts empty, the queued nodes hold pairwise
    different states. *)
Lemma queue_inv_reachable (sv sv0 : Solver) (final : ref) (c : loop_state) :
  Q sv = [] ->
  solve_init sv = Ok (final, sv0) ->
  reachable rotate_90 final (false, [], sv0) c ->
  sublist (Q c.2) (visited_nodes c.2)
  /\ (visited_nodes sv = [] -> visited_distinct c.2).
Proof.
  intros HQ Hi Hr.
  destruct (solve_init_inv rotate_90 _ _ _ HQ Hi)
    as (-> & Hinv & HQ0 & Hv0 & Hlen).
  assert (Hd0 : divisor sv0 <> 0) by (destruct Hinv as [Hd _]; exact Hd).
  refine (proj2 (reachable_ind_inv rotate_90 _
            (fun c : loop_state =>
               divisor c.2 <> 0
               /\ sublist (Q c.2) (visited_nodes c.2)
               /\ (visited_nodes sv = [] -> visited_distinct c.2))
            _ _ _ Hr _)).
  - intros [[e r] s] [[e1 r1] s1] fuel. cbn [fst snd].
    intros (Hd & Hsub & Hdist) Hgd Hb.
    destruct (loop_body_facts rotate_90 _ _ _ _ _ _ _ Hb)
      as (x0 & nx0 & nf0 & sv10 & _ & _ & _ & _ & _ & _ & _ & _ & Hdv & Hvd).
    split; [congruence|]. split; [|auto].
    destruct (loop_body_cases rotate_90 _ _ _ _ _ _ _ Hd Hb)
      as (x & sv1 & nx & nf & Hg & Hx & Hf & Hcase).
    destruct (get_best_node_in _ _ _ Hg) as (Hin & Hsub1 & Hsv1).
    destruct Hcase as [(-> & Hs & Hw & ->)
                      |(-> & Hs & -> & added & Hadd & _ & ->)].
    + rewrite Hsv1. cbn [Q visited_nodes set_State set_Q].
      etransitivity; [exact Hsub1|exact Hsub].
    + cbn [Q visited_nodes]. apply sublist_app; [|reflexivity].
      etransitivity; [exact Hsub1|exact Hsub].
  - cbn [fst snd]. split; [exact Hd0|]. split.
    + rewrite HQ0, Hv0. apply sublist_inserts_l. reflexivity.
    + intros Hv. unfold visited_distinct. rewrite Hv0, Hv. cbn [app].
      split.
      * apply Forall_singleton. lia.
      * cbn. apply NoDup_singleton.
Qed.

(** X18.  The queue is a part of the visited index; in a run whose visited
    index started empty no two queued nodes hold the same state. *)
Theorem queue_within_visited (sv sv0 : Solver) (final : ref)
    (c : loop_state) :
  Q sv = [] ->
  solve_init sv = Ok (final, sv0) ->
  reachable rotate_90 final (false, [], sv0) c ->
  sublist (Q c.2) (visited_nodes c.2)
  /\ (visited_nodes sv = [] ->
      NoDup (state_of (nodes c.2) <$> Q c.2)).
Proof.
  intros HQ Hi Hr.
  destruct (queue_inv_reachable _ _ _ _ HQ Hi Hr) as [Hsub Hdist].
  split; [exact Hsub|]. intros Hv. destruct (Hdist Hv) as [_ Hnd].
  refine (sublist_NoDup _ _ Hnd (fmap_sublist _ _ _ Hsub)).
Qed.

(** X19.  A cube that no move changes, and that is not solved, exhausts the
    search in one pass: every successor is found visited, the queue
    empties and [solve] returns the empty list. *)
Theorem unchanged_state_exhausts (fuel : nat) (sv : Solver) :
  Q sv = [] ->
  visited_valid sv ->
  divisor sv <> 0 ->
  cube sv <> solved_state ->
  (forall m : move, m ∈ all_moves ->
     rotate_90 m.1.1 m.1.2 m.2 (cube sv) = cube sv) ->
  exists sv' : Solver,
    solve rotate_90 (S fuel) sv = Ok ([], sv')
    /\ Q sv' = []
    /\ visited_nodes sv' = visited_nodes sv ++ [length (nodes sv)]
    /\ cube sv' = cube sv.
Proof.
  intros HQ Hv Hd Hns Hfix.
  destruct (solve_init_total sv Hd) as [sv0 Hi].
  destruct (solve_init_inv rotate_90 _ _ _ HQ Hi)
    as (_ & Hinv & HQ0 & Hv0 & Hlen).
  assert (Hvv0 : visited_valid sv0).
  { unfold visited_valid. rewrite Hv0. apply Forall_app. split.
    - eapply Forall_impl; [exact Hv|]. intros r [n Hn].
      apply lookup_lt_is_Some_2. apply lookup_lt_Some in Hn. lia.
    - apply Forall_singleton. apply lookup_lt_is_Some_2. lia. }
  assert (Hgd : guard false sv0 = true).
  { unfold guard. rewrite HQ0. reflexivity. }
  pose proof Hinv as (Hd0 & (root & Hr & Hrp & Hrs & Hrg)
                      & (fin & Hfi & Hfin) & Htree & HQs).
  assert (Hpop : forall x s1, get_best_node sv0 = Ok (Some x, s1) ->
                              x = length (nodes sv) /\ Q s1 = []).
  { intros x s1 Hg. destruct (get_best_node_in _ _ _ Hg) as (Hin & Hsub & _).
    rewrite HQ0 in Hin, Hsub. apply list_elem_of_singleton in Hin.
    split; [exact Hin|].
    assert (Hval : Forall (fun r => is_Some (nodes sv0 !! r)) (Q sv0)).
    { rewrite HQ0. apply Forall_singleton. eauto. }
    destruct (get_best_node_spec sv0 Hval) as [_ Hp].
    destruct Hp as (x' & nx' & l1 & l2 & r1 & e & r2 & Hg' & _ & _ & _ & _
                    & Hsplit & _); [rewrite HQ0; discriminate|].
    rewrite Hg' in Hg. injection Hg as _ <-. cbn [Q set_Q].
    rewrite HQ0 in Hsplit.
    destruct r1 as [|a r1]; [|destruct r1; discriminate].
    injection Hsplit as _ <-. reflexivity. }
  destruct (loop_body_progress rotate_90 fuel _ _ [] sv0 Hinv Hvv0 Hgd)
    as [[[[e1 r1] s1] Hb]|[_ (x & s1 & nx & Hg & Hx & Hs & _)]].
  2:{ destruct (Hpop _ _ Hg) as [-> _]. congruence. }
  destruct (loop_body_cases rotate_90 _ _ _ _ _ _ _ Hd0 Hb)
    as (x & sv1 & nx & nf & Hg & Hx & Hf & Hcase).
  destruct (Hpop _ _ Hg) as [-> HQ1].
  assert (nx = root) by congruence. subst nx.
  assert (nf = fin) by congruence. subst nf.
  destruct Hcase as [(-> & Hs & _)
                    |(-> & Hs & -> & added & Hadd & Hnew & ->)].
  { congruence. }
  assert (Hadded : added = []).
  { destruct added as [|u added]; [reflexivity|]. exfalso.
    apply Forall_cons in Hnew as [Hu _].
    assert (Hin : u ∈ seq (length (nodes sv0)) (length all_moves)).
    { eapply elem_of_sublist; [|exact Hadd]. apply elem_of_cons. auto. }
    apply elem_of_seq in Hin.
    destruct (lookup_lt_is_Some_2 all_moves (u - length (nodes sv0))%nat)
      as [m Hm]; [lia|].
    eapply (Hu (length (nodes sv)) root); [| exact Hr | |].
    - rewrite Hv0. apply elem_of_app. right. apply list_elem_of_singleton.
      reflexivity.
    - rewrite lookup_app_r by lia. rewrite list_lookup_fmap, Hm. reflexivity.
    - cbn [state successor_node new_node]. rewrite Hrs.
      symmetry. apply Hfix. eapply list_elem_of_lookup_2. exact Hm. }
  subst added. rewrite !app_nil_r in Hb.
  eexists. split; [|split; [|split]].
  - unfold solve, solve_run. rewrite Hi. cbn [res_bind fst snd solve_loop].
    rewrite Hgd, Hb. cbn [res_bind fst snd].
    rewrite solve_loop_done.
    + reflexivity.
    + unfold guard. cbn [Q]. rewrite HQ1. reflexivity.
  - cbn [Q]. exact HQ1.
  - cbn [visited_nodes]. exact Hv0.
  - cbn [cube]. exact Hrs.
Qed.

(** X12.  [get_next_states] creates eighteen nodes, one for each move in the
    order of the loops, each with the expanded node as parent and one step
    deeper; it changes neither the cube nor the queue nor the visited
    index.  With divisor 0 it raises [ZeroDivisionError]. *)
Theorem get_next_states_creates_successors (par : ref) (np : AStarNode)
    (sv : Solver) :
  nodes sv !! par = Some np ->
  (divisor sv <> 0 ->
   get_next_states rotate_90 par sv
   = Ok (seq (length (nodes sv)) 18,
         set_nodes (nodes sv
                    ++ map (successor_node rotate_90 par np (cube sv)
                                           (divisor sv)) all_moves) sv))
  /\ (divisor sv <> 0 ->
      forall st, heuristic st (divisor sv)
                 = Ok (heuristic_of st (divisor sv)))
  /\ (divisor sv = 0 ->
      get_next_states rotate_90 par sv = Raise ZeroDivisionError).
Proof.
  intros Hp. split; [|split].
  - intros Hd. unfold get_next_states.
    rewrite (get_next_states_loop_exact rotate_90 all_moves par np sv []
               Hp Hd).
    reflexivity.
  - intros Hd st. apply heuristic_table. exact Hd.
  - intros Hd. unfold get_next_states.
    assert (E : exists m rest, all_moves = m :: rest)
      by (vm_compute; eauto).
    destruct E as (m & rest & ->). cbn [get_next_states_loop].
    apply deref_Ok in Hp. rewrite Hp. cbn [res_bind].
    rewrite Hd, heuristic_zero_divisor_any. reflexivity.
Qed.

Lemma on_close_loop_path (b : bool) (store : list AStarNode)
    (rots : list ref) (ms : list move) (acc : list anim_move) :
  path_moves store rots = Ok ms ->
  on_close_loop b store rots acc
  = Ok (if b then acc ++ map encode_move ms else acc).
Proof.
  revert ms acc. induction rots as [|r rots IH]; intros ms acc H;
    cbn [path_moves on_close_loop] in *.
  - injection H as <-. destruct b; [rewrite app_nil_r|]; reflexivity.
  - destruct (deref store r) as [n| |]; cbn [res_bind] in *;
      try discriminate.
    destruct (rotation n) as [[|m ?]|]; try discriminate.
    destruct (path_moves store rots) as [ms'| |] eqn:Hp; cbn [res_bind] in H;
      try discriminate.
    injection H as <-. destruct b.
    + rewrite (IH ms' _ eq_refl). cbn [map]. rewrite <- app_assoc.
      reflexivity.
    + rewrite (IH ms' _ eq_refl). reflexivity.
Qed.

(** X20.  What [solve] returns can be read by the caller.  After a run started
    with an empty queue, each node of the returned list carries one of the
    eighteen moves, so the loop of [on_close] raises nothing; with the
    animation on it appends one encoded move per node, and without it it
    appends nothing. *)
Theorem on_close_reads_the_result (fuel : nat) (sv sv' : Solver)
    (e b : bool) (rots : list ref) (acc : list anim_move) :
  Q sv = [] ->
  solve_run rotate_90 fuel sv = Ok (e, rots, sv') ->
  exists ms : list move,
    path_moves (nodes sv') rots = Ok ms
    /\ length ms = length rots
    /\ Forall (fun m => m ∈ all_moves) ms
    /\ on_close_loop b (nodes sv') rots acc
       = Ok (if b then acc ++ map encode_move ms else acc).
Proof.
  intros HQ Hrun.
  assert (H : exists ms, path_moves (nodes sv') rots = Ok ms
                         /\ Forall (fun m => m ∈ all_moves) ms).
  { unfold solve_run in Hrun.
    destruct (solve_init sv) as [[final sv0]| |] eqn:Hi;
      cbn [res_bind fst snd] in Hrun; try discriminate.
    apply (solve_loop_reachable rotate_90 fuel final (false, [], sv0))
      in Hrun as [Hr _].
    destruct (run_inv_reachable rotate_90 _ _ _ _ HQ Hi Hr)
      as (_ & _ & Hno & Hsol).
    cbn [fst snd] in *. destruct e.
    - destruct (Hsol eq_refl) as (ms & Hpm & Hall & _). eauto.
    - rewrite (Hno eq_refl). exists []. split; [reflexivity|constructor]. }
  destruct H as (ms & Hpm & Hall). exists ms.
  split; [exact Hpm|]. split; [eapply path_moves_length; eauto|].
  split; [exact Hall|]. apply on_close_loop_path. exact Hpm.
Qed.

End RunFacts.

(** X21.  The encoding keeps the moves apart: two rotations with the same
    encoding are the same rotation. *)
Theorem encode_move_injective (m m' : move) :
  encode_move m = encode_move m' -> m = m'.
Proof.
  destruct m as [[a l] s], m' as [[a' l'] s']. unfold encode_move.
  cbn [fst snd]. destruct a, a'; intros H; try discriminate H;
    injection H as Hs Hl; assert (s = s') by lia; congruence.
Qed.

Lemma encode_move_injective_witness : (ax_y, 2, -1) = (ax_y, 2, -1).
Proof. apply (encode_move_injective (ax_y, 2, -1) (ax_y, 2, -1)). reflexivity. Defined.

(** *** The prompts *)

Lemma prompt_first_accepted (ok : Z -> bool)
    (prompt : list (option Z) -> option (Z * list (option Z))) :
  prompt [] = None ->
  (forall X rest, prompt (Some X :: rest)
                  = if ok X then Some (X, rest) else prompt rest) ->
  (forall rest, prompt (None :: rest) = prompt rest) ->
  forall inputs X rest,
    prompt inputs = Some (X, rest)
    <-> exists skipped,
          inputs = skipped ++ Some X :: rest
          /\ ok X = true /\ Forall (refused ok) skipped.
Proof.
  intros Hnil Hsome Hnone inputs X rest. split.
  - induction inputs as [|[Y|] inputs IH]; intros H.
    + rewrite Hnil in H. discriminate.
    + rewrite Hsome in H. destruct (ok Y) eqn:HY.
      * injection H as -> ->. exists []. auto.
      * destruct (IH H) as (sk & -> & HX & Hsk).
        exists (Some Y :: sk). split; [reflexivity|]. split; [exact HX|].
        apply Forall_cons. split; [|exact Hsk].
        intros n [= <-]. exact HY.
    + rewrite Hnone in H.
      destruct (IH H) as (sk & -> & HX & Hsk).
      exists (None :: sk). split; [reflexivity|]. split; [exact HX|].
      apply Forall_cons. split; [|exact Hsk]. intros n. discriminate.
  - intros (sk & -> & HX & Hsk).
    induction Hsk as [|[Y|] sk HY Hsk IH]; cbn [app].
    + rewrite Hsome, HX. reflexivity.
    + rewrite Hsome, (HY Y eq_refl). exact IH.
    + rewrite Hnone. exact IH.
Qed.

(** X22.  [get_initial_random_movements] answers the first number of the input
    that is at least 1, having read and refused everything before it; it
    never answers a number below 1. *)
Theorem get_initial_random_movements_first_valid
    (inputs rest : list (option Z)) (X : Z) :
  get_initial_random_movements inputs = Some (X, rest)
  <-> exists skipped,
        inputs = skipped ++ Some X :: rest
        /\ 1 <= X
        /\ Forall (refused (fun n => n >=? 1)) skipped.
Proof.
  rewrite (prompt_first_accepted (fun n => n >=? 1)
             get_initial_random_movements); try reflexivity.
  split; intros (sk & H1 & H2 & H3); exists sk; repeat split; auto; lia.
Qed.

(** X23.  The two yes/no prompts answer the first 0 or 1 of the input, and
    nothing else; on the same input they answer the same. *)
Theorem get_bool_prompts_first_valid (inputs rest : list (option Z))
    (X : Z) :
  (get_bool_render_img inputs = Some (X, rest)
   <-> exists skipped,
         inputs = skipped ++ Some X :: rest
         /\ (X = 1 \/ X = 0)
         /\ Forall (refused (fun n => (n =? 1) || (n =? 0))) skipped)
  /\ get_bool_animation inputs = get_bool_render_img inputs.
Proof.
  split.
  - rewrite (prompt_first_accepted (fun n => (n =? 1) || (n =? 0))
               get_bool_render_img); try reflexivity.
    split; intros (sk & H1 & H2 & H3); exists sk; repeat split; auto; lia.
  - induction inputs as [|[Y|] inputs IH]; cbn; [reflexivity| |exact IH].
    rewrite IH. destruct (Y =? 1), (Y =? 0); reflexivity.
Qed.

(** ** The heuristic and the centres; closed instances *)

Lemma moves_for_correct_cubie_stickers (pairs pairs' : list (Z * Z))
    (cubie : Z) :
  in_range 0 20 cubie = true ->
  stickers_of cubie pairs = stickers_of cubie pairs' ->
  moves_for_correct_cubie pairs cubie = moves_for_correct_cubie pairs' cubie.
Proof.
  intros Hr Hs. destruct (tables_agree cubie Hr) as (colors & Hd & _).
  unfold moves_for_correct_cubie, correct_position, correct_orientation.
  rewrite Hr.
  rewrite !(correct_position_loop_meaning cubie colors _ true Hd).
  rewrite !(correct_orientation_loop_meaning cubie colors _ 0 Hd).
  rewrite Hs. reflexivity.
Qed.

Lemma sum_moves_loop_stickers (pairs pairs' : list (Z * Z)) (ids : list Z)
    (acc : Z) :
  Forall (fun i => in_range 0 20 i = true
                   /\ stickers_of i pairs = stickers_of i pairs') ids ->
  sum_moves_loop pairs ids acc = sum_moves_loop pairs' ids acc.
Proof.
  revert acc. induction ids as [|i ids IH]; intros acc H; [reflexivity|].
  apply Forall_cons in H as [[Hr Hs] H]. cbn [sum_moves_loop].
  rewrite (moves_for_correct_cubie_stickers pairs pairs' i Hr Hs).
  destruct (moves_for_correct_cubie pairs' i) as [[k|]| |]; cbn [res_bind];
    try reflexivity.
  apply IH. exact H.
Qed.

(** X3.  The heuristic reads a state only through the stickers of the twenty
    movable pieces: two states that show the same colours on them, in the
    same order, get the same value, whatever their centre stickers. *)
Theorem heuristic_reads_piece_stickers (st st' : State) (d : Z) :
  (forall cubie : Z, 0 <= cubie < 20 ->
     stickers_of cubie (list_of_pairs st)
     = stickers_of cubie (list_of_pairs st')) ->
  heuristic st d = heuristic st' d.
Proof.
  intros H. unfold heuristic.
  rewrite (sum_moves_loop_stickers (list_of_pairs st) (list_of_pairs st')).
  - reflexivity.
  - apply Forall_forall. intros i Hi. apply elem_of_seqZ in Hi.
    split; [apply in_range_spec; lia|apply H; lia].
Qed.

Lemma heuristic_reads_piece_stickers_witness :
  recoloured_centre <> solved_state
  /\ heuristic solved_state 5 = heuristic recoloured_centre 5.
Proof.
  split; [vm_compute; discriminate|].
  apply (heuristic_reads_piece_stickers solved_state recoloured_centre 5).
  intros cubie Hc.
  assert (Hin : cubie ∈ seqZ 0 20) by (apply elem_of_seqZ; lia).
  clear Hc. revert cubie Hin. apply (proj1 (Forall_forall _ _)).
  refine (bool_decide_eq_true_1 _ _). vm_compute. reflexivity.
Defined.

Section Passes.

Variable rotate_90 : axis -> Z -> Z -> State -> State.

(** X13.  A pass that does not end the search: it appends the eighteen
    successors of the popped node to the store, leaves every other node
    untouched, sets the cube to the popped state, and adds to the queue and
    to the visited index, in order, exactly the successors that [unseen]
    keeps: those whose state no node of the visited index holds, the index
    taken as it grows during the pass. *)
Theorem expansion_pass_effect (fuel : nat) (final : ref)
    (rots rots' : list ref) (sv sv' : Solver) :
  divisor sv <> 0 ->
  loop_body rotate_90 fuel final rots sv = Ok (false, rots', sv') ->
  exists (x : ref) (sv1 : Solver) (nx : AStarNode) (added : list ref),
    get_best_node sv = Ok (Some x, sv1)
    /\ nodes sv !! x = Some nx
    /\ rots' = rots
    /\ nodes sv'
       = nodes sv ++ map (successor_node rotate_90 x nx (state nx)
                                         (divisor sv)) all_moves
    /\ cube sv' = state nx
    /\ added = unseen (nodes sv') (visited_nodes sv)
                      (seq (length (nodes sv)) 18)
    /\ Q sv' = Q sv1 ++ added
    /\ visited_nodes sv' = visited_nodes sv ++ added
    /\ sublist added (seq (length (nodes sv)) 18)
    /\ Forall (fun u => forall e ne nu,
                 e ∈ visited_nodes sv -> nodes sv !! e = Some ne ->
                 nodes sv' !! u = Some nu -> state ne <> state nu) added.
Proof.
  intros Hd Hb.
  pose proof (loop_body_unseen rotate_90 _ _ _ _ _ _ Hd Hb) as Hu.
  destruct (loop_body_cases rotate_90 _ _ _ _ _ _ _ Hd Hb)
    as (x & sv1 & nx & nf & Hg & Hx & Hf & Hcase).
  destruct Hcase as [(He & _)|(_ & Hs & -> & added & Hadd & Hnew & ->)];
    [discriminate|].
  cbn [nodes visited_nodes] in Hu. apply app_inv_head in Hu.
  exists x, sv1, nx, added. cbn [nodes cube Q visited_nodes].
  split; [exact Hg|]. split; [exact Hx|]. split; [reflexivity|].
  split; [reflexivity|]. split; [reflexivity|]. split; [exact Hu|].
  split; [reflexivity|]. split; [reflexivity|]. split; [exact Hadd|].
  exact Hnew.
Qed.

End Passes.

Lemma one_pass (sv : Solver) :
  guard false (after_init sv) = true ->
  loop_body shift_faces 0 1 [] (after_init sv)
  = Ok (after_pass shift_faces 1 (false, [], after_init sv)) ->
  reachable shift_faces 1 (false, [], after_init sv)
            (after_pass shift_faces 1 (false, [], after_init sv)).
Proof.
  intros Hg Hb.
  eapply (reach_step shift_faces 1%nat _ _ _ 0%nat);
    [exact Hg|exact Hb|apply reach_here].
Qed.

Lemma expansion_pass_effect_witness :
  unseen (nodes (after_pass shift_faces 1
                   (false, [], after_init (new_solver one_turn_away))).2)
         (visited_nodes (after_init (new_solver one_turn_away)))
         (seq (length (nodes (after_init (new_solver one_turn_away)))) 18)
  = [2; 3; 4; 6; 7]%nat
  /\ exists (x : ref) (sv1 : Solver) (nx : AStarNode) (added : list ref),
    get_best_node (after_init (new_solver one_turn_away)) = Ok (Some x, sv1)
    /\ nodes (after_init (new_solver one_turn_away)) !! x = Some nx
    /\ [] = @nil ref
    /\ nodes (after_pass shift_faces 1
                (false, [], after_init (new_solver one_turn_away))).2
       = nodes (after_init (new_solver one_turn_away))
         ++ map (successor_node shift_faces x nx (state nx)
                   (divisor (after_init (new_solver one_turn_away))))
                all_moves
    /\ cube (after_pass shift_faces 1
               (false, [], after_init (new_solver one_turn_away))).2
       = state nx
    /\ added
       = unseen (nodes (after_pass shift_faces 1
                          (false, [],
                           after_init (new_solver one_turn_away))).2)
                (visited_nodes (after_init (new_solver one_turn_away)))
                (seq (length (nodes (after_init (new_solver one_turn_away))))
                     18)
    /\ Q (after_pass shift_faces 1
            (false, [], after_init (new_solver one_turn_away))).2
       = Q sv1 ++ added
    /\ visited_nodes (after_pass shift_faces 1
            (false, [], after_init (new_solver one_turn_away))).2
       = visited_nodes (after_init (new_solver one_turn_away)) ++ added
    /\ sublist added
         (seq (length (nodes (after_init (new_solver one_turn_away)))) 18)
    /\ Forall (fun u => forall e ne nu,
                 e ∈ visited_nodes (after_init (new_solver one_turn_away)) ->
                 nodes (after_init (new_solver one_turn_away)) !! e = Some ne ->
                 nodes (after_pass shift_faces 1
                          (false, [], after_init (new_solver one_turn_away))).2
                   !! u = Some nu ->
                 state ne <> state nu) added.
Proof.
  split; [vm_compute; reflexivity|].
  apply (expansion_pass_effect shift_faces 0 1 [] []
           (after_init (new_solver one_turn_away))).
  - vm_compute. discriminate.
  - vm_compute. reflexivity.
Defined.

Lemma solve_returns_a_solution_witness :
  exists ms : list move,
    path_moves (nodes (after_run shift_faces 5 (new_solver one_turn_away)).2)
               [2%nat] = Ok ms
    /\ length ms = length [2%nat]
    /\ Forall (fun m => m ∈ all_moves) ms
    /\ apply_moves shift_faces ms (cube (new_solver one_turn_away))
       = solved_state.
Proof.
  apply (solve_returns_a_solution shift_faces 5 (new_solver one_turn_away)).
  - reflexivity.
  - vm_compute. reflexivity.
Defined.

Lemma shift_faces_valid (m : move) (st : State) :
  valid_state st = true ->
  valid_state (shift_faces m.1.1 m.1.2 m.2 st) = true.
Proof.
  unfold shift_faces, valid_state. intros H.
  apply andb_true_iff in H as [H6 Hf]. apply andb_true_iff. split.
  - rewrite length_rotate. exact H6.
  - rewrite forallb_forall in *. intros face Hin. apply Hf.
    apply list_elem_of_In. apply list_elem_of_In in Hin.
    apply elem_of_rotate in Hin. exact Hin.
Qed.

Lemma solve_never_raises_witness :
  solve_run shift_faces 3 (new_solver one_turn_away) <> Raise KeyError
  /\ solve shift_faces 3 (new_solver one_turn_away) <> Raise KeyError
  /\ forall (final : ref) (sv0 : Solver) (c : loop_state),
       solve_init (new_solver one_turn_away) = Ok (final, sv0) ->
       reachable shift_faces final (false, [], sv0) c ->
       valid_state (cube c.2) = true
       /\ forall (i : ref) (n : AStarNode),
            (length (nodes (new_solver one_turn_away)) <= i)%nat ->
            nodes c.2 !! i = Some n ->
            valid_state (state n) = true.
Proof.
  apply (solve_never_raises shift_faces 3 (new_solver one_turn_away)
           KeyError).
  - reflexivity.
  - unfold visited_valid. cbn. constructor.
  - discriminate.
  - vm_compute. reflexivity.
  - intros m st _ Hv. apply shift_faces_valid. exact Hv.
Defined.

Lemma solve_terminates_on_solved_witness :
  exists (s1 : Solver) (k : Z) (n : nat) (path : list ref),
    Z.of_nat (length path) = k
    /\ forall fuel : nat, (n <= fuel)%nat ->
         solve shift_faces fuel (new_solver one_turn_away)
         = Ok (path, set_State solved_state s1).
Proof.
  do 2 eexists.
  eapply (solve_terminates_on_solved shift_faces (new_solver one_turn_away)
            (after_init (new_solver one_turn_away))
            (after_pass shift_faces 1
               (false, [], after_init (new_solver one_turn_away))).2
            _ 1 2 []).
  - reflexivity.
  - vm_compute. reflexivity.
  - assert (E : (false, @nil ref,
                 (after_pass shift_faces 1
                    (false, [], after_init (new_solver one_turn_away))).2)
                = after_pass shift_faces 1
                    (false, [], after_init (new_solver one_turn_away)))
      by (vm_compute; reflexivity).
    rewrite E. apply one_pass; vm_compute; reflexivity.
  - match goal with
    | |- ?l = _ =>
        let v := eval vm_compute in l in
        transitivity v; [vm_compute; reflexivity|reflexivity]
    end.
  - match goal with
    | |- ?l = _ =>
        let v := eval vm_compute in l in
        transitivity v; [vm_compute; reflexivity|reflexivity]
    end.
  - vm_compute. reflexivity.
Defined.

Lemma queue_within_visited_witness :
  sublist (Q (after_pass shift_faces 1
                (false, [], after_init (new_solver one_turn_away))).2)
          (visited_nodes
             (after_pass shift_faces 1
                (false, [], after_init (new_solver one_turn_away))).2)
  /\ (visited_nodes (new_solver one_turn_away) = [] ->
      NoDup (state_of
               (nodes (after_pass shift_faces 1
                  (false, [], after_init (new_solver one_turn_away))).2)
             <$> Q (after_pass shift_faces 1
                  (false, [], after_init (new_solver one_turn_away))).2)).
Proof.
  apply (queue_within_visited shift_faces (new_solver one_turn_away)
           (after_init (new_solver one_turn_away)) 1).
  - reflexivity.
  - vm_compute. reflexivity.
  - apply one_pass; vm_compute; reflexivity.
Defined.

Lemma unchanged_state_exhausts_witness :
  exists sv' : Solver,
    solve shift_faces 1 (new_solver (uniform 0)) = Ok ([], sv')
    /\ Q sv' = []
    /\ visited_nodes sv' = visited_nodes (new_solver (uniform 0)) ++ [0%nat]
    /\ cube sv' = uniform 0.
Proof.
  apply (unchanged_state_exhausts shift_faces 0 (new_solver (uniform 0))).
  - reflexivity.
  - unfold visited_valid. cbn. constructor.
  - discriminate.
  - vm_compute. discriminate.
  - apply (proj1 (Forall_forall _ _)).
    refine (bool_decide_eq_true_1 _ _). vm_compute. reflexivity.
Defined.

Lemma get_next_states_creates_successors_witness :
  (divisor (mkSolver two_nodes solved_state [] [] 5) <> 0 ->
   get_next_states shift_faces 0 (mkSolver two_nodes solved_state [] [] 5)
   = Ok (seq 2 18,
         set_nodes
           (two_nodes
            ++ map (successor_node shift_faces 0
                      (new_node solved_state false None 0 0%Q None)
                      solved_state 5) all_moves)
           (mkSolver two_nodes solved_state [] [] 5)))
  /\ (divisor (mkSolver two_nodes solved_state [] [] 5) <> 0 ->
      forall st, heuristic st (divisor (mkSolver two_nodes solved_state
                                                 [] [] 5))
                 = Ok (heuristic_of st
                         (divisor (mkSolver two_nodes solved_state
                                            [] [] 5))))
  /\ (divisor (mkSolver two_nodes solved_state [] [] 5) = 0 ->
      get_next_states shift_faces 0 (mkSolver two_nodes solved_state [] [] 5)
      = Raise ZeroDivisionError).
Proof.
  apply (get_next_states_creates_successors shift_faces 0
           (new_node solved_state false None 0 0%Q None)
           (mkSolver two_nodes solved_state [] [] 5)).
  reflexivity.
Defined.

Lemma on_close_reads_the_result_witness :
  exists ms : list move,
    path_moves (nodes (after_run shift_faces 5 (new_solver one_turn_away)).2)
               [2%nat] = Ok ms
    /\ length ms = length [2%nat]
    /\ Forall (fun m => m ∈ all_moves) ms
    /\ on_close_loop true
         (nodes (after_run shift_faces 5 (new_solver one_turn_away)).2)
         [2%nat] []
       = Ok ([] ++ map encode_move ms).
Proof.
  apply (on_close_reads_the_result shift_faces 5
           (new_solver one_turn_away) _ true true [2%nat] []).
  - reflexivity.
  - vm_compute. reflexivity.
Defined.

Example prompts_skip_refused_input :
  get_initial_random_movements [None; Some 0; Some 3; Some 7]
  = Some (3, [Some 7])
  /\ get_bool_animation [Some 2; None; Some 0; Some 1] = Some (0, [Some 1])
  /\ get_bool_render_img [Some 5] = None.
Proof. repeat split. Qed.

(** ** The pairs of the heuristic and the costs of the nodes *)

Lemma combine_same_length (a b : list Z) :
  length a = length b ->
  map fst (combine a b) = a /\ map snd (combine a b) = b.
Proof.
  revert b. induction a as [|x a IH]; intros [|y b] H; cbn in *;
    try discriminate; [auto|].
  destruct (IH b) as [-> ->]; [lia|auto].
Qed.

Lemma zip_rows_same_shape (mface sface : list (list Z)) :
  Forall2 (fun r s => length r = length s) mface sface ->
  map fst (zip_rows mface sface) = concat mface
  /\ map snd (zip_rows mface sface) = concat sface.
Proof.
  unfold zip_rows. induction 1 as [|r s mface sface Hrs _ [IH1 IH2]].
  - auto.
  - cbn [combine flat_map concat fst snd]. rewrite !map_app, IH1, IH2.
    destruct (combine_same_length r s Hrs) as [-> ->]. auto.
Qed.

Lemma zip_faces_same_shape (m st : list (list (list Z))) :
  Forall2 (fun mf sf => Forall2 (fun r s => length r = length s) mf sf)
          m st ->
  map fst (zip_faces m st) = concat (concat m)
  /\ map snd (zip_faces m st) = concat (concat st).
Proof.
  unfold zip_faces. induction 1 as [|mf sf m st Hf _ [IH1 IH2]].
  - auto.
  - cbn [combine flat_map concat fst snd].
    rewrite !map_app, !concat_app, IH1, IH2.
    destruct (zip_rows_same_shape mf sf Hf) as [-> ->]. auto.
Qed.

Lemma Forall2_of_Forall {A B : Type} (P : A -> Prop) (R : B -> Prop)
    (l : list A) (k : list B) :
  length l = length k -> Forall P l -> Forall R k ->
  Forall2 (fun x y => P x /\ R y) l k.
Proof.
  revert k. induction l as [|x l IH]; intros [|y k] Hlen Hl Hk;
    cbn in Hlen; try discriminate; [constructor|].
  apply Forall_cons in Hl as [Hx Hl]. apply Forall_cons in Hk as [Hy Hk].
  constructor; [auto|]. apply IH; [lia|assumption|assumption].
Qed.

Lemma cube_shaped_shape (st : State) :
  cube_shaped st = true ->
  length st = 6%nat
  /\ Forall (fun face : list (list Z) =>
               length face = 3%nat
               /\ Forall (fun row : list Z => length row = 3%nat) face) st.
Proof.
  unfold cube_shaped. intros H. apply andb_true_iff in H as [H6 Hf].
  apply Nat.eqb_eq in H6. split; [exact H6|].
  apply Forall_forall. intros face Hin.
  rewrite forallb_forall in Hf.
  specialize (Hf face (proj1 (list_elem_of_In _ _) Hin)).
  apply andb_true_iff in Hf as [H3 Hr]. apply Nat.eqb_eq in H3.
  split; [exact H3|]. apply Forall_forall. intros row Hrow.
  rewrite forallb_forall in Hr.
  specialize (Hr row (proj1 (list_elem_of_In _ _) Hrow)).
  apply Nat.eqb_eq in Hr. exact Hr.
Qed.

Lemma cube_map_shape :
  Forall (fun face : list (list Z) =>
            length face = 3%nat
            /\ Forall (fun row : list Z => length row = 3%nat) face)
         cube_map.
Proof. repeat constructor. Qed.

Lemma zip_rows_length (mface sface : list (list Z)) :
  (length (zip_rows mface sface) <= length (concat mface))%nat.
Proof.
  unfold zip_rows. revert sface.
  induction mface as [|r mface IH]; intros [|s sface];
    cbn [combine flat_map concat length fst snd]; try lia.
  rewrite !length_app. specialize (IH sface).
  pose proof (length_combine r s). lia.
Qed.

Lemma zip_faces_length (m st : list (list (list Z))) :
  (length (zip_faces m st) <= length (concat (concat m)))%nat.
Proof.
  unfold zip_faces. revert st.
  induction m as [|mf m IH]; intros [|sf st];
    cbn [combine flat_map concat length fst snd]; try lia.
  rewrite concat_app, !length_app. specialize (IH st).
  pose proof (zip_rows_length mf sf). lia.
Qed.

(** X24.  The pairs that [heuristic] builds from a state given as faces of rows
    of stickers.  There are never more than 54 of them: the three [zip]s
    cut off what has no partner in [cube_map].  When the state has six
    faces of three rows of three stickers, whatever the stickers carry,
    the pairs are the 54 stickers, each paired with the id that [cube_map]
    gives its place, in order. *)
Theorem list_of_pairs_covers_the_cube (st : State) :
  (length (list_of_pairs st) <= 54)%nat
  /\ (cube_shaped st = true ->
      map fst (list_of_pairs st) = concat (concat cube_map)
      /\ map snd (list_of_pairs st) = concat (concat st)
      /\ length (list_of_pairs st) = 54%nat).
Proof.
  change (list_of_pairs st) with (zip_faces cube_map st). split.
  - exact (zip_faces_length cube_map st).
  - intros Hv. destruct (cube_shaped_shape st Hv) as [H6 Hsh].
    assert (Hshape : Forall2 (fun mf sf =>
                        Forall2 (fun r s => length r = length s) mf sf)
                       cube_map st).
    { pose (row3 := fun row : list Z => length row = 3%nat).
      pose (face3 := fun face : list (list Z) =>
                       length face = 3%nat /\ Forall row3 face).
      eapply Forall2_impl.
      - apply (Forall2_of_Forall face3 face3 cube_map st);
          [rewrite H6; reflexivity|exact cube_map_shape|exact Hsh].
      - intros mf sf [[Hm3 Hmr] [Hs3 Hsr]].
        eapply Forall2_impl.
        + apply (Forall2_of_Forall row3 row3 mf sf);
            [lia|exact Hmr|exact Hsr].
        + intros r s [Hr Hs]. unfold row3 in *. lia. }
    destruct (zip_faces_same_shape cube_map st Hshape) as [H1 H2].
    split; [exact H1|]. split; [exact H2|].
    rewrite <- (length_map fst), H1. reflexivity.
Qed.

Lemma list_of_pairs_covers_the_cube_witness :
  cube_shaped off_colour = true
  /\ valid_state off_colour = false
  /\ map fst (list_of_pairs off_colour) = concat (concat cube_map)
  /\ map snd (list_of_pairs off_colour) = concat (concat off_colour)
  /\ length (list_of_pairs off_colour) = 54%nat.
Proof.
  split; [reflexivity|]. split; [reflexivity|].
  apply (list_of_pairs_covers_the_cube off_colour). reflexivity.
Defined.

Section Costs.

Variable rotate_90 : axis -> Z -> Z -> State -> State.

Lemma costs_reachable (sv sv0 : Solver) (final : ref) (c : loop_state) :
  Q sv = [] ->
  solve_init sv = Ok (final, sv0) ->
  reachable rotate_90 final (false, [], sv0) c ->
  divisor c.2 = divisor sv
  /\ forall i n, (length (nodes sv) <= i)%nat -> i <> final ->
                 nodes c.2 !! i = Some n ->
                 costs_consistent (divisor sv) n.
Proof.
  intros HQ Hi Hr.
  destruct (solve_init_spec _ _ _ Hi)
    as (h0 & Hh & Hfin & Hn & Hc & HQ0 & Hv & Hd).
  assert (Hd0 : divisor sv <> 0) by (eapply heuristic_Ok_divisor; eauto).
  destruct (run_inv_reachable rotate_90 _ _ _ _ HQ Hi
              (reach_here rotate_90 final (false, [], sv0)))
    as [_ Hinv0].
  refine (proj2 (reachable_ind_inv rotate_90 final
            (fun c : loop_state =>
               run_inv rotate_90 (length (nodes sv)) (cube sv) c
               /\ divisor c.2 = divisor sv
               /\ forall i n, (length (nodes sv) <= i)%nat -> i <> final ->
                              nodes c.2 !! i = Some n ->
                              costs_consistent (divisor sv) n)
            _ _ _ Hr _)).
  - intros [[e r] s] [[e1 r1] s1] fuel. cbn [fst snd].
    intros (Hinv & Hdiv & Hgood) Hgd Hb. subst final.
    split; [eapply (run_inv_step rotate_90 _ _ (e, r, s)); eauto|].
    destruct Hinv as ((Hds & _ & _ & _ & HQs) & _). cbn [fst snd] in *.
    destruct (loop_body_cases rotate_90 _ _ _ _ _ _ _ Hds Hb)
      as (x & sv1 & nx & nf & Hg & Hx & Hf & Hcase).
    destruct (get_best_node_in _ _ _ Hg) as (Hin & _ & Hsv1).
    rewrite Forall_forall in HQs. destruct (HQs x Hin) as [Hxr Hxf].
    destruct Hcase as [(-> & Hs & Hw & ->)
                      |(-> & Hs & -> & added & Hadd & _ & ->)].
    + rewrite Hsv1. cbn [nodes divisor set_State set_Q]. auto.
    + cbn [nodes divisor]. split; [exact Hdiv|].
      intros i n Hi' Hif Hl.
      destruct (decide (i < length (nodes s))%nat) as [Hlt|Hge].
      * rewrite lookup_app_l in Hl by exact Hlt. eapply Hgood; eauto.
      * rewrite lookup_app_r in Hl by lia. rewrite list_lookup_fmap in Hl.
        destruct (all_moves !! (i - length (nodes s))%nat) as [m|];
          [|discriminate].
        injection Hl as <-.
        destruct (Hgood x nx ltac:(lia) Hxf Hx) as (_ & _ & Hg0).
        unfold costs_consistent.
        cbn [f g h state successor_node new_node].
        split; [reflexivity|]. split; [|lia].
        rewrite Hdiv. apply heuristic_table. exact Hd0.
  - cbn [fst snd]. split; [exact Hinv0|]. split; [exact Hd|].
    intros i n Hi' Hif Hl. rewrite Hn in Hl.
    assert (i = length (nodes sv)).
    { apply lookup_lt_Some in Hl. rewrite length_app in Hl.
      cbn [length] in Hl. lia. }
    subst i. rewrite lookup_app_r in Hl by lia.
    rewrite Nat.sub_diag in Hl. injection Hl as <-.
    unfold costs_consistent. cbn [f g h state new_node].
    split; [reflexivity|]. split; [exact Hh|lia].
Qed.

(** X25.  The costs of the nodes of the search.  At every pass of a run started
    with an empty queue, each node that [solve] has put in the store, the
    initial node and every successor, has [f] equal to [g] plus [h], with
    [h] the heuristic of its own state and [g] not negative. *)
Theorem node_costs_consistent (sv sv0 : Solver) (final : ref)
    (c : loop_state) (i : ref) (n : AStarNode) :
  Q sv = [] ->
  solve_init sv = Ok (final, sv0) ->
  reachable rotate_90 final (false, [], sv0) c ->
  (length (nodes sv) <= i)%nat -> i <> final ->
  nodes c.2 !! i = Some n ->
  f n = (inject_Z (g n) + h n)%Q
  /\ heuristic (state n) (divisor sv) = Ok (h n)
  /\ 0 <= g n.
Proof.
  intros HQ Hi Hr Hi' Hif Hl.
  destruct (costs_reachable _ _ _ _ HQ Hi Hr) as [_ H].
  exact (H i n Hi' Hif Hl).
Qed.

End Costs.

Lemma node_costs_consistent_witness :
  exists n : AStarNode,
    nodes (after_pass shift_faces 1
             (false, [], after_init (new_solver one_turn_away))).2 !! 2%nat
    = Some n
    /\ f n = (inject_Z (g n) + h n)%Q
    /\ heuristic (state n) (divisor (new_solver one_turn_away)) = Ok (h n)
    /\ 0 <= g n.
Proof.
  eexists. split.
  - match goal with
    | |- ?l = _ =>
        let v := eval vm_compute in l in
        transitivity v; [vm_compute; reflexivity|reflexivity]
    end.
  - apply (node_costs_consistent shift_faces (new_solver one_turn_away)
             (after_init (new_solver one_turn_away)) 1
             (after_pass shift_faces 1
                (false, [], after_init (new_solver one_turn_away)))
             2).
    + reflexivity.
    + vm_compute. reflexivity.
    + apply one_pass; vm_compute; reflexivity.
    + cbn. lia.
    + discriminate.
    + vm_compute. reflexivity.
Defined.
